(** * Sikuwa: incremental recompilation core and build cache

    A shallow embedding of [src/incremental/cpp/incremental_core.cpp] and
    [src/cpp_cache/smart_cache.cpp], followed by the properties of the
    natural-language specification that were checked against it.

    Conventions of the embedding:
    - [std::string] is [string]; a [char] is an [ascii];
    - [uint64_t] and [size_t] values that can wrap are [Z] reduced modulo
      [2^64]; counters and indices that cannot realistically wrap are [nat];
      [int] line numbers are [Z];
    - [std::unordered_map<K,V>] is [gmap K V], [std::unordered_set<K>] is
      [gset K]; where the source iterates over one of them the order is
      whatever [elements] / [map_to_list] give, and no theorem depends on it;
    - a pointer [CompilationUnit*] into [units_] is the key of the pointee;
    - the clock and the file system are explicit arguments. *)

From Stdlib Require Import ZArith Ascii String List.
From stdpp Require Import gmap strings list fin_maps sorting.

Local Open Scope string_scope.
Local Open Scope Z_scope.

Set Warnings "-clear-no-such-hyp".

(** ** Hashing and line utilities *)

(** Signedness of plain [char], which the C++ standard leaves to the ABI
    (signed on x86 and x86-64 with GCC, Clang and MSVC; unsigned on the ARM
    Linux ABIs). *)
Inductive char_abi := SignedChar | UnsignedChar.

Definition two64 : Z := 2 ^ 64.

(** The octet stored in a [char]. *)
Definition byte_of (c : ascii) : Z := Z.of_N (N_of_ascii c).

(** [static_cast<uint64_t>(data[i])] for [const char* data]: the value of the
    [char] (negative above 0x7f when [char] is signed) reduced modulo 2^64. *)
Definition char_to_uint64 (abi : char_abi) (c : ascii) : Z :=
  match abi with
  | UnsignedChar => byte_of c
  | SignedChar =>
      if byte_of c <? 128 then byte_of c else (byte_of c - 256) mod two64
  end.

(** The loop of [fnv1a_hash], started from an arbitrary accumulator. *)
Fixpoint fnv1a_loop (abi : char_abi) (data : string) (hash : Z) : Z :=
  match data with
  | EmptyString => hash
  | String c rest =>
      let hash1 := Z.lxor hash (char_to_uint64 abi c) in
      let hash2 := (hash1 * 1099511628211) mod two64 in
      fnv1a_loop abi rest hash2
  end.

Definition fnv1a_hash (abi : char_abi) (data : string) : Z :=
  fnv1a_loop abi data 14695981039346656037.

(** One lowercase hexadecimal digit. *)
Definition hex_digit (d : Z) : ascii :=
  if d <? 10 then ascii_of_N (Z.to_N (48 + d)) else ascii_of_N (Z.to_N (87 + d)).

(** [os << std::hex << v]: the digits of [v] without leading zeros ("0" for
    zero); [fuel] bounds the number of digits (16 for a 64-bit value). *)
Fixpoint hex_aux (fuel : nat) (v : Z) (acc : string) : string :=
  match fuel with
  | O => acc
  | S f =>
      if v <? 16 then String (hex_digit v) acc
      else hex_aux f (v / 16) (String (hex_digit (v mod 16)) acc)
  end.

Definition to_hex (v : Z) : string := hex_aux 16 v "".

Fixpoint fill_string (n : nat) (c : ascii) : string :=
  match n with O => "" | S n' => String c (fill_string n' c) end.

(** [std::setfill(c) << std::setw(w)] applied to one output item. *)
Definition setw (w : nat) (c : ascii) (s : string) : string :=
  fill_string (w - String.length s) c ++ s.

Definition compute_hash (abi : char_abi) (content : string) : string :=
  setw 16 "0"%char (to_hex (fnv1a_hash abi content)).

Definition newline : ascii := ascii_of_nat 10.
Definition nl : string := String newline "".

(** [split_lines]: [std::getline] until it fails; [cur] is the line being
    read.  At end of input a line is produced only if characters were read. *)
Fixpoint split_lines_from (content cur : string) : list string :=
  match content with
  | EmptyString => match cur with EmptyString => [] | _ => [cur] end
  | String c rest =>
      if Ascii.eqb c newline then cur :: split_lines_from rest ""
      else split_lines_from rest (cur ++ String c "")
  end.

Definition split_lines (content : string) : list string :=
  split_lines_from content "".

(** [join_lines]: a newline before every element but the first. *)
Fixpoint join_lines_from (i : nat) (lines : list string) : string :=
  match lines with
  | [] => ""
  | l :: rest =>
      (if (0 <? i)%nat then nl else "") ++ l ++ join_lines_from (S i) rest
  end.

Definition join_lines (lines : list string) : string := join_lines_from 0 lines.

(** The characters of [" \t\r\n"]. *)
Definition is_blank (c : ascii) : bool :=
  (Ascii.eqb c " " || Ascii.eqb c (ascii_of_nat 9)
   || Ascii.eqb c (ascii_of_nat 13) || Ascii.eqb c newline)%bool.

(** [find_first_not_of(" \t\r\n")] from index [i]; [None] is [npos]. *)
Fixpoint find_first_not_blank (s : string) (i : nat) : option nat :=
  match s with
  | EmptyString => None
  | String c rest => if is_blank c then find_first_not_blank rest (S i) else Some i
  end.

(** [find_last_not_of(" \t\r\n")]; [None] is [npos]. *)
Fixpoint find_last_not_blank (s : string) (i : nat) : option nat :=
  match s with
  | EmptyString => None
  | String c rest =>
      match find_last_not_blank rest (S i) with
      | Some k => Some k
      | None => if is_blank c then None else Some i
      end
  end.

Definition compute_line_hash (abi : char_abi) (line : string) : string :=
  match find_first_not_blank line 0 with
  | None => "empty"
  | Some start =>
      let e := default 0%nat (find_last_not_blank line 0) in
      let trimmed := substring start (e - start + 1) line in
      compute_hash abi trimmed
  end.

(** ** Compilation units *)

Inductive UnitType :=
  LINE | STATEMENT | FUNCTION | CLASS | MODULE | IMPORT | DECORATOR | BLOCK.

Inductive UnitState := UNKNOWN | UNCHANGED | MODIFIED | ADDED | DELETED | AFFECTED.

Record CompilationUnit := mkUnit {
  id : string;
  file_path : string;
  start_line : Z;
  end_line : Z;
  type : UnitType;
  name : string;
  content_hash : string;
  dependencies : list string;
  dependents : list string;
  state : UnitState;
  cached_output : string;
  cache_timestamp : Z;
  cache_valid : bool
}.

Record Snapshot := mkSnapshot {
  snap_file_path : string;
  snap_content_hash : string;
  line_hashes : list string;
  snap_units : gmap string CompilationUnit;
  timestamp : Z
}.

Record ChangeRecord := mkChange {
  unit_id : string;
  change_type : UnitState;
  old_start_line : Z;
  old_end_line : Z;
  new_start_line : Z;
  new_end_line : Z;
  reason : string
}.

(** ** ChangeDetector *)

Definition create_snapshot (abi : char_abi) (now : Z) (path content : string)
  : Snapshot :=
  {| snap_file_path := path;
     snap_content_hash := compute_hash abi content;
     line_hashes := map (compute_line_hash abi) (split_lines content);
     snap_units := ∅;
     timestamp := now |}.

(** Row [i] of the table from row [i-1] ([prev]): [left] is [dp[i][j-1]],
    the head of [prev] is [dp[i-1][j-1]] and its second element [dp[i-1][j]]. *)
Fixpoint fill_row (o : string) (new_lines : list string) (prev : list nat)
  (left : nat) : list nat :=
  match new_lines, prev with
  | nj :: rest, diag :: ((up :: _) as prev') =>
      let v := if String.eqb o nj then (diag + 1)%nat else Nat.max up left in
      v :: fill_row o rest prev' v
  | _, _ => []
  end.

Definition next_row (o : string) (new_lines : list string) (prev : list nat)
  : list nat :=
  O :: fill_row o new_lines prev O.

Fixpoint build_rows (old_lines new_lines : list string) (prev : list nat)
  : list (list nat) :=
  match old_lines with
  | [] => []
  | o :: rest =>
      let r := next_row o new_lines prev in
      r :: build_rows rest new_lines r
  end.

(** The filled [(m+1) x (n+1)] table [dp]. *)
Definition lcs_table (old_lines new_lines : list string) : list (list nat) :=
  let r0 := replicate (S (length new_lines)) O in
  r0 :: build_rows old_lines new_lines r0.

Definition dp_at (t : list (list nat)) (i j : nat) : nat :=
  nth j (nth i t []) O.

(** The backtrace loop [while (i > 0 && j > 0)]; the result lists the pairs
    in the order they are pushed (last matching pair first). *)
Fixpoint backtrace (t : list (list nat)) (old_lines new_lines : list string)
  (i : nat) : nat -> list (nat * nat) :=
  fix inner (j : nat) : list (nat * nat) :=
    match i, j with
    | S i', S j' =>
        if String.eqb (nth i' old_lines "") (nth j' new_lines "") then
          (i', j') :: backtrace t old_lines new_lines i' j'
        else if (dp_at t (S i') j' <? dp_at t i' (S j'))%nat then
          backtrace t old_lines new_lines i' (S j')
        else inner j'
    | _, _ => []
    end.

Definition compute_lcs (old_lines new_lines : list string) : list (nat * nat) :=
  let t := lcs_table old_lines new_lines in
  rev (backtrace t old_lines new_lines (length old_lines) (length new_lines)).

Definition get_changed_lines (old_snap new_snap : Snapshot) : list Z :=
  let new_size := length (line_hashes new_snap) in
  let lcs := compute_lcs (line_hashes old_snap) (line_hashes new_snap) in
  let lcs_new_lines : gset nat := list_to_set (map snd lcs) in
  map (fun i : nat => Z.of_nat i + 1)
      (filter (fun i : nat => i ∉ lcs_new_lines) (seq 0 new_size)).

(** ** UnitManager *)

Definition set_dependencies (l : list string) (u : CompilationUnit) : CompilationUnit :=
  mkUnit (id u) (file_path u) (start_line u) (end_line u) (type u) (name u)
         (content_hash u) l (dependents u) (state u) (cached_output u)
         (cache_timestamp u) (cache_valid u).

Definition set_dependents (l : list string) (u : CompilationUnit) : CompilationUnit :=
  mkUnit (id u) (file_path u) (start_line u) (end_line u) (type u) (name u)
         (content_hash u) (dependencies u) l (state u) (cached_output u)
         (cache_timestamp u) (cache_valid u).

Definition set_state (s : UnitState) (u : CompilationUnit) : CompilationUnit :=
  mkUnit (id u) (file_path u) (start_line u) (end_line u) (type u) (name u)
         (content_hash u) (dependencies u) (dependents u) s (cached_output u)
         (cache_timestamp u) (cache_valid u).

Definition set_cache_valid (b : bool) (u : CompilationUnit) : CompilationUnit :=
  mkUnit (id u) (file_path u) (start_line u) (end_line u) (type u) (name u)
         (content_hash u) (dependencies u) (dependents u) (state u)
         (cached_output u) (cache_timestamp u) b.

Definition set_cached (out : string) (ts : Z) (u : CompilationUnit) : CompilationUnit :=
  mkUnit (id u) (file_path u) (start_line u) (end_line u) (type u) (name u)
         (content_hash u) (dependencies u) (dependents u) (state u)
         out ts (cache_valid u).

Record UnitManager := mkManager {
  units_ : gmap string CompilationUnit;
  file_units_ : gmap string (list string)
}.

Definition empty_manager : UnitManager := mkManager ∅ ∅.

(** [std::remove] + [erase]: drop every element equal to [x]. *)
Definition erase_all (x : string) (l : list string) : list string :=
  filter (fun y => y ≠ x) l.

Definition add_unit (u : CompilationUnit) (m : UnitManager) : UnitManager :=
  mkManager (<[id u := u]> (units_ m))
            (<[file_path u := ((file_units_ m !!! file_path u) ++ [id u])%list]>
               (file_units_ m)).

Definition update_unit (k : string) (u : CompilationUnit) (m : UnitManager)
  : UnitManager :=
  match units_ m !! k with
  | Some _ => mkManager (<[k := u]> (units_ m)) (file_units_ m)
  | None => m
  end.

(** One round of the loop over [it->second.dependencies] in [remove_unit]. *)
Definition scrub_dependent (x : string) (us : gmap string CompilationUnit)
  (dep_id : string) : gmap string CompilationUnit :=
  match us !! dep_id with
  | Some d => <[dep_id := set_dependents (erase_all x (dependents d)) d]> us
  | None => us
  end.

Definition remove_unit (x : string) (m : UnitManager) : UnitManager :=
  match units_ m !! x with
  | Some u =>
      let file_ids := erase_all x (file_units_ m !!! file_path u) in
      let us := foldl (scrub_dependent x) (units_ m) (dependencies u) in
      mkManager (delete x us) (<[file_path u := file_ids]> (file_units_ m))
  | None => m
  end.

Definition get_unit (k : string) (m : UnitManager) : option CompilationUnit :=
  units_ m !! k.

(** Insertion of a pointer into a list ordered by [start_line]. *)
Fixpoint insert_by_start (us : gmap string CompilationUnit) (k : string)
  (l : list string) : list string :=
  match l with
  | [] => [k]
  | k' :: rest =>
      if (default 0 (start_line <$> us !! k)) <? (default 0 (start_line <$> us !! k'))
      then k :: k' :: rest
      else k' :: insert_by_start us k rest
  end.

(** [std::sort] with the comparator [a->start_line < b->start_line].  The
    order of units with equal [start_line] is left open by [std::sort]; this
    model keeps them in their incoming order. *)
Definition sort_by_start (us : gmap string CompilationUnit) (l : list string)
  : list string :=
  foldl (fun acc k => insert_by_start us k acc) [] l.

(** The result lists pointers into [units_], that is, keys. *)
Definition get_units_by_file (path : string) (m : UnitManager) : list string :=
  let found :=
    match file_units_ m !! path with
    | Some ids => filter (fun k => is_Some (units_ m !! k)) ids
    | None => []
    end in
  sort_by_start (units_ m) found.

Definition overlaps (s e : Z) (u : CompilationUnit) : bool :=
  (start_line u <=? e) && (s <=? end_line u).

Definition get_units_in_range (path : string) (s e : Z) (m : UnitManager)
  : list string :=
  List.filter (fun k => match units_ m !! k with
                        | Some u => overlaps s e u
                        | None => false
                        end)
              (get_units_by_file path m).

Definition push_unique (x : string) (l : list string) : list string :=
  if decide (x ∈ l) then l else (l ++ [x])%list.

(** [from_unit] and [to_unit] may be the same object; the second update
    reads the unit as the first one left it. *)
Definition add_dependency (from_id to_id : string) (m : UnitManager) : UnitManager :=
  match units_ m !! from_id, units_ m !! to_id with
  | Some f, Some _ =>
      let us1 := <[from_id := set_dependencies (push_unique to_id (dependencies f)) f]>
                   (units_ m) in
      match us1 !! to_id with
      | Some t =>
          mkManager (<[to_id := set_dependents (push_unique from_id (dependents t)) t]> us1)
                    (file_units_ m)
      | None => mkManager us1 (file_units_ m)
      end
  | _, _ => m
  end.

Definition remove_dependency (from_id to_id : string) (m : UnitManager) : UnitManager :=
  let us1 :=
    match units_ m !! from_id with
    | Some f => <[from_id := set_dependencies (erase_all to_id (dependencies f)) f]>
                  (units_ m)
    | None => units_ m
    end in
  (* [to_unit] was looked up before the first update, but it points into the
     map: what it sees is the updated object. *)
  let us2 :=
    match us1 !! to_id with
    | Some t => <[to_id := set_dependents (erase_all from_id (dependents t)) t]> us1
    | None => us1
    end in
  mkManager us2 (file_units_ m).

Definition get_dependencies (k : string) (m : UnitManager) : list string :=
  match units_ m !! k with Some u => dependencies u | None => [] end.

Definition get_dependents (k : string) (m : UnitManager) : list string :=
  match units_ m !! k with Some u => dependents u | None => [] end.

(** The loop [for (dependent_id : unit->dependents)] around a recursive
    call [visit], with [visited] threaded through the calls. *)
Definition visit_all (visit : string -> gset string -> option (gset string))
  (acc : option (gset string)) (ds : list string) : option (gset string) :=
  foldl (fun acc dependent_id =>
           match acc with
           | Some v => visit dependent_id v
           | None => None
           end) acc ds.

(** [collect_affected_recursive]; [fuel] bounds the depth of the recursion
    and [None] means that it was exhausted.  [visited] is passed by
    reference in the source and threaded here. *)
Fixpoint collect_affected_recursive (fuel : nat) (m : UnitManager) (x : string)
  (visited : gset string) : option (gset string) :=
  match fuel with
  | O => None
  | S fuel' =>
      if decide (x ∈ visited) then Some visited
      else
        let visited1 := {[x]} ∪ visited in
        match units_ m !! x with
        | None => Some visited1
        | Some u =>
            visit_all (collect_affected_recursive fuel' m) (Some visited1)
                      (dependents u)
        end
  end.

(** Every id the traversal can meet: the start id, the keys of [units_] and
    the ids listed as dependents. *)
Definition all_dependents (m : UnitManager) : gset string :=
  ⋃ ((fun ku : string * CompilationUnit => list_to_set (dependents ku.2))
       <$> map_to_list (units_ m)).

Definition id_universe (m : UnitManager) (x : string) : gset string :=
  {[x]} ∪ dom (units_ m) ∪ all_dependents m.

(** The recursion never goes deeper than the number of ids it can meet, so
    this much fuel is enough ([collect_from_start_total] below). *)
Definition affected_fuel (m : UnitManager) (x : string) : nat :=
  S (size (id_universe m x)).

(** [get_affected_units]: the visited set without [changed_id], listed in
    the iteration order of the set. *)
Definition get_affected_set (m : UnitManager) (changed_id : string)
  : option (gset string) :=
  match collect_affected_recursive (affected_fuel m changed_id) m changed_id ∅ with
  | Some visited => Some (visited ∖ {[changed_id]})
  | None => None
  end.

Definition get_affected_units (m : UnitManager) (changed_id : string) : list string :=
  match get_affected_set m changed_id with
  | Some s => elements s
  | None => []
  end.

(** ** CompilationCache *)

Module CompilationCache.

Record CacheEntry := mkEntry {
  output : string;
  content_hash : string;
  timestamp : Z
}.

Record t := mk {
  cache_dir_ : string;
  cache_ : gmap string CacheEntry;
  hits_ : nat;
  misses_ : nat
}.

Definition create (cache_dir : string) : t := mk cache_dir ∅ 0 0.

Definition has (unit_id : string) (c : t) : bool :=
  bool_decide (is_Some (cache_ c !! unit_id)).

(** [get] is [const] but counts hits and misses in [mutable] members. *)
Definition get (unit_id : string) (c : t) : string * t :=
  match cache_ c !! unit_id with
  | Some e => (output e, mk (cache_dir_ c) (cache_ c) (S (hits_ c)) (misses_ c))
  | None => ("", mk (cache_dir_ c) (cache_ c) (hits_ c) (S (misses_ c)))
  end.

Definition put (now : Z) (unit_id out hash : string) (c : t) : t :=
  mk (cache_dir_ c) (<[unit_id := mkEntry out hash now]> (cache_ c))
     (hits_ c) (misses_ c).

Definition invalidate (unit_id : string) (c : t) : t :=
  mk (cache_dir_ c) (delete unit_id (cache_ c)) (hits_ c) (misses_ c).

Definition invalidate_all (c : t) : t :=
  mk (cache_dir_ c) ∅ (hits_ c) (misses_ c).

Definition is_valid (unit_id current_hash : string) (c : t) : bool :=
  match cache_ c !! unit_id with
  | Some e => String.eqb (content_hash e) current_hash
  | None => false
  end.

End CompilationCache.

(** ** IncrementalEngine *)

Record IncrementalEngine := mkEngine {
  eng_units_ : UnitManager;
  eng_cache_ : CompilationCache.t;
  snapshots_ : gmap string Snapshot;
  units_to_compile_ : list string
}.

Definition is_structural (u : CompilationUnit) : bool :=
  match type u with FUNCTION | CLASS => true | _ => false end.

(** [p->state = s; p->cache_valid = false] through the pointer [k]. *)
Definition mark (s : UnitState) (k : string) (m : UnitManager) : UnitManager :=
  match units_ m !! k with
  | Some u => mkManager (<[k := set_cache_valid false (set_state s u)]> (units_ m))
                        (file_units_ m)
  | None => m
  end.

(** [parent->start_line <= unit->start_line && parent->end_line >= unit->end_line] *)
Definition encloses (parent u : CompilationUnit) : bool :=
  (start_line parent <=? start_line u) && (end_line u <=? end_line parent).

(** One round of the inner loop of [expand_to_boundaries] for the unit [u]
    found under [x]; [p] is a pointer from [get_units_by_file]. *)
Definition expand_parent (x : string) (u : CompilationUnit)
  (st : UnitManager * gset string) (p : string) : UnitManager * gset string :=
  let '(m, expanded) := st in
  match units_ m !! p with
  | None => st
  | Some parent =>
      if decide (id parent = x) then st
      else if encloses parent u && is_structural parent
           then (mark AFFECTED p m, {[id parent]} ∪ expanded)
           else st
  end.

(** One round of the outer loop of [expand_to_boundaries]. *)
Definition expand_one (path : string) (st : UnitManager * gset string) (x : string)
  : UnitManager * gset string :=
  match units_ st.1 !! x with
  | None => st
  | Some u =>
      if is_structural u then st
      else foldl (expand_parent x u) st (get_units_by_file path st.1)
  end.

(** [unit_ids] is passed by reference; the new vector is the second
    component, the elements of the set [expanded]. *)
Definition expand_to_boundaries (path : string) (unit_ids : list string)
  (m : UnitManager) : UnitManager * list string :=
  let st := foldl (expand_one path) (m, list_to_set unit_ids) unit_ids in
  (st.1, elements st.2).

(** The loop over the result of [get_affected_units(unit->id)]. *)
Definition mark_dependent (st : UnitManager * gset string) (dep_id : string)
  : UnitManager * gset string :=
  (mark AFFECTED dep_id st.1, {[dep_id]} ∪ st.2).

(** The body of the loop over [units] for one changed line. *)
Definition touch_unit (st : UnitManager * gset string) (k : string)
  : UnitManager * gset string :=
  match units_ st.1 !! k with
  | None => st
  | Some u =>
      let affected1 := {[id u]} ∪ st.2 in
      let m1 := mark MODIFIED k st.1 in
      foldl mark_dependent (m1, affected1) (get_affected_units m1 (id u))
  end.

Definition touch_line (path : string) (st : UnitManager * gset string) (line : Z)
  : UnitManager * gset string :=
  foldl touch_unit st (get_units_in_range path line line st.1).

(** A [ChangeRecord] of [update_source]: the members the source leaves
    uninitialised are given as 0 and the empty string. *)
Definition record_of (k : string) (u : CompilationUnit) : ChangeRecord :=
  mkChange k (state u) 0 0 (start_line u) (end_line u) "".

Definition records_of (m : UnitManager) (ids : list string) : list ChangeRecord :=
  omap (fun k => record_of k <$> units_ m !! k) ids.

(** The units of [path] as stored in the new snapshot. *)
Definition snapshot_units (path : string) (m : UnitManager)
  : gmap string CompilationUnit :=
  foldl (fun acc k => match units_ m !! k with
                      | Some u => <[id u := u]> acc
                      | None => acc
                      end)
        ∅ (get_units_by_file path m).

(** The affected set of an update against an old snapshot, with the marks
    it leaves on the units: changed lines, units on them, their dependents,
    then the enclosing structures. *)
Definition affected_after (path : string) (old_snap new_snap : Snapshot)
  (m : UnitManager) : UnitManager * list string :=
  let changed_lines := get_changed_lines old_snap new_snap in
  let st := foldl (touch_line path) (m, ∅) changed_lines in
  expand_to_boundaries path (elements st.2) st.1.

(** The first-compilation branch: every unit of the file becomes [ADDED]. *)
Definition add_all (st : UnitManager * list string * list ChangeRecord) (k : string)
  : UnitManager * list string * list ChangeRecord :=
  let '(m, pending, changes) := st in
  match units_ m !! k with
  | None => st
  | Some u =>
      let u' := set_state ADDED u in
      (mkManager (<[k := u']> (units_ m)) (file_units_ m),
       (pending ++ [id u'])%list,
       (changes ++ [mkChange (id u') ADDED 0 0 (start_line u') (end_line u') ""])%list)
  end.

Definition update_source (abi : char_abi) (now : Z) (path new_content : string)
  (e : IncrementalEngine) : list ChangeRecord * IncrementalEngine :=
  let new_snap := create_snapshot abi now path new_content in
  let '(m1, pending1, changes) :=
    match snapshots_ e !! path with
    | Some old_snap =>
        let '(m, affected_ids) := affected_after path old_snap new_snap (eng_units_ e) in
        (* units_to_compile_.clear(), then one push_back per affected id *)
        (m, ([] ++ affected_ids)%list, records_of m affected_ids)
    | None =>
        foldl add_all (eng_units_ e, units_to_compile_ e, [])
              (get_units_by_file path (eng_units_ e))
    end in
  let stored :=
    mkSnapshot (snap_file_path new_snap) (snap_content_hash new_snap)
               (line_hashes new_snap) (snapshot_units path m1) (timestamp new_snap) in
  (changes, mkEngine m1 (eng_cache_ e) (<[path := stored]> (snapshots_ e)) pending1).

Definition get_units_to_compile (e : IncrementalEngine) : list string :=
  units_to_compile_ e.

Definition mark_compiled (now : Z) (k out : string) (e : IncrementalEngine)
  : IncrementalEngine :=
  let '(m, c) :=
    match units_ (eng_units_ e) !! k with
    | Some u =>
        let u' := set_state UNCHANGED (set_cache_valid true (set_cached out now u)) in
        (mkManager (<[k := u']> (units_ (eng_units_ e))) (file_units_ (eng_units_ e)),
         CompilationCache.put now k out (content_hash u') (eng_cache_ e))
    | None => (eng_units_ e, eng_cache_ e)
    end in
  mkEngine m c (snapshots_ e) (erase_all k (units_to_compile_ e)).

(** The fragment of one unit in [get_combined_output], with the cache as
    its counters are left. *)
Definition unit_output (u : CompilationUnit) (c : CompilationCache.t)
  : string * CompilationCache.t :=
  if cache_valid u then (cached_output u, c)
  else if CompilationCache.is_valid (id u) (content_hash u) c
       then CompilationCache.get (id u) c
       else ("", c).

(** The loop of [get_combined_output] from index [i] on; [oss] is the
    stream written so far. *)
Fixpoint combine_from (us : gmap string CompilationUnit) (i : nat)
  (ptrs : list string) (oss : string) (c : CompilationCache.t)
  : string * CompilationCache.t :=
  match ptrs with
  | [] => (oss, c)
  | p :: rest =>
      match us !! p with
      | None => combine_from us (S i) rest oss c
      | Some u =>
          let '(out, c1) := unit_output u c in
          let oss1 :=
            if String.eqb out "" then oss
            else (if (0 <? i)%nat then oss ++ nl else oss) ++ out in
          combine_from us (S i) rest oss1 c1
      end
  end.

Definition get_combined_output (path : string) (e : IncrementalEngine)
  : string * CompilationCache.t :=
  let us := units_ (eng_units_ e) in
  let ptrs := sort_by_start us (get_units_by_file path (eng_units_ e)) in
  combine_from us 0 ptrs "" (eng_cache_ e).

(** ** LRU cache ([smart_cache.cpp]) *)

(** [std::list::erase(it)] for the iterator stored with key [k]: the node
    that holds [k].  Every key has one node, so this is the first one. *)
Fixpoint erase_node (k : string) (l : list string) : list string :=
  match l with
  | [] => []
  | x :: rest => if decide (x = k) then rest else x :: erase_node k rest
  end.

Module LRUCache.

(** [cache_] maps a key to its value; the iterator kept beside the value
    is the position of the key in [usage_order_]. *)
Record t := mk {
  max_size_ : nat;
  cache_ : gmap string string;
  usage_order_ : list string
}.

Definition create (max_size : nat) : t := mk max_size ∅ [].

Definition contains (k : string) (c : t) : bool :=
  bool_decide (is_Some (cache_ c !! k)).

(** [None] stands for undefined behaviour: [back()] of an empty list. *)
Definition put (k v : string) (c : t) : option (bool * t) :=
  match cache_ c !! k with
  | Some _ =>
      Some (true, mk (max_size_ c) (<[k := v]> (cache_ c))
                     (k :: erase_node k (usage_order_ c)))
  | None =>
      if (max_size_ c <=? size (cache_ c))%nat then
        match last (usage_order_ c) with
        | Some lru_key =>
            Some (true, mk (max_size_ c)
                           (<[k := v]> (delete lru_key (cache_ c)))
                           (k :: removelast (usage_order_ c)))
        | None => None
        end
      else
        Some (true, mk (max_size_ c) (<[k := v]> (cache_ c)) (k :: usage_order_ c))
  end.

Definition get (k : string) (c : t) : string * t :=
  match cache_ c !! k with
  | None => ("", c)
  | Some v => (v, mk (max_size_ c) (cache_ c) (k :: erase_node k (usage_order_ c)))
  end.

Definition remove (k : string) (c : t) : bool * t :=
  match cache_ c !! k with
  | None => (false, c)
  | Some _ => (true, mk (max_size_ c) (delete k (cache_ c))
                        (erase_node k (usage_order_ c)))
  end.

Definition clear (c : t) : t := mk (max_size_ c) ∅ [].

Definition size (c : t) : nat := base.size (cache_ c).

(** The loop [while (cache_.size() > max_size_)] of [set_max_size]: each
    round drops the back of [usage_order_], so [fuel] rounds suffice when
    [fuel] exceeds the length of the list; [None] is [back()] of an empty
    list. *)
Fixpoint evict_loop (fuel : nat) (c : t) : option t :=
  if (max_size_ c <? base.size (cache_ c))%nat then
    match fuel, last (usage_order_ c) with
    | S fuel', Some lru_key =>
        evict_loop fuel' (mk (max_size_ c) (delete lru_key (cache_ c))
                             (removelast (usage_order_ c)))
    | _, _ => None
    end
  else Some c.

Definition set_max_size (max_size : nat) (c : t) : option t :=
  evict_loop (S (length (usage_order_ c)))
             (mk max_size (cache_ c) (usage_order_ c)).

End LRUCache.

(** ** LFU cache *)

Module LFUCache.

Record Node := mkNode {
  value : string;
  frequency : nat
}.

Record t := mk {
  max_size_ : nat;
  cache_ : gmap string Node;
  freq_map_ : gmap nat (list string);
  min_frequency_ : nat
}.

Definition create (max_size : nat) : t := mk max_size ∅ ∅ 0.

Definition contains (k : string) (c : t) : bool :=
  bool_decide (is_Some (cache_ c !! k)).

(** The frequency bump shared by [put] on a present key and [get]:
    [k] leaves the list of [old_freq] and goes to the front of the next. *)
Definition bump (k : string) (n : Node) (v : string) (c : t) : t :=
  let old_freq := frequency n in
  let new_freq := S old_freq in
  let fm1 := <[old_freq := erase_node k (freq_map_ c !!! old_freq)]> (freq_map_ c) in
  let min1 :=
    if decide (fm1 !!! old_freq = [] ∧ old_freq = min_frequency_ c)
    then S (min_frequency_ c) else min_frequency_ c in
  let fm2 := <[new_freq := k :: (fm1 !!! new_freq)]> fm1 in
  mk (max_size_ c) (<[k := mkNode v new_freq]> (cache_ c)) fm2 min1.

(** The key a [put] on a full cache evicts: the back of the list at
    [min_frequency_]; [None] when that list is empty, where [back()] is
    undefined. *)
Definition victim (c : t) : option string :=
  last (freq_map_ c !!! min_frequency_ c).

Definition evict (lfu_key : string) (c : t) : t :=
  mk (max_size_ c) (delete lfu_key (cache_ c))
     (<[min_frequency_ c := removelast (freq_map_ c !!! min_frequency_ c)]>
        (freq_map_ c))
     (min_frequency_ c).

Definition insert_new (k v : string) (c : t) : t :=
  mk (max_size_ c) (<[k := mkNode v 1]> (cache_ c))
     (<[1%nat := k :: (freq_map_ c !!! 1%nat)]> (freq_map_ c)) 1.

Definition put (k v : string) (c : t) : option (bool * t) :=
  match cache_ c !! k with
  | Some n => Some (true, bump k n v c)
  | None =>
      if (max_size_ c <=? size (cache_ c))%nat then
        match victim c with
        | Some lfu_key => Some (true, insert_new k v (evict lfu_key c))
        | None => None
        end
      else Some (true, insert_new k v c)
  end.

Definition get (k : string) (c : t) : string * t :=
  match cache_ c !! k with
  | None => ("", c)
  | Some n => (value n, bump k n (value n) c)
  end.

Definition remove (k : string) (c : t) : bool * t :=
  match cache_ c !! k with
  | None => (false, c)
  | Some n =>
      let freq := frequency n in
      let fm1 := <[freq := erase_node k (freq_map_ c !!! freq)]> (freq_map_ c) in
      let min1 :=
        if decide (fm1 !!! freq = [] ∧ freq = min_frequency_ c)
        then S (min_frequency_ c) else min_frequency_ c in
      (true, mk (max_size_ c) (delete k (cache_ c)) fm1 min1)
  end.

Definition clear (c : t) : t := mk (max_size_ c) ∅ ∅ 0.

Definition size (c : t) : nat := base.size (cache_ c).

(** The loop of [set_max_size]: each round drops the back of the list at
    [min_frequency_], which the loop never updates; [fuel] exceeds the
    length of that list, and [None] is [back()] of an empty list. *)
Fixpoint evict_loop (fuel : nat) (c : t) : option t :=
  if (max_size_ c <? base.size (cache_ c))%nat then
    match fuel, victim c with
    | S fuel', Some lfu_key => evict_loop fuel' (evict lfu_key c)
    | _, _ => None
    end
  else Some c.

Definition set_max_size (max_size : nat) (c : t) : option t :=
  evict_loop (S (length (freq_map_ c !!! min_frequency_ c)))
             (mk max_size (cache_ c) (freq_map_ c) (min_frequency_ c)).

End LFUCache.

(** ** BuildCache *)

(** The object behind [std::unique_ptr<BaseCache>]; the functions below are
    the virtual calls. *)
Inductive BaseCache :=
| LRU (c : LRUCache.t)
| LFU (c : LFUCache.t).

Definition base_put (k v : string) (c : BaseCache) : option (bool * BaseCache) :=
  match c with
  | LRU c => prod_map Datatypes.id LRU <$> LRUCache.put k v c
  | LFU c => prod_map Datatypes.id LFU <$> LFUCache.put k v c
  end.

Definition base_get (k : string) (c : BaseCache) : string * BaseCache :=
  match c with
  | LRU c => prod_map Datatypes.id LRU (LRUCache.get k c)
  | LFU c => prod_map Datatypes.id LFU (LFUCache.get k c)
  end.

Definition base_size (c : BaseCache) : nat :=
  match c with LRU c => LRUCache.size c | LFU c => LFUCache.size c end.

Definition base_max_size (c : BaseCache) : nat :=
  match c with LRU c => LRUCache.max_size_ c | LFU c => LFUCache.max_size_ c end.

Record BuildCache := mkBuildCache {
  bc_cache_ : BaseCache;
  bc_cache_dir_ : string
}.

Definition set_cache_strategy (strategy : string) (b : BuildCache) : BuildCache :=
  let max_size := base_max_size (bc_cache_ b) in
  if String.eqb strategy "lfu"
  then mkBuildCache (LFU (LFUCache.create max_size)) (bc_cache_dir_ b)
  else mkBuildCache (LRU (LRUCache.create max_size)) (bc_cache_dir_ b).

Section BuildCacheKeys.

(** [std::hash<std::string>], which the C++ standard leaves to the
    library; its result is a [size_t]. *)
Variable std_hash : string -> Z.

(** The files on disk: the bytes of a path that can be opened. *)
Variable disk : string -> option string.

(** [ss << std::hex << hash_val]: no width, no padding. *)
Definition calculate_string_hash (input : string) : string :=
  to_hex (std_hash input mod two64).

Definition calculate_file_hash (path : string) : string :=
  match disk path with
  | None => ""
  | Some content => calculate_string_hash content
  end.

Definition calculate_command_hash (command : string) : string :=
  calculate_string_hash command.

(** One round of the loop over [dependencies], appending to [key_stream]. *)
Definition stream_dep (key_stream dep : string) : string :=
  key_stream ++ "dep=" ++ dep ++ ":" ++ calculate_file_hash dep ++ ";".

Definition cache_build_result (target command : string) (deps : list string)
  (result : string) (b : BuildCache) : option (bool * BuildCache) :=
  let key_stream := "" ++ "target=" ++ target ++ ";" in
  let key_stream := key_stream ++ "command=" ++ calculate_command_hash command ++ ";" in
  let key_stream := foldl stream_dep key_stream deps in
  let cache_key := calculate_string_hash key_stream in
  prod_map Datatypes.id (fun c => mkBuildCache c (bc_cache_dir_ b))
    <$> base_put cache_key result (bc_cache_ b).

Definition get_cached_build_result (target command : string) (deps : list string)
  (b : BuildCache) : string * BuildCache :=
  let key_stream := "" ++ "target=" ++ target ++ ";" in
  let key_stream := key_stream ++ "command=" ++ calculate_command_hash command ++ ";" in
  let key_stream := foldl stream_dep key_stream deps in
  let cache_key := calculate_string_hash key_stream in
  prod_map Datatypes.id (fun c => mkBuildCache c (bc_cache_dir_ b))
    (base_get cache_key (bc_cache_ b)).

Definition needs_rebuild (target command : string) (deps : list string)
  (b : BuildCache) : bool * BuildCache :=
  let '(cached_result, b') := get_cached_build_result target command deps b in
  (String.eqb cached_result "", b').

End BuildCacheKeys.

(** ** Notions the specification is stated with *)

(** The published FNV-1a for 64 bits, over octets: start from the offset
    basis, and for each octet XOR it in and multiply by the prime. *)
Fixpoint fnv1a_64 (octets : list Z) (hash : Z) : Z :=
  match octets with
  | [] => hash
  | b :: rest => fnv1a_64 rest ((Z.lxor hash b * 1099511628211) mod two64)
  end.

(** The [n] low hexadecimal digits of [v], most significant first. *)
Fixpoint hex_digits (n : nat) (v : Z) : string :=
  match n with
  | O => ""
  | S n' => hex_digits n' (v / 16) ++ String (hex_digit (v mod 16)) ""
  end.

(** The content hash as the specification words it: FNV-1a of the bytes,
    as 16 lowercase hexadecimal digits. *)
Definition fnv1a_64_hex (content : string) : string :=
  hex_digits 16
    (fnv1a_64 (map byte_of (list_ascii_of_string content)) 14695981039346656037).

(** A reverse edge of the dependency graph: [b] is listed in
    [a.dependents]. *)
Definition dependent_edge (m : UnitManager) (a b : string) : Prop :=
  ∃ u, units_ m !! a = Some u ∧ b ∈ dependents u.

(** Reachability along reverse edges, in zero or more steps. *)
Definition reachable (m : UnitManager) : string -> string -> Prop :=
  rtc (dependent_edge m).

(** What a call of [collect_affected_recursive] that starts at [x] with
    the set [v] and returns [v'] has done: it only adds ids, [x] is in,
    every new id is reachable from [x], and the dependents of every new id
    are in. *)
Definition collected (m : UnitManager) (x : string) (v v' : gset string) : Prop :=
  v ⊆ v' ∧ x ∈ v'
  ∧ (∀ y, y ∈ v' -> y ∉ v -> reachable m x y)
  ∧ (∀ y z, y ∈ v' -> y ∉ v -> dependent_edge m y z -> z ∈ v').

(** A line range strictly inside another one. *)
Definition strictly_encloses (parent u : CompilationUnit) : bool :=
  encloses parent u
  && ((start_line parent <? start_line u) || (end_line u <? end_line parent)).

(** A unit after [state = AFFECTED; cache_valid = false]. *)
Definition marked (u : CompilationUnit) : CompilationUnit :=
  set_cache_valid false (set_state AFFECTED u).

(** The parents [expand_to_boundaries] adds for the ids [unit_ids]: the
    structural units of [path] that enclose, bounds included, the range of
    a non-structural unit stored under one of the ids, and carry another id
    than that one. *)
Definition boundary_of (path : string) (unit_ids : list string) (m : UnitManager)
  (p : string) (parent : CompilationUnit) : Prop :=
  p ∈ get_units_by_file path m ∧ units_ m !! p = Some parent
  ∧ ∃ x u, x ∈ unit_ids ∧ units_ m !! x = Some u ∧ is_structural u = false
           ∧ id parent ≠ x ∧ encloses parent u = true
           ∧ is_structural parent = true.

(** The same, for an affected unit that is in the file of the parent. *)
Definition same_file_boundary (path : string) (unit_ids : list string)
  (m : UnitManager) (p : string) (parent : CompilationUnit) : Prop :=
  p ∈ get_units_by_file path m ∧ units_ m !! p = Some parent
  ∧ ∃ x u, x ∈ unit_ids ∧ units_ m !! x = Some u ∧ is_structural u = false
           ∧ file_path u = file_path parent
           ∧ id parent ≠ x ∧ encloses parent u = true
           ∧ is_structural parent = true.

(** The affected units that can select a parent are units of [path], and
    the index of [path] lists units of [path]. *)
Definition affected_in_file (path : string) (unit_ids : list string)
  (m : UnitManager) : Prop :=
  (∀ x u, x ∈ unit_ids -> units_ m !! x = Some u -> is_structural u = false ->
          file_path u = path)
  ∧ (∀ p parent, p ∈ get_units_by_file path m -> units_ m !! p = Some parent ->
                 file_path parent = path).

(** The same selection as a computation: the test of the inner loop on the
    unit behind [p], the pointers one id selects, and a manager with a set
    of pointers marked. *)
Definition picks (m : UnitManager) (x : string) (u : CompilationUnit) (p : string)
  : bool :=
  match units_ m !! p with
  | Some parent =>
      negb (bool_decide (id parent = x)) && (encloses parent u && is_structural parent)
  | None => false
  end.

Definition parents_of (path : string) (m : UnitManager) (x : string) : list string :=
  match units_ m !! x with
  | Some u =>
      if is_structural u then []
      else List.filter (picks m x u) (get_units_by_file path m)
  | None => []
  end.

(** The id a pointer selected by the inner loop contributes. *)
Definition id_behind (m : UnitManager) (p : string) : option string :=
  id <$> units_ m !! p.

Definition mark_set (S : gset string) (m : UnitManager) : UnitManager :=
  mkManager
    (map_imap (fun k u => Some (if decide (k ∈ S) then marked u else u)) (units_ m))
    (file_units_ m).

Fixpoint concat_strings (l : list string) : string :=
  match l with
  | [] => ""
  | x :: rest => x ++ concat_strings rest
  end.

(** The key both [cache_build_result] and [get_cached_build_result] end up
    with, in closed form: the text written to [key_stream], hashed by
    [calculate_string_hash]. *)
Definition dep_component (std_hash : string -> Z) (disk : string -> option string)
  (dep : string) : string :=
  "dep=" ++ dep ++ ":" ++ calculate_file_hash std_hash disk dep ++ ";".

Definition build_key_text (std_hash : string -> Z) (disk : string -> option string)
  (target command : string) (deps : list string) : string :=
  "target=" ++ target ++ ";command=" ++ calculate_command_hash std_hash command ++ ";"
  ++ concat_strings (map (dep_component std_hash disk) deps).

Definition build_key (std_hash : string -> Z) (disk : string -> option string)
  (target command : string) (deps : list string) : string :=
  calculate_string_hash std_hash (build_key_text std_hash disk target command deps).

(** The build-cache key as the specification words it, with the content
    hash [H] of section 4.A for the command, the files and the key. *)
Definition spec_build_key (H : string -> string) (disk : string -> option string)
  (target command : string) (deps : list string) : string :=
  H ("target=" ++ target ++ ";command=" ++ H command ++ ";"
     ++ concat_strings
          (map (fun p => "dep=" ++ p ++ ":"
                         ++ (match disk p with Some c => H c | None => "" end) ++ ";")
               deps)).

(** Operations of a client of the LFU cache, and runs of them. *)
Inductive lfu_op :=
| LfuPut (k v : string)
| LfuGet (k : string)
| LfuRemove (k : string).

Definition lfu_step (op : lfu_op) (c : LFUCache.t) : option LFUCache.t :=
  match op with
  | LfuPut k v => snd <$> LFUCache.put k v c
  | LfuGet k => Some (LFUCache.get k c).2
  | LfuRemove k => Some (LFUCache.remove k c).2
  end.

Fixpoint lfu_run (ops : list lfu_op) (c : LFUCache.t) : option LFUCache.t :=
  match ops with
  | [] => Some c
  | op :: rest =>
      match lfu_step op c with
      | Some c' => lfu_run rest c'
      | None => None
      end
  end.

(** Operations of a client of [UnitManager]. *)
Inductive manager_op :=
| AddUnit (u : CompilationUnit)
| AddDependency (from_id to_id : string)
| RemoveDependency (from_id to_id : string)
| RemoveUnit (x : string).

Definition manager_step (m : UnitManager) (op : manager_op) : UnitManager :=
  match op with
  | AddUnit u => add_unit u m
  | AddDependency a b => add_dependency a b m
  | RemoveDependency a b => remove_dependency a b m
  | RemoveUnit x => remove_unit x m
  end.

Definition manager_run (ops : list manager_op) : UnitManager :=
  foldl manager_step empty_manager ops.

(** Edge symmetry over the stored units. *)
Definition edge_symmetric (m : UnitManager) : Prop :=
  ∀ x y ux uy, units_ m !! x = Some ux -> units_ m !! y = Some uy ->
    (x ∈ dependencies uy ↔ y ∈ dependents ux).

(** ** Invariants of the LFU cache *)

(** The frequency lists and the nodes agree: a key is listed under the
    frequency of its node and nowhere else, once. *)
Definition lists_ok (cache : gmap string LFUCache.Node)
  (fm : gmap nat (list string)) : Prop :=
  (∀ k n, cache !! k = Some n ->
          k ∈ fm !!! LFUCache.frequency n ∧ (1 <= LFUCache.frequency n)%nat)
  ∧ (∀ f k, k ∈ fm !!! f -> ∃ n, cache !! k = Some n ∧ LFUCache.frequency n = f)
  ∧ (∀ f : nat, NoDup (fm !!! f)).

(** [min_frequency_] is the least frequency of a stored key. *)
Definition lfu_min_ok (c : LFUCache.t) : Prop :=
  (∃ k n, LFUCache.cache_ c !! k = Some n
          ∧ LFUCache.frequency n = LFUCache.min_frequency_ c)
  ∧ (∀ k n, LFUCache.cache_ c !! k = Some n ->
            (LFUCache.min_frequency_ c <= LFUCache.frequency n)%nat).

(** What holds of every cache reached by [put], [get] and [remove]:
    [min_frequency_] may be stale after a [remove], but only while the
    cache is not full. *)
Definition lfu_inv (c : LFUCache.t) : Prop :=
  lists_ok (LFUCache.cache_ c) (LFUCache.freq_map_ c)
  ∧ (size (LFUCache.cache_ c) <= LFUCache.max_size_ c)%nat
  ∧ ((size (LFUCache.cache_ c) < LFUCache.max_size_ c)%nat ∨ lfu_min_ok c).

(** ** Example states *)

(** A unit as a parser would hand it over: no edges, nothing cached. *)
Definition fresh_unit (i path : string) (s e : Z) (t : UnitType) : CompilationUnit :=
  mkUnit i path s e t "" "" [] [] UNKNOWN "" 0 false.

(** An engine that holds the units of [m], with nothing cached, no
    snapshot and nothing pending. *)
Definition engine_of (m : UnitManager) : IncrementalEngine :=
  mkEngine m (CompilationCache.create ".cache") ∅ [].

(** A [std::hash<std::string>] that is FNV-1a itself, the choice most
    favourable to the specification. *)
Definition fnv_std_hash : string -> Z := fnv1a_hash UnsignedChar.

Definition no_files : string -> option string := fun _ => None.

Definition lru_build_cache : BuildCache :=
  mkBuildCache (LRU (LRUCache.create 1000)) ".cache".

(** Two units of one file, the first never compiled, the second compiled
    to ["X"]. *)
Definition half_compiled_engine : IncrementalEngine :=
  mark_compiled 1 "u2" "X"
    (engine_of (add_unit (fresh_unit "u2" "f.py" 2 2 STATEMENT)
                  (add_unit (fresh_unit "u1" "f.py" 1 1 STATEMENT) empty_manager))).

(** A one-line function on line 5 and the statement that is its body. *)
Definition one_line_function : UnitManager :=
  add_unit (fresh_unit "fn" "f.py" 5 5 FUNCTION)
    (add_unit (fresh_unit "st" "f.py" 5 5 STATEMENT) empty_manager).

Definition unit_a : CompilationUnit := fresh_unit "a" "f.py" 1 1 STATEMENT.
Definition unit_b : CompilationUnit := fresh_unit "b" "f.py" 2 2 STATEMENT.

(** Two units that depend on each other. *)
Definition cyclic_manager : UnitManager :=
  manager_run [AddUnit unit_a; AddUnit unit_b;
               AddDependency "a" "b"; AddDependency "b" "a"].

(** Scenario S5: a function on lines 10-30 and a statement on lines 15-16. *)
Definition nested_manager : UnitManager :=
  add_unit (fresh_unit "S" "f.py" 15 16 STATEMENT)
    (add_unit (fresh_unit "F" "f.py" 10 30 FUNCTION) empty_manager).

(** Two files with a function each; the statement [c] of [g.py] lies in
    [Fg] and depends on the statement [a] of [f.py]. *)
Definition cross_file_manager : UnitManager :=
  manager_run [AddUnit (fresh_unit "a" "f.py" 1 1 STATEMENT);
               AddUnit (fresh_unit "Ff" "f.py" 10 30 FUNCTION);
               AddUnit (fresh_unit "c" "g.py" 15 16 STATEMENT);
               AddUnit (fresh_unit "Fg" "g.py" 10 30 FUNCTION);
               AddDependency "c" "a"].

(** Two files with one unit each, both updated once. *)
Definition two_files_engine : IncrementalEngine :=
  (update_source SignedChar 2 "b.py" "y"
     (update_source SignedChar 1 "a.py" "x"
        (engine_of (add_unit (fresh_unit "b1" "b.py" 1 1 STATEMENT)
                      (add_unit (fresh_unit "a1" "a.py" 1 1 STATEMENT)
                         empty_manager)))).2).2.

(** ** ChangeDetector: [detect_changes] *)

(** The record of a unit that is only in the old snapshot; the members the
    source leaves uninitialised are given as 0. *)
Definition deleted_record (k : string) (old_unit : CompilationUnit) : ChangeRecord :=
  mkChange k DELETED (start_line old_unit) (end_line old_unit) 0 0 "unit deleted".

Definition added_record (k : string) (new_unit : CompilationUnit) : ChangeRecord :=
  mkChange k ADDED 0 0 (start_line new_unit) (end_line new_unit) "unit added".

Definition modified_record (k : string) (old_unit new_unit : CompilationUnit)
  : ChangeRecord :=
  mkChange k MODIFIED (start_line old_unit) (end_line old_unit)
           (start_line new_unit) (end_line new_unit) "content changed".

(** The loop over [old_ids]: a record for each id that [new_ids] lacks. *)
Definition deleted_of (old_units : gmap string CompilationUnit)
  (new_ids : gset string) (k : string) : option ChangeRecord :=
  if decide (k ∈ new_ids) then None
  else deleted_record k <$> old_units !! k.

(** The loop over [new_snap.units]: added, modified, or nothing. *)
Definition added_or_modified_of (old_units : gmap string CompilationUnit)
  (entry : string * CompilationUnit) : option ChangeRecord :=
  match old_units !! entry.1 with
  | None => Some (added_record entry.1 entry.2)
  | Some old_unit =>
      if String.eqb (content_hash old_unit) (content_hash entry.2) then None
      else Some (modified_record entry.1 old_unit entry.2)
  end.

Definition detect_changes (old_snap new_snap : Snapshot) : list ChangeRecord :=
  let old_ids : gset string := dom (snap_units old_snap) in
  let new_ids : gset string := dom (snap_units new_snap) in
  (omap (deleted_of (snap_units old_snap) new_ids) (elements old_ids)
   ++ omap (added_or_modified_of (snap_units old_snap))
           (map_to_list (snap_units new_snap)))%list.

(** Both components grow from one matched pair to the next. *)
Definition pair_lt (a b : nat * nat) : Prop := (a.1 < b.1)%nat ∧ (a.2 < b.2)%nat.

(** ** Notions for the further properties *)

(** A string without a newline, as one element of [split_lines] is. *)
Definition one_line (l : string) : Prop := newline ∉ list_ascii_of_string l.

(** A string of blanks, and a string that neither starts nor ends with one. *)
Definition blank_string (s : string) : Prop :=
  Forall (fun c => is_blank c = true) (list_ascii_of_string s).

Definition trimmed (s : string) : Prop :=
  (∀ c rest, s = String c rest -> is_blank c = false)
  ∧ (∀ pre d, s = pre ++ String d "" -> is_blank d = false).

(** The sixteen characters [std::hex] prints. *)
Definition is_lower_hex (c : ascii) : bool :=
  existsb (Ascii.eqb c) (list_ascii_of_string "0123456789abcdef").

(** A string without one newline at its end, if it has one there. *)
Fixpoint chomp (s : string) : string :=
  match s with
  | EmptyString => ""
  | String c rest =>
      match rest with
      | EmptyString => if Ascii.eqb c newline then "" else s
      | String _ _ => String c (chomp rest)
      end
  end.

(** [k] does not start after [k']: the order [get_units_by_file] sorts by,
    read on the stored units. *)
Definition starts_before (m : UnitManager) (k k' : string) : Prop :=
  ∀ u u', units_ m !! k = Some u -> units_ m !! k' = Some u' ->
    start_line u <= start_line u'.

(** The ids of the file index of [path] that name a stored unit. *)
Definition indexed_units (path : string) (m : UnitManager) : list string :=
  filter (fun k => is_Some (units_ m !! k)) (file_units_ m !!! path).

(** Every id listed on a stored unit names a stored unit. *)
Definition edges_closed (m : UnitManager) : Prop :=
  ∀ k u x, units_ m !! k = Some u ->
    x ∈ dependencies u ∨ x ∈ dependents u -> is_Some (units_ m !! x).

(** A client that registers every unit once, without edges, and never
    removes a unit. *)
Definition registers_cleanly (m : UnitManager) (op : manager_op) : Prop :=
  match op with
  | AddUnit u => units_ m !! id u = None ∧ dependencies u = [] ∧ dependents u = []
  | AddDependency _ _ | RemoveDependency _ _ => True
  | RemoveUnit _ => False
  end.

Fixpoint clean_run (m : UnitManager) (ops : list manager_op) : Prop :=
  match ops with
  | [] => True
  | op :: rest => registers_cleanly m op ∧ clean_run (manager_step m op) rest
  end.

(** ** IncrementalEngine: [register_units] *)

(** One round of the loop over [old_units].  [old_unit] is a pointer into
    [units_] and [old_unit->id] is read through it: if an earlier round
    erased the unit it points to, the pointer dangles and the read is
    undefined, which [None] stands for. *)
Definition remove_old (acc : option UnitManager) (old_unit : string)
  : option UnitManager :=
  match acc with
  | Some m =>
      match units_ m !! old_unit with
      | Some u => Some (remove_unit (id u) m)
      | None => None
      end
  | None => None
  end.

Definition register_units (path : string) (units : list CompilationUnit)
  (e : IncrementalEngine) : option IncrementalEngine :=
  let old_units := get_units_by_file path (eng_units_ e) in
  match foldl remove_old (Some (eng_units_ e)) old_units with
  | Some m =>
      Some (mkEngine (foldl (fun m unit => add_unit unit m) m units)
                     (eng_cache_ e) (snapshots_ e) (units_to_compile_ e))
  | None => None
  end.

(** Every unit is stored under its own id, as [add_unit] stores it. *)
Definition keys_are_ids (m : UnitManager) : Prop :=
  ∀ k u, units_ m !! k = Some u -> id u = k.

(** The index of [path] lists each unit of the file once and nothing
    else. *)
Definition index_exact (path : string) (m : UnitManager) : Prop :=
  NoDup (file_units_ m !!! path)
  ∧ ∀ k, k ∈ file_units_ m !!! path ->
         ∃ u, units_ m !! k = Some u ∧ file_path u = path.

(** A unit with its [dependents] list blanked: what [remove_unit] leaves
    untouched on the other units. *)
Definition without_dependents (u : CompilationUnit) : CompilationUnit :=
  set_dependents [] u.

(** ** Notions for the affected set of an update *)

(** A unit without the two members that marking writes. *)
Definition shape (u : CompilationUnit) : CompilationUnit :=
  set_cache_valid false (set_state UNKNOWN u).

(** Two managers that differ in states and [cache_valid] flags only. *)
Definition same_shape (m m' : UnitManager) : Prop :=
  file_units_ m = file_units_ m'
  ∧ ∀ k, shape <$> units_ m !! k = shape <$> units_ m' !! k.

(** [q] is the id of a unit of [path] that overlaps a changed line, or is
    reachable from such an id along [dependents] edges. *)
Definition touched (path : string) (changed : list Z) (m : UnitManager)
  (q : string) : Prop :=
  ∃ line k u, line ∈ changed ∧ k ∈ get_units_in_range path line line m
              ∧ units_ m !! k = Some u ∧ reachable m (id u) q.

(** [q] is the id of a [FUNCTION] or [CLASS] unit of [path] whose range
    encloses that of a touched unit that is neither, stored under another
    id. *)
Definition enclosing (path : string) (changed : list Z) (m : UnitManager)
  (q : string) : Prop :=
  ∃ p parent x u,
    p ∈ get_units_by_file path m ∧ units_ m !! p = Some parent ∧ id parent = q
    ∧ is_structural parent = true
    ∧ touched path changed m x ∧ units_ m !! x = Some u
    ∧ is_structural u = false ∧ id parent ≠ x ∧ encloses parent u = true.

(** ** Notions for the combined output *)

(** What [get_combined_output] takes as the output of a unit. *)
Definition fragment (c : CompilationCache.t) (u : CompilationUnit) : string :=
  (unit_output u c).1.

(** The outputs of the units of [path], in the order of the loop. *)
Definition fragments (path : string) (e : IncrementalEngine) : list string :=
  let us := units_ (eng_units_ e) in
  omap (fun p => fragment (eng_cache_ e) <$> us !! p)
       (sort_by_start us (get_units_by_file path (eng_units_ e))).

Definition nonempty (s : string) : bool := negb (String.eqb s "").

(** ** Notions for the compile loop *)

(** A client that compiles every pending unit, [out k] being the output of
    the unit [k], and reports each one with [mark_compiled]. *)
Definition compile_all (now : Z) (out : string -> string) (e : IncrementalEngine)
  : IncrementalEngine :=
  foldl (fun e k => mark_compiled now k (out k) e) e (get_units_to_compile e).

(** ** Notions for the LRU cache *)

(** Operations of a client of the LRU cache, and runs of them. *)
Inductive lru_op :=
| LruPut (k v : string)
| LruGet (k : string)
| LruRemove (k : string).

Definition lru_step (op : lru_op) (c : LRUCache.t) : option LRUCache.t :=
  match op with
  | LruPut k v => snd <$> LRUCache.put k v c
  | LruGet k => Some (LRUCache.get k c).2
  | LruRemove k => Some (LRUCache.remove k c).2
  end.

(** The operations are given in the order they are made. *)
Definition lru_run (ops : list lru_op) (c : LRUCache.t) : option LRUCache.t :=
  foldl (fun acc op => acc ≫= lru_step op) (Some c) ops.

(** [usage_order_] lists the stored keys, each once, and there are no more
    of them than the capacity. *)
Definition lru_inv (c : LRUCache.t) : Prop :=
  NoDup (LRUCache.usage_order_ c)
  ∧ (∀ k, k ∈ LRUCache.usage_order_ c ↔ is_Some (LRUCache.cache_ c !! k))
  ∧ (size (LRUCache.cache_ c) <= LRUCache.max_size_ c)%nat.

(** An operation that uses the key [k]. *)
Definition touches (op : lru_op) (k : string) : bool :=
  match op with
  | LruPut k' _ | LruGet k' => bool_decide (k' = k)
  | LruRemove _ => false
  end.

(** The time of the last use of [k] in a history given latest operation
    first: the number of operations up to and including that use, 0 when
    [k] was never used. *)
Fixpoint last_use_rev (rops : list lru_op) (k : string) : nat :=
  match rops with
  | [] => 0
  | op :: rest => if touches op k then length rops else last_use_rev rest k
  end.

Definition last_use (ops : list lru_op) (k : string) : nat :=
  last_use_rev (rev ops) k.

(** [usage_order_] runs from the key used last to the key used longest
    ago. *)
Definition recency_ordered (ops : list lru_op) (c : LRUCache.t) : Prop :=
  StronglySorted (fun a b => (last_use ops b < last_use ops a)%nat)
                 (LRUCache.usage_order_ c).

(** ** Notions for [detect_changes] *)

(** The three ways a unit id can differ between two snapshots. *)
Definition is_deleted (old_snap new_snap : Snapshot) (k : string)
  (u : CompilationUnit) : Prop :=
  snap_units old_snap !! k = Some u ∧ snap_units new_snap !! k = None.

Definition is_added (old_snap new_snap : Snapshot) (k : string)
  (u : CompilationUnit) : Prop :=
  snap_units new_snap !! k = Some u ∧ snap_units old_snap !! k = None.

Definition is_modified (old_snap new_snap : Snapshot) (k : string)
  (uo un : CompilationUnit) : Prop :=
  snap_units old_snap !! k = Some uo ∧ snap_units new_snap !! k = Some un
  ∧ content_hash uo ≠ content_hash un.

(** What a record says, on the members [detect_changes] assigns. *)
Definition reports_deleted (u : CompilationUnit) (r : ChangeRecord) : Prop :=
  change_type r = DELETED ∧ old_start_line r = start_line u
  ∧ old_end_line r = end_line u ∧ reason r = "unit deleted".

Definition reports_added (u : CompilationUnit) (r : ChangeRecord) : Prop :=
  change_type r = ADDED ∧ new_start_line r = start_line u
  ∧ new_end_line r = end_line u ∧ reason r = "unit added".

Definition reports_modified (uo un : CompilationUnit) (r : ChangeRecord) : Prop :=
  change_type r = MODIFIED ∧ old_start_line r = start_line uo
  ∧ old_end_line r = end_line uo ∧ new_start_line r = start_line un
  ∧ new_end_line r = end_line un ∧ reason r = "content changed".

(** * Properties *)

(** ** Strings *)

Lemma str_app_cons (a : ascii) (s t : string) : String a s ++ t = String a (s ++ t).
Proof. reflexivity. Qed.

Lemma str_app_nil_l (s : string) : "" ++ s = s.
Proof. reflexivity. Qed.

Lemma str_app_nil_r (s : string) : s ++ "" = s.
Proof. induction s as [|a s IH]; [done|]. by rewrite str_app_cons, IH. Qed.

Lemma str_app_assoc (s t w : string) : (s ++ t) ++ w = s ++ (t ++ w).
Proof.
  induction s as [|a s IH]; [done|]. by rewrite !str_app_cons, IH.
Qed.

Lemma str_app_length (s t : string) :
  String.length (s ++ t) = (String.length s + String.length t)%nat.
Proof.
  induction s as [|a s IH]; [done|]. rewrite str_app_cons. simpl. by rewrite IH.
Qed.

Lemma fill_string_length (n : nat) (c : ascii) : String.length (fill_string n c) = n.
Proof. induction n as [|n IH]; simpl; [done|]. by rewrite IH. Qed.

Lemma fill_string_snoc (n : nat) (c : ascii) :
  fill_string (S n) c = fill_string n c ++ String c "".
Proof.
  induction n as [|n IH]; [done|].
  change (fill_string (S (S n)) c) with (String c (fill_string (S n) c)).
  rewrite IH at 1. reflexivity.
Qed.

(** ** Hashing: [compute_hash] against FNV-1a *)

Lemma hex_digits_zero (n : nat) : hex_digits n 0 = fill_string n "0"%char.
Proof.
  induction n as [|n IH]; [done|].
  rewrite fill_string_snoc. simpl. by rewrite Zdiv_0_l, Zmod_0_l, IH.
Qed.

Lemma hex_digits_small (n : nat) (v : Z) :
  0 <= v < 16 ->
  hex_digits (S n) v = fill_string n "0"%char ++ String (hex_digit v) "".
Proof.
  intros Hv. simpl.
  rewrite Z.div_small, Z.mod_small, hex_digits_zero by lia. done.
Qed.

Lemma hex_digits_length (n : nat) (v : Z) : String.length (hex_digits n v) = n.
Proof.
  revert v. induction n as [|n IH]; intros v; simpl; [done|].
  rewrite str_app_length, IH. simpl. lia.
Qed.

(** The digits [hex_aux] writes are those of [hex_digits] without the
    leading zeros. *)
Lemma hex_aux_digits (fuel : nat) : ∀ (v : Z) (acc : string),
  (1 <= fuel)%nat -> 0 <= v < 16 ^ Z.of_nat fuel ->
  ∃ d, hex_aux fuel v acc = d ++ acc
       ∧ (String.length d <= fuel)%nat
       ∧ ∀ n, (String.length d <= n)%nat ->
           fill_string (n - String.length d) "0"%char ++ d = hex_digits n v.
Proof.
  induction fuel as [|f IH]; intros v acc Hf Hv; [lia|].
  simpl. destruct (v <? 16) eqn:Hlt.
  - apply Z.ltb_lt in Hlt. exists (String (hex_digit v) "").
    split; [done|]. split; [simpl; lia|].
    intros n Hn. simpl in Hn. destruct n as [|n]; [lia|].
    rewrite hex_digits_small by lia. simpl. by rewrite Nat.sub_0_r.
  - apply Z.ltb_ge in Hlt.
    assert (1 <= f)%nat as Hf1.
    { destruct f; [|lia]. change (16 ^ Z.of_nat 1) with 16 in Hv. lia. }
    assert (0 <= v / 16 < 16 ^ Z.of_nat f) as Hq.
    { split; [apply Z.div_pos; lia|].
      apply Z.div_lt_upper_bound; [lia|].
      replace (Z.of_nat (S f)) with (Z.succ (Z.of_nat f)) in Hv by lia.
      rewrite Z.pow_succ_r in Hv by lia. lia. }
    destruct (IH (v / 16) (String (hex_digit (v mod 16)) acc) Hf1 Hq)
      as (d & Hd & Hlen & Hpad).
    exists (d ++ String (hex_digit (v mod 16)) "").
    split; [by rewrite Hd, str_app_assoc|].
    rewrite str_app_length. simpl. split; [lia|].
    intros n Hn. destruct n as [|n]; [lia|].
    simpl hex_digits. rewrite <- (Hpad n) by lia.
    rewrite <- str_app_assoc.
    by replace (S n - (String.length d + 1))%nat with (n - String.length d)%nat by lia.
Qed.

Lemma setw_to_hex (v : Z) :
  0 <= v < two64 -> setw 16 "0"%char (to_hex v) = hex_digits 16 v.
Proof.
  intros Hv. unfold setw, to_hex.
  destruct (hex_aux_digits 16 v "") as (d & Hd & Hlen & Hpad); [lia|done|].
  rewrite Hd, str_app_nil_r. by apply Hpad.
Qed.

Lemma fnv1a_loop_range (abi : char_abi) (data : string) : ∀ h,
  0 <= h < two64 -> 0 <= fnv1a_loop abi data h < two64.
Proof.
  induction data as [|c rest IH]; intros h Hh; simpl; [done|].
  apply IH. apply Z.mod_pos_bound. done.
Qed.

Lemma fnv1a_hash_range (abi : char_abi) (data : string) :
  0 <= fnv1a_hash abi data < two64.
Proof. apply fnv1a_loop_range. done. Qed.

(** Every content hash has 16 characters. *)
Lemma compute_hash_length (abi : char_abi) (content : string) :
  String.length (compute_hash abi content) = 16%nat.
Proof.
  unfold compute_hash. rewrite setw_to_hex by apply fnv1a_hash_range.
  apply hex_digits_length.
Qed.

Lemma fnv1a_loop_unsigned (data : string) : ∀ h,
  fnv1a_loop UnsignedChar data h = fnv1a_64 (map byte_of (list_ascii_of_string data)) h.
Proof. induction data as [|c rest IH]; intros h; simpl; [done|]. apply IH. Qed.

(** Where [char] is unsigned, [compute_hash] is FNV-1a in 16 digits. *)
Lemma compute_hash_unsigned_char (content : string) :
  compute_hash UnsignedChar content = fnv1a_64_hex content.
Proof.
  unfold compute_hash. rewrite setw_to_hex by apply fnv1a_hash_range.
  unfold fnv1a_hash, fnv1a_64_hex. by rewrite fnv1a_loop_unsigned.
Qed.

Lemma fnv1a_loop_low_bytes (abi : char_abi) (data : string) : ∀ h,
  Forall (fun c => byte_of c < 128) (list_ascii_of_string data) ->
  fnv1a_loop abi data h = fnv1a_loop UnsignedChar data h.
Proof.
  induction data as [|c rest IH]; intros h Hlow; simpl; [done|].
  simpl in Hlow. inversion Hlow as [|? ? Hc Hrest]; subst.
  rewrite IH by done. do 3 f_equal.
  destruct abi; simpl; [|done]. apply Z.ltb_lt in Hc. by rewrite Hc.
Qed.

(** Whatever the signedness of [char], [compute_hash] is FNV-1a on strings
    of bytes below 0x80. *)
Lemma compute_hash_low_bytes (abi : char_abi) (content : string) :
  Forall (fun c => byte_of c < 128) (list_ascii_of_string content) ->
  compute_hash abi content = fnv1a_64_hex content.
Proof.
  intros Hlow. rewrite <- compute_hash_unsigned_char.
  unfold compute_hash, fnv1a_hash. by rewrite fnv1a_loop_low_bytes.
Qed.

(** C6 (the code departs from the claim). With a signed [char], the cast
    [static_cast<uint64_t>(data[i])] sign-extends a byte above 0x7f, so on
    the one-byte string 0xE4 [compute_hash] returns 509c28b379fe1bf3, while
    FNV-1a of that octet is af64594c8602c0f3. *)
Theorem compute_hash_sign_extends_high_byte :
  compute_hash SignedChar (String "228"%char "") = "509c28b379fe1bf3"
  ∧ fnv1a_64_hex (String "228"%char "") = "af64594c8602c0f3"
  ∧ compute_hash SignedChar (String "228"%char "")
    ≠ fnv1a_64_hex (String "228"%char "").
Proof. vm_compute. split_and!; done. Qed.

(** ** LRU cache *)

(** C9. Scenario S1: on an LRU cache of capacity 2, after [put a 1],
    [put b 2], [get a], [put c 3], the lookups of [a], [b] and [c] return
    ["1"], [""] ([b] was the least recently used key and was evicted) and
    ["3"]; no step is undefined. *)
Theorem lru_eviction_order_s1 :
  (c1 ← LRUCache.put "a" "1" (LRUCache.create 2);
   c2 ← LRUCache.put "b" "2" c1.2;
   c4 ← LRUCache.put "c" "3" (LRUCache.get "a" c2.2).2;
   let ga := LRUCache.get "a" c4.2 in
   let gb := LRUCache.get "b" ga.2 in
   let gc := LRUCache.get "c" gb.2 in
   Some (ga.1, gb.1, gc.1)) = Some ("1", "", "3").
Proof. vm_compute. reflexivity. Qed.

(** ** LFU cache: the evicted key *)

Lemma elem_of_erase_node (k y : string) (l : list string) :
  NoDup l -> y ∈ erase_node k l ↔ y ∈ l ∧ y ≠ k.
Proof.
  induction l as [|x l IH]; intros Hnd; simpl.
  - split; [by intros ?%elem_of_nil|by intros [?%elem_of_nil _]].
  - apply NoDup_cons in Hnd as [Hx Hnd]. destruct (decide (x = k)) as [->|Hne].
    + rewrite elem_of_cons. split; [|naive_solver].
      intros Hy. split; [by right|]. by intros ->.
    + rewrite !elem_of_cons, IH by done. naive_solver.
Qed.

Lemma NoDup_erase_node (k : string) (l : list string) :
  NoDup l -> NoDup (erase_node k l).
Proof.
  induction l as [|x l IH]; intros Hnd; simpl; [done|].
  apply NoDup_cons in Hnd as [Hx Hnd]. destruct (decide (x = k)); [done|].
  apply NoDup_cons. split; [|by apply IH].
  rewrite elem_of_erase_node by done. naive_solver.
Qed.

Lemma elem_of_removelast (e y : string) (l : list string) :
  NoDup l -> last l = Some e -> y ∈ removelast l ↔ y ∈ l ∧ y ≠ e.
Proof.
  intros Hnd [l' ->]%last_Some. rewrite removelast_last.
  apply NoDup_app in Hnd as (_ & Hdisj & _).
  rewrite elem_of_app, list_elem_of_singleton. split; [|naive_solver].
  intros Hy. split; [by left|]. intros ->. apply (Hdisj e Hy). by left.
Qed.

Lemma NoDup_removelast (e : string) (l : list string) :
  NoDup l -> last l = Some e -> NoDup (removelast l).
Proof.
  intros Hnd [l' ->]%last_Some. rewrite removelast_last.
  by apply NoDup_app in Hnd as (? & _).
Qed.

(** Taking a key out of its list and out of the map. *)
Lemma lists_ok_unlist (cache : gmap string LFUCache.Node)
  (fm : gmap nat (list string)) (k : string) (n : LFUCache.Node) (l' : list string) :
  lists_ok cache fm -> cache !! k = Some n ->
  NoDup l' -> (∀ y, y ∈ l' ↔ y ∈ fm !!! LFUCache.frequency n ∧ y ≠ k) ->
  lists_ok (delete k cache) (<[LFUCache.frequency n := l']> fm).
Proof.
  intros (Hlisted & Hstored & Hnd) Hk Hnd' Hl'. split_and!.
  - intros k' n' Hk'. apply lookup_delete_Some in Hk' as [Hne Hk'].
    destruct (Hlisted _ _ Hk') as [Hin Hpos]. split; [|done].
    destruct (decide (LFUCache.frequency n' = LFUCache.frequency n)) as [Heq|Hf].
    + rewrite Heq, lookup_total_insert_eq. apply Hl'. by rewrite <- Heq.
    + by rewrite lookup_total_insert_ne.
  - intros f k' Hk'.
    destruct (decide (f = LFUCache.frequency n)) as [->|Hf].
    + rewrite lookup_total_insert_eq in Hk'. apply Hl' in Hk' as [Hin Hne].
      destruct (Hstored _ _ Hin) as (n' & Hn' & Hfreq). exists n'.
      by rewrite lookup_delete_ne.
    + rewrite lookup_total_insert_ne in Hk' by done.
      destruct (Hstored _ _ Hk') as (n' & Hn' & Hfreq). exists n'.
      split; [|done]. rewrite lookup_delete_ne; [done|].
      intros <-. rewrite Hk in Hn'. injection Hn' as <-. done.
  - intros f. destruct (decide (f = LFUCache.frequency n)) as [->|Hf].
    + by rewrite lookup_total_insert_eq.
    + by rewrite lookup_total_insert_ne.
Qed.

(** Putting an absent key at the front of the list of a frequency. *)
Lemma lists_ok_list (cache : gmap string LFUCache.Node)
  (fm : gmap nat (list string)) (k v : string) (f : nat) :
  lists_ok cache fm -> cache !! k = None -> (1 <= f)%nat ->
  lists_ok (<[k := LFUCache.mkNode v f]> cache) (<[f := k :: fm !!! f]> fm).
Proof.
  intros (Hlisted & Hstored & Hnd) Hk Hf. split_and!.
  - intros k' n' Hk'. apply lookup_insert_Some in Hk' as [[<- <-]|[Hne Hk']].
    + simpl. rewrite lookup_total_insert_eq. split; [by left|done].
    + destruct (Hlisted _ _ Hk') as [Hin Hpos]. split; [|done].
      destruct (decide (LFUCache.frequency n' = f)) as [<-|Hne'].
      * rewrite lookup_total_insert_eq. by right.
      * by rewrite lookup_total_insert_ne.
  - intros g k' Hk'. destruct (decide (g = f)) as [->|Hg].
    + rewrite lookup_total_insert_eq in Hk'.
      apply elem_of_cons in Hk' as [->|Hin].
      * eexists. by rewrite lookup_insert_eq.
      * destruct (Hstored _ _ Hin) as (n' & Hn' & Hfreq). exists n'.
        split; [|done]. rewrite lookup_insert_ne; [done|].
        intros <-. by rewrite Hk in Hn'.
    + rewrite lookup_total_insert_ne in Hk' by done.
      destruct (Hstored _ _ Hk') as (n' & Hn' & Hfreq). exists n'.
      split; [|done]. rewrite lookup_insert_ne; [done|].
      intros <-. by rewrite Hk in Hn'.
  - intros g. destruct (decide (g = f)) as [->|Hg].
    + rewrite lookup_total_insert_eq. apply NoDup_cons. split; [|done].
      intros Hin. destruct (Hstored _ _ Hin) as (n' & Hn' & _).
      by rewrite Hk in Hn'.
    + by rewrite lookup_total_insert_ne.
Qed.

Lemma bump_lists_ok (k v : string) (n : LFUCache.Node) (c : LFUCache.t) :
  lists_ok (LFUCache.cache_ c) (LFUCache.freq_map_ c) ->
  LFUCache.cache_ c !! k = Some n ->
  lists_ok (LFUCache.cache_ (LFUCache.bump k n v c))
           (LFUCache.freq_map_ (LFUCache.bump k n v c)).
Proof.
  intros Hok Hk. unfold LFUCache.bump. cbn [LFUCache.cache_ LFUCache.freq_map_].
  rewrite <- (insert_delete_eq (LFUCache.cache_ c)).
  apply lists_ok_list; [|apply lookup_delete_eq|lia].
  destruct Hok as (Hlisted & Hstored & Hnd).
  apply lists_ok_unlist; [done|done|by apply NoDup_erase_node|].
  intros y. by apply elem_of_erase_node.
Qed.

(** A frequency bump keeps [min_frequency_] exact. *)
Lemma bump_min_ok (k v : string) (n : LFUCache.Node) (c : LFUCache.t) :
  lists_ok (LFUCache.cache_ c) (LFUCache.freq_map_ c) ->
  LFUCache.cache_ c !! k = Some n ->
  lfu_min_ok c -> lfu_min_ok (LFUCache.bump k n v c).
Proof.
  intros (Hlisted & Hstored & Hnd) Hk [(k0 & n0 & Hk0 & Hn0) Hmin].
  unfold lfu_min_ok, LFUCache.bump.
  cbn [LFUCache.cache_ LFUCache.freq_map_ LFUCache.min_frequency_].
  rewrite lookup_total_insert_eq.
  assert (∀ y, y ∈ erase_node k (LFUCache.freq_map_ c !!! LFUCache.frequency n)
               ↔ y ∈ LFUCache.freq_map_ c !!! LFUCache.frequency n ∧ y ≠ k) as Herase.
  { intros y. by apply elem_of_erase_node. }
  destruct (decide (_ ∧ _)) as [[Hempty Heq]|Hnot].
  - split.
    + exists k, (LFUCache.mkNode v (S (LFUCache.frequency n))).
      rewrite lookup_insert_eq. split; [done|]. simpl. by rewrite Heq.
    + intros k' n' Hk'. apply lookup_insert_Some in Hk' as [[<- <-]|[Hne Hk']].
      { simpl. lia. }
      pose proof (Hmin _ _ Hk') as Hge.
      destruct (decide (LFUCache.frequency n' = LFUCache.frequency n)) as [Hsame|?];
        [|lia].
      exfalso. destruct (Hlisted _ _ Hk') as [Hin _]. rewrite Hsame in Hin.
      assert (k' ∈ erase_node k (LFUCache.freq_map_ c !!! LFUCache.frequency n))
        as Hin' by (apply Herase; done).
      rewrite Hempty in Hin'. by apply elem_of_nil in Hin'.
  - split.
    + destruct (decide (k0 = k)) as [->|Hne].
      * rewrite Hk in Hk0. injection Hk0 as <-.
        destruct (erase_node k (LFUCache.freq_map_ c !!! LFUCache.frequency n))
          as [|k1 rest] eqn:Hlist; [by destruct Hnot|].
        assert (k1 ∈ LFUCache.freq_map_ c !!! LFUCache.frequency n ∧ k1 ≠ k)
          as [Hin Hne].
        { apply Herase. by left. }
        destruct (Hstored _ _ Hin) as (n1 & Hn1 & Hfreq).
        exists k1, n1. rewrite lookup_insert_ne by done. split; [done|]. lia.
      * exists k0, n0. by rewrite lookup_insert_ne.
    + intros k' n' Hk'. apply lookup_insert_Some in Hk' as [[<- <-]|[Hne Hk']].
      * simpl. pose proof (Hmin _ _ Hk). lia.
      * by eapply Hmin.
Qed.

Lemma bump_inv (k v : string) (n : LFUCache.Node) (c : LFUCache.t) :
  lfu_inv c -> LFUCache.cache_ c !! k = Some n ->
  lfu_inv (LFUCache.bump k n v c).
Proof.
  intros (Hok & Hsize & Hmin) Hk.
  assert (size (LFUCache.cache_ (LFUCache.bump k n v c)) = size (LFUCache.cache_ c))
    as Hsame.
  { unfold LFUCache.bump. cbn [LFUCache.cache_]. by eapply map_size_insert_Some. }
  split_and!.
  - by apply bump_lists_ok.
  - by rewrite Hsame.
  - rewrite Hsame. destruct Hmin as [Hlt|Hmin]; [by left|].
    right. by apply bump_min_ok.
Qed.

Lemma remove_inv (k : string) (c : LFUCache.t) :
  lfu_inv c -> lfu_inv (LFUCache.remove k c).2.
Proof.
  intros (Hok & Hsize & Hmin). unfold LFUCache.remove.
  destruct (LFUCache.cache_ c !! k) as [n|] eqn:Hk; [|done].
  cbn [snd]. unfold lfu_inv. cbn [LFUCache.cache_ LFUCache.freq_map_ LFUCache.max_size_].
  assert (size (delete k (LFUCache.cache_ c)) < size (LFUCache.cache_ c))%nat as Hless.
  { rewrite map_size_delete, Hk.
    assert (size (LFUCache.cache_ c) ≠ 0)%nat; [|lia].
    intros Hzero%map_size_empty_inv. by rewrite Hzero in Hk. }
  split_and!; [|lia|left; lia].
  pose proof Hok as (Hlisted & Hstored & Hnd).
  apply lists_ok_unlist; [done|done|by apply NoDup_erase_node|].
  intros y. by apply elem_of_erase_node.
Qed.

Lemma insert_new_inv (k v : string) (c : LFUCache.t) :
  lists_ok (LFUCache.cache_ c) (LFUCache.freq_map_ c) ->
  LFUCache.cache_ c !! k = None ->
  (size (LFUCache.cache_ c) < LFUCache.max_size_ c)%nat ->
  lfu_inv (LFUCache.insert_new k v c).
Proof.
  intros Hok Hk Hsize. unfold lfu_inv, LFUCache.insert_new.
  cbn [LFUCache.cache_ LFUCache.freq_map_ LFUCache.max_size_].
  rewrite map_size_insert_None by done.
  pose proof (lists_ok_list _ _ k v 1 Hok Hk (Nat.le_refl _)) as Hok'.
  split_and!; [done|lia|]. right.
  unfold lfu_min_ok. cbn [LFUCache.cache_ LFUCache.min_frequency_]. split.
  - exists k, (LFUCache.mkNode v 1). by rewrite lookup_insert_eq.
  - intros k' n' Hk'.
    destruct Hok' as (Hlisted & _). by destruct (Hlisted _ _ Hk').
Qed.

(** On a full cache with a positive capacity the list at [min_frequency_]
    is not empty, and its last key has the least frequency. *)
Lemma victim_of_full (c : LFUCache.t) :
  lfu_inv c -> (1 <= LFUCache.max_size_ c)%nat ->
  (LFUCache.max_size_ c <= size (LFUCache.cache_ c))%nat ->
  ∃ e n, LFUCache.victim c = Some e ∧ LFUCache.cache_ c !! e = Some n
         ∧ LFUCache.frequency n = LFUCache.min_frequency_ c
         ∧ ∀ k' n', LFUCache.cache_ c !! k' = Some n' ->
                    (LFUCache.frequency n <= LFUCache.frequency n')%nat.
Proof.
  intros ((Hlisted & Hstored & Hnd) & Hsize & [Hlt|Hmin]) Hcap Hfull; [lia|].
  destruct Hmin as [(k0 & n0 & Hk0 & Hn0) Hmin].
  destruct (Hlisted _ _ Hk0) as [Hin _]. rewrite Hn0 in Hin.
  unfold LFUCache.victim.
  destruct (last (LFUCache.freq_map_ c !!! LFUCache.min_frequency_ c)) as [e|] eqn:Hlast.
  - assert (e ∈ LFUCache.freq_map_ c !!! LFUCache.min_frequency_ c) as He.
    { apply last_Some in Hlast as [l' ->]. apply elem_of_app. right. by left. }
    destruct (Hstored _ _ He) as (n & Hn & Hfreq).
    exists e, n. split_and!; [done..|]. intros k' n' Hk'. rewrite Hfreq. by eapply Hmin.
  - apply last_None in Hlast. rewrite Hlast in Hin. by apply elem_of_nil in Hin.
Qed.

Lemma evict_lists_ok (e : string) (c : LFUCache.t) :
  lists_ok (LFUCache.cache_ c) (LFUCache.freq_map_ c) ->
  LFUCache.victim c = Some e ->
  lists_ok (LFUCache.cache_ (LFUCache.evict e c)) (LFUCache.freq_map_ (LFUCache.evict e c))
  ∧ (size (LFUCache.cache_ (LFUCache.evict e c)) < size (LFUCache.cache_ c))%nat.
Proof.
  intros Hok Hlast. pose proof Hok as (Hlisted & Hstored & Hnd).
  unfold LFUCache.victim in Hlast.
  assert (e ∈ LFUCache.freq_map_ c !!! LFUCache.min_frequency_ c) as He.
  { apply last_Some in Hlast as [l' ->]. apply elem_of_app. right. by left. }
  destruct (Hstored _ _ He) as (n & Hn & Hfreq).
  unfold LFUCache.evict. cbn [LFUCache.cache_ LFUCache.freq_map_]. split.
  - rewrite <- Hfreq. apply lists_ok_unlist; [done|done|..]; rewrite Hfreq.
    + by eapply NoDup_removelast.
    + intros y. by apply elem_of_removelast.
  - rewrite map_size_delete, Hn.
    assert (size (LFUCache.cache_ c) ≠ 0)%nat; [|lia].
    intros Hzero%map_size_empty_inv. by rewrite Hzero in Hn.
Qed.

Lemma lfu_step_inv (op : lfu_op) (c c' : LFUCache.t) :
  lfu_inv c -> lfu_step op c = Some c' ->
  lfu_inv c' ∧ LFUCache.max_size_ c' = LFUCache.max_size_ c.
Proof.
  intros Hinv Hstep. destruct op as [k v|k|k]; simpl in Hstep.
  - unfold LFUCache.put in Hstep.
    destruct (LFUCache.cache_ c !! k) as [n|] eqn:Hk.
    { injection Hstep as <-. split; [by apply bump_inv|done]. }
    destruct (Nat.leb_spec (LFUCache.max_size_ c) (size (LFUCache.cache_ c)))
      as [Hfull|Hroom].
    + destruct (LFUCache.victim c) as [e|] eqn:He; [|done].
      injection Hstep as <-. split; [|done].
      destruct Hinv as (Hok & Hsize & _).
      destruct (evict_lists_ok e c Hok He) as [Hok' Hless].
      apply insert_new_inv; [done| |].
      * unfold LFUCache.evict. cbn [LFUCache.cache_].
        apply lookup_delete_None. by right.
      * change (LFUCache.max_size_ (LFUCache.evict e c)) with (LFUCache.max_size_ c).
        lia.
    + injection Hstep as <-. split; [|done].
      destruct Hinv as (Hok & _). by apply insert_new_inv.
  - injection Hstep as <-. unfold LFUCache.get.
    destruct (LFUCache.cache_ c !! k) as [n|] eqn:Hk; [|done].
    split; [by apply bump_inv|done].
  - injection Hstep as <-. split; [by apply remove_inv|].
    unfold LFUCache.remove. by destruct (LFUCache.cache_ c !! k).
Qed.

Lemma create_inv (cap : nat) : (1 <= cap)%nat -> lfu_inv (LFUCache.create cap).
Proof.
  intros Hcap. unfold lfu_inv, LFUCache.create.
  cbn [LFUCache.cache_ LFUCache.freq_map_ LFUCache.max_size_].
  rewrite map_size_empty. split_and!; [|lia|left; lia].
  split_and!.
  - intros k n Hk. by rewrite lookup_empty in Hk.
  - intros f k Hk. rewrite lookup_total_empty in Hk. by apply elem_of_nil in Hk.
  - intros f. rewrite lookup_total_empty. constructor.
Qed.

Lemma lfu_run_inv (ops : list lfu_op) : ∀ c c',
  lfu_inv c -> lfu_run ops c = Some c' ->
  lfu_inv c' ∧ LFUCache.max_size_ c' = LFUCache.max_size_ c.
Proof.
  induction ops as [|op ops IH]; intros c c' Hinv Hrun; simpl in Hrun.
  { injection Hrun as <-. done. }
  destruct (lfu_step op c) as [c1|] eqn:Hstep; [|done].
  destruct (lfu_step_inv _ _ _ Hinv Hstep) as [Hinv1 Hcap1].
  destruct (IH _ _ Hinv1 Hrun) as [Hinv' Hcap']. split; [done|congruence].
Qed.

(** With capacity 0 the cache stays as created: [get] and [remove] find
    nothing, and [put] is undefined. *)
Lemma lfu_run_capacity_zero (ops : list lfu_op) (c : LFUCache.t) :
  lfu_run ops (LFUCache.create 0) = Some c -> c = LFUCache.create 0.
Proof.
  induction ops as [|op ops IH]; simpl; [by intros [= <-]|].
  destruct op as [k v|k|k]; simpl; [done|exact IH|exact IH].
Qed.

(** C8. After any sequence of [put], [get] and [remove] on an LFU cache
    of any capacity, a [put] of an absent key on the full cache removes one
    key, and the frequency of that key is the least among the keys stored at
    that moment; all other stored keys stay.  With a positive capacity such
    a [put] is always defined (with capacity 0 there is nothing to evict and
    the source takes [back()] of an empty list). *)
Theorem lfu_evicts_minimum_frequency (cap : nat) (ops : list lfu_op)
  (c : LFUCache.t) (k v : string) :
  lfu_run ops (LFUCache.create cap) = Some c ->
  LFUCache.cache_ c !! k = None ->
  (LFUCache.max_size_ c <= size (LFUCache.cache_ c))%nat ->
  ((1 <= cap)%nat -> is_Some (LFUCache.put k v c))
  ∧ ∀ r c', LFUCache.put k v c = Some (r, c') ->
      ∃ e n, LFUCache.victim c = Some e
             ∧ LFUCache.cache_ c !! e = Some n
             ∧ (∀ k' n', LFUCache.cache_ c !! k' = Some n' ->
                         (LFUCache.frequency n <= LFUCache.frequency n')%nat)
             ∧ LFUCache.cache_ c' !! e = None
             ∧ (∀ k', k' ≠ e -> k' ≠ k ->
                      LFUCache.cache_ c' !! k' = LFUCache.cache_ c !! k').
Proof.
  intros Hrun Hk Hfull. destruct cap as [|cap].
  { apply lfu_run_capacity_zero in Hrun as ->. split; [lia|]. by intros r c'. }
  destruct (lfu_run_inv ops _ _ (create_inv (S cap) ltac:(lia)) Hrun) as [Hinv Hcap].
  change (LFUCache.max_size_ (LFUCache.create (S cap))) with (S cap) in Hcap.
  destruct (victim_of_full c Hinv) as (e & n & He & Hn & _ & Hleast); [lia|done|].
  assert (LFUCache.put k v c
          = Some (true, LFUCache.insert_new k v (LFUCache.evict e c))) as Hput.
  { unfold LFUCache.put. rewrite Hk, He.
    by destruct (Nat.leb_spec (LFUCache.max_size_ c) (size (LFUCache.cache_ c)));
      [|lia]. }
  split; [by rewrite Hput|].
  intros r c' Hput'. rewrite Hput in Hput'. injection Hput' as <- <-.
  exists e, n. split_and!; [done..| |].
  - unfold LFUCache.insert_new, LFUCache.evict. cbn [LFUCache.cache_].
    rewrite lookup_insert_ne, lookup_delete_eq; [done|].
    intros <-. by rewrite Hk in Hn.
  - intros k' Hne Hne'. unfold LFUCache.insert_new, LFUCache.evict.
    cbn [LFUCache.cache_]. by rewrite lookup_insert_ne, lookup_delete_ne.
Qed.

(** Capacity 2, [a] used twice and [b] once: a [put] of [c] finds the
    cache full. *)
Lemma lfu_evicts_minimum_frequency_witness :
  ∃ c, lfu_run [LfuPut "a" "1"; LfuPut "b" "2"; LfuGet "a"; LfuRemove "zz"]
               (LFUCache.create 2) = Some c
       ∧ ((1 <= 2)%nat -> is_Some (LFUCache.put "c" "3" c))
       ∧ ∀ r c', LFUCache.put "c" "3" c = Some (r, c') ->
           ∃ e n, LFUCache.victim c = Some e
                  ∧ LFUCache.cache_ c !! e = Some n
                  ∧ (∀ k' n', LFUCache.cache_ c !! k' = Some n' ->
                              (LFUCache.frequency n <= LFUCache.frequency n')%nat)
                  ∧ LFUCache.cache_ c' !! e = None
                  ∧ (∀ k', k' ≠ e -> k' ≠ "c" ->
                           LFUCache.cache_ c' !! k' = LFUCache.cache_ c !! k').
Proof.
  eexists. split; [vm_compute; reflexivity|].
  apply (lfu_evicts_minimum_frequency 2
           [LfuPut "a" "1"; LfuPut "b" "2"; LfuGet "a"; LfuRemove "zz"]).
  - vm_compute. reflexivity.
  - vm_compute. reflexivity.
  - vm_compute. lia.
Defined.

(** ** BuildCache: the cache key *)

Lemma foldl_stream_dep (std_hash : string -> Z) (disk : string -> option string)
  (deps : list string) : ∀ key_stream,
  foldl (stream_dep std_hash disk) key_stream deps
  = key_stream ++ concat_strings (map (dep_component std_hash disk) deps).
Proof.
  induction deps as [|dep deps IH]; intros ks; simpl.
  - by rewrite str_app_nil_r.
  - rewrite IH. unfold stream_dep, dep_component.
    by rewrite !str_app_assoc.
Qed.

Lemma key_stream_text (std_hash : string -> Z) (disk : string -> option string)
  (target command : string) (deps : list string) :
  foldl (stream_dep std_hash disk)
        (("" ++ "target=" ++ target ++ ";")
           ++ "command=" ++ calculate_command_hash std_hash command ++ ";")
        deps
  = build_key_text std_hash disk target command deps.
Proof.
  rewrite foldl_stream_dep. unfold build_key_text.
  by rewrite str_app_nil_l, !str_app_assoc.
Qed.

(** C7 (as amended). For every target, command and ordered dependency
    list, [cache_build_result] and [get_cached_build_result] call the
    policy with the same key: [calculate_string_hash], that is
    [std::hash<std::string>] printed in hexadecimal without padding, of the
    text ["target=<t>;command=<H(command)>;dep=<p>:<H(content(p))>;..."],
    where [H] is [calculate_string_hash] too and the dependencies come in
    the order supplied; a dependency that cannot be opened contributes
    ["dep=<p>:;"]. *)
Theorem build_cache_key_derivation (std_hash : string -> Z)
  (disk : string -> option string) (target command : string)
  (deps : list string) (result : string) (b : BuildCache) :
  cache_build_result std_hash disk target command deps result b
  = prod_map Datatypes.id (fun c => mkBuildCache c (bc_cache_dir_ b))
      <$> base_put (build_key std_hash disk target command deps) result (bc_cache_ b)
  ∧ get_cached_build_result std_hash disk target command deps b
    = prod_map Datatypes.id (fun c => mkBuildCache c (bc_cache_dir_ b))
        (base_get (build_key std_hash disk target command deps) (bc_cache_ b))
  ∧ build_key_text std_hash disk target command deps
    = "target=" ++ target ++ ";command=" ++ calculate_string_hash std_hash command
      ++ ";" ++ concat_strings (map (dep_component std_hash disk) deps)
  ∧ ∀ p, dep_component std_hash disk p
         = "dep=" ++ p ++ ":"
           ++ (match disk p with
               | Some content => calculate_string_hash std_hash content
               | None => ""
               end) ++ ";".
Proof.
  unfold cache_build_result, get_cached_build_result, build_key.
  rewrite key_stream_text. split_and!; try done.
Qed.

(** C7 (the claim as stated fails). Even when [std::hash] is FNV-1a, the
    key is not the 16-digit content hash of section 4.A: for target
    ["lib"], command ["gcc"] and no dependency the result is stored under a
    15-digit key, and a lookup under the key the claim describes misses. *)
Lemma build_key_is_not_content_hash :
  ∃ b1,
    cache_build_result fnv_std_hash no_files "lib" "gcc" [] "out" lru_build_cache
    = Some (true, b1)
    ∧ (get_cached_build_result fnv_std_hash no_files "lib" "gcc" [] b1).1 = "out"
    ∧ String.length (build_key fnv_std_hash no_files "lib" "gcc" []) = 15%nat
    ∧ build_key fnv_std_hash no_files "lib" "gcc" []
      ≠ spec_build_key (compute_hash UnsignedChar) no_files "lib" "gcc" []
    ∧ (base_get (spec_build_key (compute_hash UnsignedChar) no_files "lib" "gcc" [])
                (bc_cache_ b1)).1 = "".
Proof. eexists. split_and!; [by vm_compute..]. Qed.

(** ** UnitManager: edges after [remove_unit] *)

(** C5 (the code departs from the claim). [remove_unit] scrubs the removed
    id from the [dependents] of the units it depended on, but not from the
    [dependencies] of the units that depended on it: after [a] is made to
    depend on [b] and [b] is removed, [a.dependencies] still lists [b]; once
    a unit [b] is added again, the stored edges are not symmetric. *)
Theorem remove_unit_leaves_stale_dependency :
  let m := manager_run [AddUnit unit_a; AddUnit unit_b;
                        AddDependency "a" "b"; RemoveUnit "b"] in
  units_ m !! "b" = None
  ∧ dependencies <$> units_ m !! "a" = Some ["b"]
  ∧ ¬ edge_symmetric (add_unit unit_b m).
Proof.
  split_and!; [by vm_compute..|].
  intros Hsym.
  destruct (Hsym "b" "a" unit_b (set_dependencies ["b"] unit_a)) as [Hfwd _];
    [by vm_compute..|].
  specialize (Hfwd ltac:(simpl; set_solver)).
  simpl in Hfwd. by apply elem_of_nil in Hfwd.
Qed.

(** ** UnitManager: the affected closure *)

Section AffectedClosure.

Variable m : UnitManager.

Local Abbreviation visit_from fuel := (visit_all (collect_affected_recursive fuel m)).

Lemma visit_all_none (fuel : nat) (ds : list string) : visit_from fuel None ds = None.
Proof. induction ds as [|d ds IH]; [done|]. apply IH. Qed.

Lemma visit_all_cons (fuel : nat) (v : gset string) (d : string) (ds : list string) :
  visit_from fuel (Some v) (d :: ds)
  = visit_from fuel (collect_affected_recursive fuel m d v) ds.
Proof. reflexivity. Qed.

Lemma collect_unfold (fuel : nat) (x : string) (v : gset string) :
  collect_affected_recursive (S fuel) m x v
  = if decide (x ∈ v) then Some v
    else match units_ m !! x with
         | None => Some ({[x]} ∪ v)
         | Some u => visit_from fuel (Some ({[x]} ∪ v)) (dependents u)
         end.
Proof. reflexivity. Qed.

Lemma visit_all_collected (fuel : nat) :
  (∀ x v v', collect_affected_recursive fuel m x v = Some v' -> collected m x v v') ->
  ∀ ds v v', visit_from fuel (Some v) ds = Some v' ->
    v ⊆ v' ∧ (∀ d, d ∈ ds -> d ∈ v')
    ∧ (∀ y, y ∈ v' -> y ∉ v -> ∃ d, d ∈ ds ∧ reachable m d y)
    ∧ (∀ y z, y ∈ v' -> y ∉ v -> dependent_edge m y z -> z ∈ v').
Proof.
  intros IH. induction ds as [|d ds IHds]; intros v v' Hrun.
  - injection Hrun as <-. split_and!; [done|..].
    + intros d Hd. by apply elem_of_nil in Hd.
    + intros y Hy Hn. done.
    + intros y z Hy Hn. done.
  - rewrite visit_all_cons in Hrun.
    destruct (collect_affected_recursive fuel m d v) as [v1|] eqn:Hd;
      [|by rewrite visit_all_none in Hrun].
    destruct (IH _ _ _ Hd) as (Hsub1 & Hd1 & Hreach1 & Hclosed1).
    destruct (IHds _ _ Hrun) as (Hsub2 & Hds2 & Hreach2 & Hclosed2).
    split_and!.
    + set_solver.
    + intros d' [->|Hd']%elem_of_cons; [set_solver|by apply Hds2].
    + intros y Hy Hn. destruct (decide (y ∈ v1)) as [Hy1|Hy1].
      * exists d. split; [by left|by apply Hreach1].
      * destruct (Hreach2 y Hy Hy1) as (d' & Hd' & Hr). exists d'.
        split; [by right|done].
    + intros y z Hy Hn Hedge. destruct (decide (y ∈ v1)) as [Hy1|Hy1].
      * apply Hsub2. by apply (Hclosed1 y z).
      * by apply (Hclosed2 y z).
Qed.

Lemma collect_collected (fuel : nat) : ∀ x v v',
  collect_affected_recursive fuel m x v = Some v' -> collected m x v v'.
Proof.
  induction fuel as [|fuel IH]; intros x v v' Hrun; [done|].
  rewrite collect_unfold in Hrun.
  destruct (decide (x ∈ v)) as [Hin|Hnotin].
  { injection Hrun as <-. split_and!; [done..| |]; intros; done. }
  destruct (units_ m !! x) as [u|] eqn:Hu.
  - destruct (visit_all_collected fuel IH _ _ _ Hrun)
      as (Hsub & Hds & Hreach & Hclosed).
    split_and!.
    + set_solver.
    + set_solver.
    + intros y Hy Hn. destruct (decide (y = x)) as [->|Hne]; [apply rtc_refl|].
      destruct (Hreach y Hy) as (d & Hd & Hr); [set_solver|].
      eapply rtc_l; [|exact Hr]. by exists u.
    + intros y z Hy Hn Hedge. destruct (decide (y = x)) as [->|Hne].
      * destruct Hedge as (u' & Hu' & Hz). rewrite Hu in Hu'.
        injection Hu' as <-. by apply Hds.
      * apply (Hclosed y z); [done|set_solver|done].
  - injection Hrun as <-. split_and!.
    + set_solver.
    + set_solver.
    + intros y Hy Hn. assert (y = x) as -> by set_solver. apply rtc_refl.
    + intros y z Hy Hn (u' & Hu' & _). assert (y = x) as -> by set_solver.
      by rewrite Hu in Hu'.
Qed.

(** A set that holds [x] and the dependents of its members holds all that
    is reachable from [x]. *)
Lemma reachable_in_closed (x : string) (v : gset string) :
  x ∈ v -> (∀ y z, y ∈ v -> dependent_edge m y z -> z ∈ v) ->
  ∀ y, reachable m x y -> y ∈ v.
Proof.
  intros Hx Hclosed y Hr. induction Hr as [x|x z y Hedge _ IH]; [done|].
  apply IH. by apply (Hclosed x z).
Qed.

Lemma collect_from_empty (fuel : nat) (x : string) (v' : gset string) :
  collect_affected_recursive fuel m x ∅ = Some v' ->
  ∀ y, y ∈ v' ↔ reachable m x y.
Proof.
  intros Hrun y. destruct (collect_collected _ _ _ _ Hrun)
    as (_ & Hx & Hreach & Hclosed).
  split.
  - intros Hy. apply Hreach; [done|set_solver].
  - apply reachable_in_closed; [done|].
    intros y' z Hy'. apply Hclosed; [done|set_solver].
Qed.

(** *** Termination *)

Variable x0 : string.

Lemma edge_in_universe (y z : string) : dependent_edge m y z -> z ∈ id_universe m x0.
Proof.
  intros (u & Hu & Hz). unfold id_universe, all_dependents.
  apply elem_of_union_r, elem_of_union_list.
  exists (list_to_set (dependents u)). split; [|by apply elem_of_list_to_set].
  apply list_elem_of_fmap. exists (y, u). split; [done|].
  by apply elem_of_map_to_list.
Qed.

Lemma size_unvisited_mono (v v' : gset string) :
  v ⊆ v' -> (size (id_universe m x0 ∖ v') <= size (id_universe m x0 ∖ v))%nat.
Proof. intros Hsub. apply subseteq_size. set_solver. Qed.

Lemma size_unvisited_insert (x : string) (v : gset string) :
  x ∈ id_universe m x0 -> x ∉ v ->
  (size (id_universe m x0 ∖ ({[x]} ∪ v)) < size (id_universe m x0 ∖ v))%nat.
Proof. intros Hx Hn. apply subset_size. set_solver. Qed.

Lemma visit_all_total (fuel : nat) :
  (∀ x v, x ∈ id_universe m x0 -> (size (id_universe m x0 ∖ v) < fuel)%nat ->
          is_Some (collect_affected_recursive fuel m x v)) ->
  ∀ ds v, (∀ d, d ∈ ds -> d ∈ id_universe m x0) ->
          (size (id_universe m x0 ∖ v) < fuel)%nat ->
          is_Some (visit_from fuel (Some v) ds).
Proof.
  intros IH. induction ds as [|d ds IHds]; intros v Hds Hsize; [by eexists|].
  rewrite visit_all_cons.
  destruct (IH d v) as [v1 Hd]; [apply Hds; by left|done|].
  rewrite Hd. apply IHds.
  - intros d' Hd'. apply Hds. by right.
  - destruct (collect_collected _ _ _ _ Hd) as (Hsub & _).
    pose proof (size_unvisited_mono _ _ Hsub). lia.
Qed.

(** The recursion returns as soon as the fuel exceeds the number of ids
    that are not visited yet. *)
Lemma collect_total (fuel : nat) : ∀ x v,
  x ∈ id_universe m x0 -> (size (id_universe m x0 ∖ v) < fuel)%nat ->
  is_Some (collect_affected_recursive fuel m x v).
Proof.
  induction fuel as [|fuel IH]; intros x v Hx Hsize; [lia|].
  rewrite collect_unfold.
  destruct (decide (x ∈ v)) as [Hin|Hnotin]; [by eexists|].
  destruct (units_ m !! x) as [u|] eqn:Hu; [|by eexists].
  apply (visit_all_total fuel IH).
  - intros d Hd. apply (edge_in_universe x). by exists u.
  - pose proof (size_unvisited_insert x v Hx Hnotin). lia.
Qed.

Lemma collect_from_start_total :
  is_Some (collect_affected_recursive (affected_fuel m x0) m x0 ∅).
Proof.
  apply collect_total.
  - unfold id_universe. set_solver.
  - unfold affected_fuel. rewrite difference_empty_L. lia.
Qed.

End AffectedClosure.

(** More fuel does not change a result. *)
Lemma collect_fuel_mono (m : UnitManager) (fuel : nat) : ∀ fuel' x v v',
  (fuel <= fuel')%nat ->
  collect_affected_recursive fuel m x v = Some v' ->
  collect_affected_recursive fuel' m x v = Some v'.
Proof.
  induction fuel as [|fuel IH]; intros fuel' x v v' Hle Hrun; [done|].
  destruct fuel' as [|fuel']; [lia|].
  rewrite collect_unfold in *.
  destruct (decide (x ∈ v)); [done|].
  destruct (units_ m !! x) as [u|]; [|done].
  revert Hrun. generalize ({[x]} ∪ v). induction (dependents u) as [|d ds IHds];
    intros v1 Hrun; [done|].
  simpl in *.
  destruct (collect_affected_recursive fuel m d v1) as [v2|] eqn:Hd.
  - rewrite (IH fuel' d v1 v2) by (done || lia). by apply IHds.
  - exfalso. revert Hrun. clear. induction ds as [|d' ds IHds']; [done|].
    simpl. exact IHds'.
Qed.

(** C1. For every dependency graph, cyclic or not, [get_affected_units]
    returns (the fuel it is given suffices, and more fuel changes nothing):
    its result, a duplicate-free list, holds exactly the ids reachable from
    [x] along [dependents] edges other than [x] itself; in particular every
    id other than [x] on a cycle through an id reachable from [x] is in. *)
Theorem get_affected_units_closure (m : UnitManager) (x : string) :
  (∃ visited,
      ∀ fuel, (affected_fuel m x <= fuel)%nat ->
              collect_affected_recursive fuel m x ∅ = Some visited)
  ∧ NoDup (get_affected_units m x)
  ∧ (∀ y, y ∈ get_affected_units m x ↔ reachable m x y ∧ y ≠ x)
  ∧ (∀ y z, reachable m x y -> reachable m y z -> reachable m z y -> z ≠ x ->
            z ∈ get_affected_units m x).
Proof.
  destruct (collect_from_start_total m x) as [visited Hrun].
  assert (∀ y, y ∈ get_affected_units m x ↔ reachable m x y ∧ y ≠ x) as Hspec.
  { intros y. unfold get_affected_units, get_affected_set. rewrite Hrun.
    rewrite elem_of_elements, elem_of_difference, not_elem_of_singleton.
    by rewrite (collect_from_empty m _ _ _ Hrun). }
  split_and!.
  - exists visited. intros fuel Hle. by apply (collect_fuel_mono m _ _ _ _ _ Hle).
  - unfold get_affected_units. destruct (get_affected_set m x); [|constructor].
    apply NoDup_elements.
  - exact Hspec.
  - intros y z Hxy Hyz _ Hne. apply Hspec. split; [|done]. by etrans.
Qed.

(** On the cycle of [a] and [b], the units affected by [a] are [b] alone. *)
Lemma get_affected_units_closure_witness :
  "b" ∈ get_affected_units cyclic_manager "a"
  ∧ ("a" ∉ get_affected_units cyclic_manager "a").
Proof.
  assert (dependent_edge cyclic_manager "a" "b") as Hab.
  { eexists. split; [vm_compute; reflexivity|]. apply list_elem_of_In. simpl. auto. }
  assert (dependent_edge cyclic_manager "b" "a") as Hba.
  { eexists. split; [vm_compute; reflexivity|]. apply list_elem_of_In. simpl. auto. }
  destruct (get_affected_units_closure cyclic_manager "a")
    as (_ & _ & Hspec & Hcycle).
  split.
  - apply (Hcycle "a" "b"); [apply rtc_refl|by apply rtc_once..|discriminate].
  - intros Hin. apply Hspec in Hin as [_ Hne]. by apply Hne.
Defined.

(** ** ChangeDetector: the LCS table and its backtrace *)

Lemma fill_row_length (o : string) (new_lines : list string) : ∀ prev left,
  length prev = S (length new_lines) ->
  length (fill_row o new_lines prev left) = length new_lines.
Proof.
  induction new_lines as [|nj rest IH]; intros prev left Hlen; [done|].
  destruct prev as [|diag [|up prev']]; simpl in Hlen; try lia.
  simpl. rewrite IH; [done|]. simpl. lia.
Qed.

Lemma next_row_length (o : string) (new_lines : list string) (prev : list nat) :
  length prev = S (length new_lines) ->
  length (next_row o new_lines prev) = S (length new_lines).
Proof. intros Hlen. unfold next_row. simpl. by rewrite fill_row_length. Qed.

(** The fill rule, read off a row and its predecessor. *)
Lemma fill_row_nth (o : string) (new_lines : list string) : ∀ prev left j,
  length prev = S (length new_lines) -> (j < length new_lines)%nat ->
  nth (S j) (left :: fill_row o new_lines prev left) O
  = if String.eqb o (nth j new_lines "") then (nth j prev O + 1)%nat
    else Nat.max (nth (S j) prev O) (nth j (left :: fill_row o new_lines prev left) O).
Proof.
  induction new_lines as [|nj rest IH]; intros prev left j Hlen Hj; [simpl in Hj; lia|].
  destruct prev as [|diag [|up prev']]; simpl in Hlen; try lia.
  destruct j as [|j]; [done|].
  simpl in Hj.
  change (fill_row o (nj :: rest) (diag :: up :: prev') left)
    with (let v := if String.eqb o nj then (diag + 1)%nat else Nat.max up left in
          v :: fill_row o rest (up :: prev') v).
  cbv zeta.
  set (v := if String.eqb o nj then (diag + 1)%nat else Nat.max up left).
  change (nth (S (S j)) (left :: v :: fill_row o rest (up :: prev') v) O)
    with (nth (S j) (v :: fill_row o rest (up :: prev') v) O).
  rewrite IH by (simpl; lia). reflexivity.
Qed.

Lemma build_rows_nth (new_lines : list string) (old_lines : list string) :
  ∀ prev i, (i < length old_lines)%nat ->
  nth (S i) (prev :: build_rows old_lines new_lines prev) []
  = next_row (nth i old_lines "") new_lines
             (nth i (prev :: build_rows old_lines new_lines prev) []).
Proof.
  induction old_lines as [|o rest IH]; intros prev i Hi; [simpl in Hi; lia|].
  destruct i as [|i]; [done|].
  simpl in Hi. simpl build_rows.
  change (nth (S (S i)) (prev :: ?r :: ?rows) []) with (nth (S i) (r :: rows) []).
  rewrite IH by lia. reflexivity.
Qed.

Lemma build_rows_row_length (new_lines : list string) (old_lines : list string) :
  ∀ prev i, length prev = S (length new_lines) -> (i <= length old_lines)%nat ->
  length (nth i (prev :: build_rows old_lines new_lines prev) [])
  = S (length new_lines).
Proof.
  induction old_lines as [|o rest IH]; intros prev i Hlen Hi.
  - simpl in Hi. by replace i with O by lia.
  - destruct i as [|i]; [done|].
    simpl in Hi. simpl build_rows.
    change (nth (S i) (prev :: ?r :: ?rows) []) with (nth i (r :: rows) []).
    apply IH; [by apply next_row_length|lia].
Qed.

Lemma nth_replicate_zero (k j : nat) : nth j (replicate k O) O = O.
Proof. revert j. induction k as [|k IH]; intros [|j]; simpl; auto. Qed.

Section LcsTable.

Variables old_lines new_lines : list string.

Let t := lcs_table old_lines new_lines.
Let D := dp_at t.

Lemma dp_row_zero (j : nat) : D O j = O.
Proof.
  unfold D, dp_at, t, lcs_table. cbv zeta.
  change (nth O (?r :: _) []) with r. apply nth_replicate_zero.
Qed.

Lemma dp_column_zero (i : nat) : (i <= length old_lines)%nat -> D i O = O.
Proof.
  intros Hi. destruct i as [|i]; [apply dp_row_zero|].
  unfold D, dp_at, t, lcs_table. cbv zeta.
  rewrite build_rows_nth by lia. reflexivity.
Qed.

(** The table satisfies the fill rule of the specification. *)
Lemma dp_fill_rule (i j : nat) :
  (i < length old_lines)%nat -> (j < length new_lines)%nat ->
  D (S i) (S j)
  = if String.eqb (nth i old_lines "") (nth j new_lines "") then (D i j + 1)%nat
    else Nat.max (D i (S j)) (D (S i) j).
Proof.
  intros Hi Hj. unfold D, dp_at, t, lcs_table. cbv zeta.
  rewrite build_rows_nth by lia. unfold next_row.
  apply fill_row_nth; [|done].
  apply build_rows_row_length; [|lia]. by rewrite length_replicate.
Qed.

Lemma dp_bounded (i : nat) : ∀ j,
  (i <= length old_lines)%nat -> (j <= length new_lines)%nat ->
  (D i j <= i)%nat ∧ (D i j <= j)%nat.
Proof.
  induction i as [|i IHi]; intros j Hi Hj.
  { rewrite dp_row_zero. lia. }
  induction j as [|j IHj].
  { rewrite dp_column_zero by done. lia. }
  rewrite dp_fill_rule by lia.
  destruct (IHi j) as [? ?]; [lia..|].
  destruct (IHi (S j)) as [? ?]; [lia..|].
  destruct IHj as [? ?]; [lia|].
  destruct (String.eqb _ _); lia.
Qed.

Lemma backtrace_unfold (i j : nat) :
  backtrace t old_lines new_lines (S i) (S j)
  = if String.eqb (nth i old_lines "") (nth j new_lines "") then
      (i, j) :: backtrace t old_lines new_lines i j
    else if (D (S i) j <? D i (S j))%nat then backtrace t old_lines new_lines i (S j)
    else backtrace t old_lines new_lines (S i) j.
Proof. reflexivity. Qed.

Lemma backtrace_zero_r (i : nat) : backtrace t old_lines new_lines i O = [].
Proof. by destruct i. Qed.

End LcsTable.

(** ** ChangeDetector: one replaced line *)

Lemma filter_all_out {A : Type} (P : A -> Prop) `{∀ x, Decision (P x)} (l : list A) :
  (∀ x, x ∈ l -> ¬ P x) -> filter P l = [].
Proof.
  induction l as [|x l IH]; intros Hout; [done|].
  rewrite filter_cons_False by (apply Hout; by left).
  apply IH. intros y Hy. apply Hout. by right.
Qed.

Section SingleReplacement.

Variables pre post : list string.
Variables h h' : string.
Hypothesis differ : h ≠ h'.

Let old_lines := (pre ++ h :: post)%list.
Let new_lines := (pre ++ h' :: post)%list.
Let p := length pre.
Let t := lcs_table old_lines new_lines.
Let D := dp_at t.

Local Arguments backtrace : simpl never.

Lemma old_length : length old_lines = (p + S (length post))%nat.
Proof. unfold old_lines, p. by rewrite length_app. Qed.

Lemma new_length : length new_lines = (p + S (length post))%nat.
Proof. unfold new_lines, p. by rewrite length_app. Qed.

Lemma lines_agree (k : nat) : k ≠ p -> nth k old_lines "" = nth k new_lines "".
Proof.
  intros Hk. unfold old_lines, new_lines, p in *.
  destruct (decide (k < length pre)%nat) as [Hlt|Hge].
  - by rewrite !app_nth1 by done.
  - rewrite !app_nth2 by lia.
    destruct (k - length pre)%nat as [|k'] eqn:Hsub; [lia|done].
Qed.

Lemma old_line_at_p : nth p old_lines "" = h.
Proof. apply nth_middle. Qed.

Lemma new_line_at_p : nth p new_lines "" = h'.
Proof. apply nth_middle. Qed.

Lemma lines_match (k : nat) :
  k ≠ p -> String.eqb (nth k old_lines "") (nth k new_lines "") = true.
Proof. intros Hk. rewrite lines_agree by done. apply String.eqb_refl. Qed.

(** On the common prefix the table counts the prefix itself. *)
Lemma dp_diagonal (k : nat) : (k <= p)%nat -> D k k = k.
Proof.
  induction k as [|k IH]; intros Hk; [apply dp_row_zero|].
  unfold D, t. rewrite dp_fill_rule by (rewrite ?old_length, ?new_length; lia).
  rewrite lines_match by lia. fold t D. rewrite IH by lia. lia.
Qed.

Lemma dp_below_diagonal (k : nat) : (k <= p)%nat -> D (S k) k = k.
Proof.
  induction k as [|k IH]; intros Hk.
  { apply dp_column_zero. rewrite old_length. lia. }
  unfold D, t. rewrite dp_fill_rule by (rewrite ?old_length, ?new_length; lia).
  fold t D. destruct (String.eqb _ _).
  - rewrite IH by lia. lia.
  - pose proof (dp_diagonal (S k) Hk) as Hdiag.
    destruct (dp_bounded old_lines new_lines (S (S k)) k) as [_ Hle];
      [rewrite old_length; lia|rewrite new_length; lia|].
    fold t D in Hle. lia.
Qed.

(** From a cell on the diagonal of the common prefix the backtrace walks
    the diagonal. *)
Lemma backtrace_diagonal (k : nat) :
  (k <= p)%nat ->
  map snd (backtrace t old_lines new_lines k k) = rev (seq 0 k).
Proof.
  induction k as [|k IH]; intros Hk; [done|].
  unfold t. rewrite backtrace_unfold, lines_match by lia. fold t.
  rewrite seq_S, rev_app_distr. simpl. by rewrite IH by lia.
Qed.

(** From a cell just below that diagonal it matches every new line of the
    prefix as well. *)
Lemma backtrace_below_diagonal (k : nat) :
  (k <= p)%nat ->
  map snd (backtrace t old_lines new_lines (S k) k) = rev (seq 0 k).
Proof.
  induction k as [|k IH]; intros Hk; [done|].
  unfold t. rewrite backtrace_unfold. fold t D.
  rewrite seq_S, rev_app_distr. simpl.
  destruct (String.eqb _ _).
  - simpl. by rewrite IH by lia.
  - destruct (dp_bounded old_lines new_lines (S (S k)) k) as [_ Hle];
      [rewrite old_length; lia|rewrite new_length; lia|].
    fold t D in Hle. pose proof (dp_diagonal (S k) Hk) as Hdiag.
    destruct (Nat.ltb_spec (D (S (S k)) k) (D (S k) (S k))) as [_|Hge]; [|lia].
    rewrite backtrace_diagonal by done.
    by rewrite seq_S, rev_app_distr.
Qed.

(** At the replaced line the backtrace steps left: the new line is
    skipped. *)
Lemma backtrace_at_replaced_line :
  map snd (backtrace t old_lines new_lines (S p) (S p)) = rev (seq 0 p).
Proof.
  unfold t. rewrite backtrace_unfold. fold t D.
  rewrite old_line_at_p, new_line_at_p.
  destruct (String.eqb_spec h h') as [Heq|_]; [done|].
  destruct (dp_bounded old_lines new_lines p (S p)) as [Hle _];
    [rewrite old_length; lia|rewrite new_length; lia|].
  fold t D in Hle. pose proof (dp_below_diagonal p (Nat.le_refl _)) as Hbelow.
  destruct (Nat.ltb_spec (D (S p) p) (D p (S p))) as [Hlt|_]; [lia|].
  by apply backtrace_below_diagonal.
Qed.

(** Below the replaced line the backtrace walks the diagonal of the common
    suffix. *)
Lemma backtrace_suffix (k : nat) :
  (k <= length post)%nat ->
  map snd (backtrace t old_lines new_lines (S p + k) (S p + k))
  = (rev (seq (S p) k) ++ rev (seq 0 p))%list.
Proof.
  induction k as [|k IH]; intros Hk.
  { rewrite Nat.add_0_r. apply backtrace_at_replaced_line. }
  replace (S p + S k)%nat with (S (S p + k)) by lia.
  unfold t. rewrite backtrace_unfold, lines_match by lia. fold t.
  rewrite map_cons, IH by lia. rewrite seq_S, rev_app_distr. reflexivity.
Qed.

Lemma compute_lcs_new_side :
  map snd (compute_lcs old_lines new_lines)
  = (seq 0 p ++ seq (S p) (length post))%list.
Proof.
  unfold compute_lcs. cbv zeta. rewrite map_rev.
  rewrite old_length, new_length.
  replace (p + S (length post))%nat with (S p + length post)%nat by lia.
  fold t. rewrite backtrace_suffix by done.
  by rewrite rev_app_distr, !rev_involutive.
Qed.

Lemma changed_lines_of_replacement (old_snap new_snap : Snapshot) :
  line_hashes old_snap = old_lines -> line_hashes new_snap = new_lines ->
  get_changed_lines old_snap new_snap = [Z.of_nat p + 1].
Proof.
  intros Hold Hnew. unfold get_changed_lines. rewrite Hold, Hnew. cbv zeta.
  rewrite compute_lcs_new_side, new_length.
  replace (p + S (length post))%nat with (p + (1 + length post))%nat by lia.
  rewrite seq_app, seq_app, !filter_app. simpl seq.
  rewrite (filter_all_out _ (seq 0 p)), (filter_all_out _ (seq (0 + p + 1) _)).
  - rewrite filter_cons_True, filter_nil; [done|].
    rewrite elem_of_list_to_set, elem_of_app, !list_elem_of_In, !in_seq. lia.
  - intros x Hx Hout. apply Hout.
    rewrite elem_of_list_to_set, elem_of_app. right.
    rewrite list_elem_of_In, in_seq in *. lia.
  - intros x Hx Hout. apply Hout.
    rewrite elem_of_list_to_set, elem_of_app. by left.
Qed.

End SingleReplacement.

(** C2 (as amended). For two snapshots whose lines are the same except
    that the line at position [p] (1-based, [p = length pre + 1]) is
    replaced by a line with another line hash, [get_changed_lines] returns
    exactly [[p]]. *)
Theorem get_changed_lines_single_replacement (abi : char_abi)
  (old_snap new_snap : Snapshot) (pre post : list string) (l l' : string) :
  line_hashes old_snap = map (compute_line_hash abi) (pre ++ l :: post)%list ->
  line_hashes new_snap = map (compute_line_hash abi) (pre ++ l' :: post)%list ->
  compute_line_hash abi l ≠ compute_line_hash abi l' ->
  get_changed_lines old_snap new_snap = [Z.of_nat (length pre) + 1].
Proof.
  intros Hold Hnew Hdiffer.
  rewrite map_app in Hold, Hnew. simpl in Hold, Hnew.
  rewrite (changed_lines_of_replacement _ _ _ _ Hdiffer _ _ Hold Hnew).
  by rewrite length_map.
Qed.

(** Scenario S2: ["y"] on line 2 replaced by ["Y"]. *)
Lemma get_changed_lines_single_replacement_witness :
  get_changed_lines
    (create_snapshot SignedChar 0 "f.py" ("x" ++ nl ++ "y" ++ nl ++ "z"))
    (create_snapshot SignedChar 1 "f.py" ("x" ++ nl ++ "Y" ++ nl ++ "z"))
  = [2].
Proof.
  apply (get_changed_lines_single_replacement SignedChar _ _ ["x"] ["z"] "y" "Y").
  - reflexivity.
  - reflexivity.
  - vm_compute. discriminate.
Defined.

(** C2 (the claim as stated fails). Line hashes ignore leading and
    trailing blanks: when line 2 is replaced by the different line that
    only adds a leading space, no line is reported. *)
Lemma whitespace_replacement_not_reported :
  split_lines ("x" ++ nl ++ "y" ++ nl ++ "z") = ["x"; "y"; "z"]
  ∧ split_lines ("x" ++ nl ++ " y" ++ nl ++ "z") = ["x"; " y"; "z"]
  ∧ "y" ≠ " y"
  ∧ get_changed_lines
      (create_snapshot SignedChar 0 "f.py" ("x" ++ nl ++ "y" ++ nl ++ "z"))
      (create_snapshot SignedChar 1 "f.py" ("x" ++ nl ++ " y" ++ nl ++ "z"))
    = []
  ∧ get_changed_lines
      (create_snapshot SignedChar 0 "f.py" ("x" ++ nl ++ "y" ++ nl ++ "z"))
      (create_snapshot SignedChar 1 "f.py" ("x" ++ nl ++ " y" ++ nl ++ "z"))
    ≠ [2].
Proof. split_and!; by vm_compute. Qed.

(** ** IncrementalEngine: boundary expansion *)

Lemma lookup_mark_set (S : gset string) (m : UnitManager) (k : string) :
  units_ (mark_set S m) !! k
  = (fun u => if decide (k ∈ S) then marked u else u) <$> units_ m !! k.
Proof.
  unfold mark_set. cbn [units_]. rewrite map_lookup_imap.
  by destruct (units_ m !! k).
Qed.

Lemma mark_set_empty (m : UnitManager) : mark_set ∅ m = m.
Proof.
  destruct m as [us fu]. unfold mark_set. cbn [units_ file_units_]. f_equal.
  apply map_eq. intros k. rewrite map_lookup_imap.
  destruct (us !! k) as [u|]; [|done]. simpl.
  destruct (decide (k ∈ (∅ : gset string))) as [Hin|_]; [|done].
  by apply not_elem_of_empty in Hin.
Qed.

Lemma mark_mark_set (S : gset string) (m : UnitManager) (p : string) :
  is_Some (units_ m !! p) ->
  mark AFFECTED p (mark_set S m) = mark_set ({[p]} ∪ S) m.
Proof.
  intros [u Hu]. unfold mark. rewrite lookup_mark_set, Hu. simpl.
  unfold mark_set. cbn [units_ file_units_]. f_equal.
  apply map_eq. intros k. rewrite map_lookup_imap.
  destruct (decide (k = p)) as [->|Hne].
  - rewrite lookup_insert_eq, Hu. simpl.
    destruct (decide (p ∈ {[p]} ∪ S)) as [_|Hout]; [|set_solver].
    by destruct (decide (p ∈ S)).
  - rewrite lookup_insert_ne, map_lookup_imap by done.
    destruct (units_ m !! k) as [u'|]; [|done]. simpl.
    destruct (decide (k ∈ S)), (decide (k ∈ {[p]} ∪ S)); (done || set_solver).
Qed.

Lemma insert_by_start_ext (us us' : gmap string CompilationUnit) (k : string)
  (l : list string) :
  (∀ k, start_line <$> us' !! k = start_line <$> us !! k) ->
  insert_by_start us' k l = insert_by_start us k l.
Proof.
  intros Hsame. induction l as [|k' l IH]; [done|].
  simpl. by rewrite !Hsame, IH.
Qed.

Lemma sort_by_start_ext (us us' : gmap string CompilationUnit) (l : list string) :
  (∀ k, start_line <$> us' !! k = start_line <$> us !! k) ->
  sort_by_start us' l = sort_by_start us l.
Proof.
  intros Hsame. unfold sort_by_start. generalize (@nil string).
  induction l as [|k l IH]; intros acc; [done|].
  simpl. by rewrite (insert_by_start_ext us us'), IH.
Qed.

(** Marks do not change which units a file has, nor their order. *)
Lemma get_units_by_file_mark_set (path : string) (S : gset string) (m : UnitManager) :
  get_units_by_file path (mark_set S m) = get_units_by_file path m.
Proof.
  unfold get_units_by_file.
  change (file_units_ (mark_set S m)) with (file_units_ m).
  rewrite (sort_by_start_ext (units_ m) (units_ (mark_set S m))).
  - f_equal. destruct (file_units_ m !! path) as [ids|]; [|done].
    apply list_filter_iff. intros k. rewrite lookup_mark_set.
    by rewrite fmap_is_Some.
  - intros k. rewrite lookup_mark_set.
    destruct (units_ m !! k) as [u|]; [|done]. simpl.
    by destruct (decide (k ∈ S)).
Qed.

Lemma expand_parent_step (m : UnitManager) (x : string) (u u' : CompilationUnit)
  (S ex : gset string) (p : string) :
  u' = u ∨ u' = marked u ->
  expand_parent x u' (mark_set S m, ex) p
  = if picks m x u p
    then (mark_set ({[p]} ∪ S) m, list_to_set (omap (id_behind m) [p]) ∪ ex)
    else (mark_set S m, ex).
Proof.
  intros Hu'. unfold expand_parent, picks, id_behind. rewrite lookup_mark_set.
  destruct (units_ m !! p) as [parent|] eqn:Hp; [|done]. simpl.
  rewrite Hp. simpl.
  set (parent' := if decide (p ∈ S) then marked parent else parent).
  assert (id parent' = id parent) as -> by (unfold parent'; by destruct (decide _)).
  assert (encloses parent' u' = encloses parent u) as ->.
  { unfold parent'. by destruct Hu' as [-> | ->], (decide (p ∈ S)). }
  assert (is_structural parent' = is_structural parent) as ->
    by (unfold parent'; by destruct (decide _)).
  destruct (decide (id parent = x)) as [Hid|Hid].
  { by rewrite bool_decide_eq_true_2. }
  rewrite bool_decide_eq_false_2 by done. simpl.
  destruct (encloses parent u && is_structural parent); [|done].
  rewrite mark_mark_set by (by eexists). f_equal. set_solver.
Qed.

Lemma expand_parents_all (m : UnitManager) (x : string) (u u' : CompilationUnit) :
  u' = u ∨ u' = marked u ->
  ∀ ptrs S ex,
    foldl (expand_parent x u') (mark_set S m, ex) ptrs
    = (mark_set (list_to_set (List.filter (picks m x u) ptrs) ∪ S) m,
       list_to_set (omap (id_behind m) (List.filter (picks m x u) ptrs)) ∪ ex).
Proof.
  intros Hu'. induction ptrs as [|p ptrs IH]; intros S ex.
  { simpl. f_equal; [f_equal|]; set_solver. }
  cbn [foldl List.filter]. rewrite (expand_parent_step m x u u') by done.
  destruct (picks m x u p) eqn:Hpick; rewrite IH; [|done].
  f_equal; [f_equal; set_solver|].
  change (p :: List.filter (picks m x u) ptrs)
    with ([p] ++ List.filter (picks m x u) ptrs)%list.
  rewrite omap_app. set_solver.
Qed.

Lemma expand_one_step (path : string) (m : UnitManager) (S ex : gset string)
  (x : string) :
  expand_one path (mark_set S m, ex) x
  = (mark_set (list_to_set (parents_of path m x) ∪ S) m,
     list_to_set (omap (id_behind m) (parents_of path m x)) ∪ ex).
Proof.
  unfold expand_one, parents_of. cbn [fst]. rewrite lookup_mark_set.
  destruct (units_ m !! x) as [u|] eqn:Hx; simpl.
  - set (u' := if decide (x ∈ S) then marked u else u).
    assert (u' = u ∨ u' = marked u) as Hu'.
    { unfold u'. destruct (decide _); auto. }
    assert (is_structural u' = is_structural u) as ->
      by (by destruct Hu' as [-> | ->]).
    destruct (is_structural u).
    + f_equal; [f_equal|]; set_solver.
    + rewrite get_units_by_file_mark_set. by apply expand_parents_all.
  - f_equal; [f_equal|]; set_solver.
Qed.

Lemma expand_all (path : string) (m : UnitManager) : ∀ ids S ex,
  foldl (expand_one path) (mark_set S m, ex) ids
  = (mark_set (list_to_set (ids ≫= parents_of path m) ∪ S) m,
     list_to_set (omap (id_behind m) (ids ≫= parents_of path m)) ∪ ex).
Proof.
  induction ids as [|x ids IH]; intros S ex.
  { simpl. f_equal; [f_equal|]; set_solver. }
  simpl foldl. rewrite expand_one_step, IH, bind_cons, omap_app.
  f_equal; [f_equal|]; set_solver.
Qed.

Lemma picks_true (m : UnitManager) (x : string) (u : CompilationUnit) (p : string) :
  picks m x u p = true
  ↔ ∃ parent, units_ m !! p = Some parent ∧ id parent ≠ x
              ∧ encloses parent u = true ∧ is_structural parent = true.
Proof.
  unfold picks. destruct (units_ m !! p) as [parent|]; [|naive_solver].
  rewrite !andb_true_iff, negb_true_iff, bool_decide_eq_false. naive_solver.
Qed.

Lemma elem_of_parents (path : string) (m : UnitManager) (ids : list string)
  (p : string) :
  p ∈ ids ≫= parents_of path m ↔ ∃ parent, boundary_of path ids m p parent.
Proof.
  rewrite list_elem_of_bind. unfold boundary_of, parents_of. split.
  - intros (x & Hp & Hx). destruct (units_ m !! x) as [u|] eqn:Hu;
      [|by apply elem_of_nil in Hp].
    destruct (is_structural u) eqn:Hs; [by apply elem_of_nil in Hp|].
    apply list_elem_of_In, filter_In in Hp as [Hfile Hpick].
    apply picks_true in Hpick as (parent & Hparent & Hid & Henc & Hstruct).
    exists parent. split_and!; [by apply list_elem_of_In|done|].
    by exists x, u.
  - intros (parent & Hfile & Hparent & x & u & Hx & Hu & Hs & Hid & Henc & Hstruct).
    exists x. split; [|done]. rewrite Hu, Hs.
    apply list_elem_of_In, filter_In. split; [by apply list_elem_of_In|].
    apply picks_true. by exists parent.
Qed.

(** What [expand_to_boundaries] returns and marks, in terms of the pairs
    of a pointer and a given id that pass the test of the inner loop: the
    ids it was given and the ids of the selected parents, nothing else;
    every selected parent ends up [AFFECTED] with [cache_valid = false];
    the other units and the file index are left as they were. *)
Lemma expand_to_boundaries_pairs (path : string) (ids : list string)
  (m : UnitManager) :
  (∀ q, q ∈ (expand_to_boundaries path ids m).2
        ↔ q ∈ ids ∨ ∃ p parent, boundary_of path ids m p parent ∧ id parent = q)
  ∧ (∀ p parent, boundary_of path ids m p parent ->
       units_ (expand_to_boundaries path ids m).1 !! p
       = Some (set_cache_valid false (set_state AFFECTED parent)))
  ∧ (∀ p, (∀ parent, ¬ boundary_of path ids m p parent) ->
       units_ (expand_to_boundaries path ids m).1 !! p = units_ m !! p)
  ∧ file_units_ (expand_to_boundaries path ids m).1 = file_units_ m.
Proof.
  pose proof (expand_all path m ids ∅ (list_to_set ids)) as Hrun.
  rewrite mark_set_empty in Hrun.
  unfold expand_to_boundaries. cbv zeta. rewrite Hrun. cbn [fst snd]. split_and!.
  - intros q. rewrite elem_of_elements, elem_of_union, !elem_of_list_to_set.
    rewrite list_elem_of_omap. unfold id_behind. split.
    + intros [(p & Hp & Hq)|Hq]; [|by left]. right.
      apply elem_of_parents in Hp as (parent & Hb). exists p, parent.
      split; [done|]. destruct Hb as (_ & Hparent & _).
      rewrite Hparent in Hq. by injection Hq.
    + intros [Hq|(p & parent & Hb & Hq)]; [by right|]. left. exists p.
      split; [apply elem_of_parents; by exists parent|].
      destruct Hb as (_ & Hparent & _). by rewrite Hparent, <- Hq.
  - intros p parent Hb. rewrite lookup_mark_set.
    pose proof Hb as (_ & Hparent & _). rewrite Hparent. simpl.
    destruct (decide _) as [_|Hout]; [done|]. exfalso. apply Hout.
    apply elem_of_union_l, elem_of_list_to_set, elem_of_parents. by exists parent.
  - intros p Hnone. rewrite lookup_mark_set.
    destruct (units_ m !! p) as [u|]; [|done]. simpl.
    destruct (decide _) as [Hin|_]; [|done]. exfalso.
    apply elem_of_union in Hin as [Hin|Hin]; [|by apply not_elem_of_empty in Hin].
    apply elem_of_list_to_set, elem_of_parents in Hin as (parent & Hb).
    by apply (Hnone parent).
  - done.
Qed.

Lemma same_file_boundary_of (path : string) (ids : list string) (m : UnitManager)
  (p : string) (parent : CompilationUnit) :
  same_file_boundary path ids m p parent -> boundary_of path ids m p parent.
Proof.
  intros (Hfile & Hp & x & u & Hx & Hu & Hs & _ & Hid & Henc & Hstruct).
  split_and!; [done..|]. by exists x, u.
Qed.

Lemma boundary_of_same_file (path : string) (ids : list string) (m : UnitManager)
  (p : string) (parent : CompilationUnit) :
  affected_in_file path ids m ->
  boundary_of path ids m p parent -> same_file_boundary path ids m p parent.
Proof.
  intros [Hids Hindex] (Hfile & Hp & x & u & Hx & Hu & Hs & Hid & Henc & Hstruct).
  split_and!; [done..|]. exists x, u. split_and!; try done.
  by rewrite (Hids x u), (Hindex p parent).
Qed.

(** C4 (as amended). For every given id whose unit is neither [FUNCTION]
    nor [CLASS], [expand_to_boundaries] adds the id of every [FUNCTION] or
    [CLASS] unit of the same file whose range encloses, bounds included, the
    range of that unit (an equal range counts) and whose id is another one,
    and leaves it [AFFECTED] with [cache_valid = false]; the given ids stay
    and the file index is left as it was.  When the given units are units
    of the updated file, nothing else is added and no other unit is
    changed; given ids of [FUNCTION] or [CLASS] units select nothing.  What
    is selected for a given unit of another file is not stated here. *)
Theorem expand_to_boundaries_spec (path : string) (ids : list string)
  (m : UnitManager) :
  (∀ p parent, same_file_boundary path ids m p parent ->
     id parent ∈ (expand_to_boundaries path ids m).2
     ∧ units_ (expand_to_boundaries path ids m).1 !! p
       = Some (set_cache_valid false (set_state AFFECTED parent)))
  ∧ (∀ q, q ∈ ids -> q ∈ (expand_to_boundaries path ids m).2)
  ∧ file_units_ (expand_to_boundaries path ids m).1 = file_units_ m
  ∧ (affected_in_file path ids m ->
     (∀ q, q ∈ (expand_to_boundaries path ids m).2
           ↔ q ∈ ids
             ∨ ∃ p parent, same_file_boundary path ids m p parent ∧ id parent = q)
     ∧ (∀ p, (∀ parent, ¬ same_file_boundary path ids m p parent) ->
             units_ (expand_to_boundaries path ids m).1 !! p = units_ m !! p)).
Proof.
  destruct (expand_to_boundaries_pairs path ids m)
    as (Hids & Hmarked & Hkept & Hindex).
  split_and!; [| |done|].
  - intros p parent Hb%same_file_boundary_of. split; [|by apply Hmarked].
    apply Hids. right. by exists p, parent.
  - intros q Hq. apply Hids. by left.
  - intros Hfile. split.
    + intros q. rewrite Hids. apply or_iff_compat_l. split.
      * intros (p & parent & Hb & Hq). exists p, parent.
        split; [by apply boundary_of_same_file|done].
      * intros (p & parent & Hb & Hq). exists p, parent.
        split; [by apply same_file_boundary_of|done].
    + intros p Hnone. apply Hkept. intros parent Hb.
      apply (Hnone parent). by apply boundary_of_same_file.
Qed.

(** Scenario S5: the function around the affected statement is added and
    marked, and nothing but the statement and the function is returned. *)
Lemma expand_to_boundaries_spec_witness :
  "F" ∈ (expand_to_boundaries "f.py" ["S"] nested_manager).2
  ∧ units_ (expand_to_boundaries "f.py" ["S"] nested_manager).1 !! "F"
    = Some (set_cache_valid false
              (set_state AFFECTED (fresh_unit "F" "f.py" 10 30 FUNCTION)))
  ∧ ∀ q, q ∈ (expand_to_boundaries "f.py" ["S"] nested_manager).2
         ↔ q ∈ ["S"]
           ∨ ∃ p parent, same_file_boundary "f.py" ["S"] nested_manager p parent
                         ∧ id parent = q.
Proof.
  assert (same_file_boundary "f.py" ["S"] nested_manager "F"
            (fresh_unit "F" "f.py" 10 30 FUNCTION)) as Hb.
  { split_and!.
    - apply list_elem_of_In. vm_compute. auto.
    - vm_compute. reflexivity.
    - exists "S", (fresh_unit "S" "f.py" 15 16 STATEMENT).
      split_and!; [by left|by vm_compute|done|done|discriminate|done|done]. }
  assert (affected_in_file "f.py" ["S"] nested_manager) as Hfile.
  { assert (get_units_by_file "f.py" nested_manager = ["F"; "S"]) as Hunits
      by (by vm_compute).
    split.
    - intros x u ->%list_elem_of_singleton Hu _. vm_compute in Hu.
      by injection Hu as <-.
    - intros p parent Hp Hparent. rewrite Hunits in Hp.
      apply elem_of_cons in Hp as [->|Hp].
      + vm_compute in Hparent. by injection Hparent as <-.
      + apply list_elem_of_singleton in Hp as ->. vm_compute in Hparent.
        by injection Hparent as <-. }
  destruct (expand_to_boundaries_spec "f.py" ["S"] nested_manager)
    as (Hadded & _ & _ & Honly).
  destruct (Hadded _ _ Hb) as [Hin Hmark].
  destruct (Honly Hfile) as [Hexact _].
  split_and!; [exact Hin|exact Hmark|exact Hexact].
Defined.

(** C4 (the claim as stated fails). A function whose line range equals
    that of the affected statement does not strictly contain it, and is
    added all the same. *)
Lemma equal_range_parent_is_added :
  "fn" ∈ (expand_to_boundaries "f.py" ["st"] one_line_function).2
  ∧ ("fn" ∉ ["st"])
  ∧ is_structural <$> units_ one_line_function !! "fn" = Some true
  ∧ is_structural <$> units_ one_line_function !! "st" = Some false
  ∧ (parent ← units_ one_line_function !! "fn";
     u ← units_ one_line_function !! "st";
     Some (strictly_encloses parent u)) = Some false.
Proof.
  split_and!; [|by intros ?%list_elem_of_singleton|by vm_compute..].
  apply list_elem_of_In. vm_compute. auto.
Qed.

(** The case the statement above leaves open: a given unit of another
    file.  The inner loop goes over the units of the updated file only and
    compares line numbers without comparing [file_path]: for the statement
    [c] of [g.py], which the change of [a] in [f.py] affects, the function
    [Ff] of [f.py] is added because lines 15-16 lie within lines 10-30, and
    the function [Fg] of [g.py], in which [c] lies, is not. *)
Example parent_of_another_file :
  get_affected_units cross_file_manager "a" = ["c"]
  ∧ file_path <$> units_ cross_file_manager !! "c" = Some "g.py"
  ∧ file_path <$> units_ cross_file_manager !! "Ff" = Some "f.py"
  ∧ file_path <$> units_ cross_file_manager !! "Fg" = Some "g.py"
  ∧ "Ff" ∈ (expand_to_boundaries "f.py" ["c"; "a"] cross_file_manager).2
  ∧ ("Fg" ∉ (expand_to_boundaries "f.py" ["c"; "a"] cross_file_manager).2).
Proof.
  split_and!; [by vm_compute..| |].
  - apply list_elem_of_In. vm_compute. auto.
  - intros Hin%list_elem_of_In. vm_compute in Hin. intuition discriminate.
Qed.

(** ** IncrementalEngine: output reassembly *)

(** C3 (the code departs from the claim). The separator is written when
    the index of the unit is positive, not when a fragment was written
    before: with a first unit that has no output and a second one compiled
    to ["X"], the combined output is a newline followed by ["X"]. *)
Theorem combined_output_starts_with_separator :
  (get_combined_output "f.py" half_compiled_engine).1 = nl ++ "X".
Proof. by vm_compute. Qed.

(** ** IncrementalEngine: the pending list across updates *)

Lemma add_all_keeps_ids (st : UnitManager * list string * list ChangeRecord)
  (k p : string) :
  id_behind (add_all st k).1.1 p = id_behind st.1.1 p.
Proof.
  destruct st as [[m pending] changes]. unfold add_all, id_behind. cbn [fst].
  destruct (units_ m !! k) as [u|] eqn:Hk; [|done]. cbn [fst units_].
  destruct (decide (p = k)) as [->|Hne].
  - by rewrite lookup_insert_eq, Hk.
  - by rewrite lookup_insert_ne.
Qed.

Lemma add_all_pushes_id (st : UnitManager * list string * list ChangeRecord)
  (k : string) :
  (add_all st k).1.2 = (st.1.2 ++ omap (id_behind st.1.1) [k])%list.
Proof.
  destruct st as [[m pending] changes]. unfold add_all, id_behind. cbn [fst snd].
  simpl. destruct (units_ m !! k) as [u|]; simpl; [done|].
  by rewrite app_nil_r.
Qed.

Lemma add_all_pending (m0 : UnitManager) (ptrs : list string) :
  ∀ st : UnitManager * list string * list ChangeRecord,
    (∀ p, id_behind st.1.1 p = id_behind m0 p) ->
    (foldl add_all st ptrs).1.2 = (st.1.2 ++ omap (id_behind m0) ptrs)%list.
Proof.
  induction ptrs as [|k ptrs IH]; intros st Hids.
  { simpl. by rewrite app_nil_r. }
  cbn [foldl]. rewrite IH.
  - rewrite add_all_pushes_id, <- app_assoc. f_equal.
    change (k :: ptrs) with ([k] ++ ptrs)%list. rewrite omap_app. f_equal.
    simpl. by rewrite Hids.
  - intros p. by rewrite add_all_keeps_ids.
Qed.

(** C10. What [update_source] leaves in [units_to_compile_]: for a file
    that has a snapshot, the affected set of this update and nothing of
    what was pending before; for a file without a snapshot, what was
    pending before followed by the ids of the units of the file. *)
Theorem update_source_pending (abi : char_abi) (now : Z) (path new_content : string)
  (e : IncrementalEngine) :
  units_to_compile_ (update_source abi now path new_content e).2
  = match snapshots_ e !! path with
    | Some old_snap =>
        (affected_after path old_snap (create_snapshot abi now path new_content)
                        (eng_units_ e)).2
    | None =>
        (units_to_compile_ e
           ++ omap (id_behind (eng_units_ e))
                   (get_units_by_file path (eng_units_ e)))%list
    end.
Proof.
  unfold update_source. cbv zeta.
  destruct (snapshots_ e !! path) as [old_snap|].
  - by destruct (affected_after _ _ _ _) as [m affected_ids].
  - pose proof (add_all_pending (eng_units_ e)
                  (get_units_by_file path (eng_units_ e))
                  (eng_units_ e, units_to_compile_ e, [])
                  (fun _ => eq_refl)) as Hpending.
    by destruct (foldl add_all _ _) as [[m1 pending1] changes].
Qed.

(** After the first update of each of two files both units are pending; a
    second update of the first file leaves only its own unit pending. *)
Example pending_of_other_file_is_dropped :
  units_to_compile_ two_files_engine = ["a1"; "b1"]
  ∧ units_to_compile_ (update_source SignedChar 3 "a.py" "z" two_files_engine).2
    = ["a1"].
Proof. split; by vm_compute. Qed.

(** * Further properties *)

(** ** ChangeDetector: what the diff returns *)

Lemma backtrace_zero_l (t : list (list nat)) (old_lines new_lines : list string)
  (j : nat) : backtrace t old_lines new_lines O j = [].
Proof. by destruct j. Qed.

(** Every pair the backtrace pushes is a match inside the part of the table
    it started from, and each pair lies above and to the left of the pairs
    pushed before it. *)
Lemma backtrace_valid (old_lines new_lines : list string) (i : nat) : ∀ j,
  Forall (fun ab : nat * nat =>
            (ab.1 < i)%nat ∧ (ab.2 < j)%nat
            ∧ nth ab.1 old_lines "" = nth ab.2 new_lines "")
         (backtrace (lcs_table old_lines new_lines) old_lines new_lines i j)
  ∧ StronglySorted (flip pair_lt)
      (backtrace (lcs_table old_lines new_lines) old_lines new_lines i j).
Proof.
  induction i as [|i IHi]; intros j.
  { rewrite backtrace_zero_l. split; constructor. }
  induction j as [|j IHj].
  { rewrite backtrace_zero_r. split; constructor. }
  rewrite backtrace_unfold.
  destruct (String.eqb_spec (nth i old_lines "") (nth j new_lines "")) as [Heq|_].
  - destruct (IHi j) as [Hall Hsorted]. split.
    + constructor; [simpl; auto with lia|].
      eapply Forall_impl; [exact Hall|]. intros [a b] (? & ? & ?).
      simpl in *. split_and!; [lia|lia|done].
    + constructor; [done|].
      eapply Forall_impl; [exact Hall|]. intros [a b] (? & ? & _).
      split; simpl in *; lia.
  - destruct (_ <? _)%nat.
    + destruct (IHi (S j)) as [Hall Hsorted]. split; [|done].
      eapply Forall_impl; [exact Hall|]. intros [a b] (? & ? & ?).
      simpl in *. split_and!; [lia|lia|done].
    + destruct IHj as [Hall Hsorted]. split; [|done].
      eapply Forall_impl; [exact Hall|]. intros [a b] (? & ? & ?).
      simpl in *. split_and!; [lia|lia|done].
Qed.

Lemma StronglySorted_rev_flip {A : Type} (R : relation A) (l : list A) :
  StronglySorted (flip R) l -> StronglySorted R (rev l).
Proof.
  induction 1 as [|x l Hsorted IH Hall]; [constructor|].
  simpl. apply StronglySorted_app_2; [|done|repeat constructor].
  intros y z Hy Hz. apply list_elem_of_singleton in Hz as ->.
  rewrite Forall_forall in Hall. apply Hall.
  by apply list_elem_of_In, in_rev, list_elem_of_In.
Qed.

Lemma lookup_nth_lt (l : list string) (i : nat) :
  (i < length l)%nat -> l !! i = Some (nth i l "").
Proof.
  intros Hi. destruct (lookup_lt_is_Some_2 l i Hi) as [x Hx].
  rewrite Hx. f_equal. symmetry. by apply nth_lookup_Some.
Qed.

Lemma compute_lcs_valid (old_lines new_lines : list string) :
  Forall (fun ab : nat * nat =>
            (ab.1 < length old_lines)%nat ∧ (ab.2 < length new_lines)%nat
            ∧ nth ab.1 old_lines "" = nth ab.2 new_lines "")
         (compute_lcs old_lines new_lines)
  ∧ StronglySorted pair_lt (compute_lcs old_lines new_lines).
Proof.
  unfold compute_lcs. cbv zeta.
  destruct (backtrace_valid old_lines new_lines (length old_lines)
              (length new_lines)) as [Hall Hsorted].
  split; [|by apply StronglySorted_rev_flip].
  apply Forall_forall. intros ab Hin.
  apply list_elem_of_In, in_rev, list_elem_of_In in Hin.
  rewrite Forall_forall in Hall. by apply Hall.
Qed.

(** X1. The pairs [compute_lcs] returns are matches: both indices are in
    range and the two lines are equal; and from one pair to the next both
    indices grow, so no line is matched twice and no two matches cross. *)
Theorem compute_lcs_matches (old_lines new_lines : list string) :
  Forall (fun ab : nat * nat =>
            ∃ h, old_lines !! ab.1 = Some h ∧ new_lines !! ab.2 = Some h)
         (compute_lcs old_lines new_lines)
  ∧ StronglySorted pair_lt (compute_lcs old_lines new_lines).
Proof.
  destruct (compute_lcs_valid old_lines new_lines) as [Hall Hsorted].
  split; [|done].
  eapply Forall_impl; [exact Hall|]. intros [a b] (Ha & Hb & Heq).
  simpl in *. exists (nth a old_lines "").
  split; [by apply lookup_nth_lt|]. rewrite Heq. by apply lookup_nth_lt.
Qed.

Lemma pair_lt_NoDup_snd (l : list (nat * nat)) :
  StronglySorted pair_lt l -> NoDup (map snd l).
Proof.
  induction 1 as [|x l Hsorted IH Hall]; [constructor|].
  simpl. apply NoDup_cons. split; [|done].
  intros Hin. apply list_elem_of_In, in_map_iff in Hin as (y & Hy & Hin).
  rewrite Forall_forall in Hall.
  destruct (Hall y (proj2 (list_elem_of_In _ _) Hin)) as [_ Hlt]. lia.
Qed.

(** The indices a set leaves out of [0, n), counted. *)
Lemma unmatched_count (S : gset nat) (n : nat) :
  (∀ x, x ∈ S -> (x < n)%nat) ->
  (length (filter (fun i : nat => i ∉ S) (seq 0 n)) + size S = n)%nat.
Proof.
  intros Hbound.
  pose proof (filter_app_complement (fun i : nat => i ∈ S) (seq 0 n)) as Hsplit.
  apply Permutation_length in Hsplit. rewrite length_app, length_seq in Hsplit.
  assert (elements S ≡ₚ filter (fun i : nat => i ∈ S) (seq 0 n)) as Hperm.
  { apply NoDup_Permutation; [apply NoDup_elements|apply NoDup_filter, NoDup_seq|].
    intros x. rewrite elem_of_elements, list_elem_of_filter, elem_of_seq.
    split; [|tauto]. intros Hx. split; [done|]. specialize (Hbound x Hx). lia. }
  apply Permutation_length in Hperm. unfold size, set_size. simpl. lia.
Qed.



Lemma backtrace_same (t : list (list nat)) (lines : list string) (k : nat) :
  map snd (backtrace t lines lines k k) = rev (seq 0 k).
Proof.
  induction k as [|k IH]; [done|].
  change (backtrace t lines lines (S k) (S k))
    with (if String.eqb (nth k lines "") (nth k lines "")
          then (k, k) :: backtrace t lines lines k k
          else if (dp_at t (S k) k <? dp_at t k (S k))%nat
               then backtrace t lines lines k (S k)
               else backtrace t lines lines (S k) k).
  rewrite String.eqb_refl, map_cons, IH, seq_S, rev_app_distr. reflexivity.
Qed.

(** X3. Two snapshots with the same line hashes have no changed line,
    whatever else differs between them; in particular
    [get_changed_lines s s] is empty. *)
Theorem get_changed_lines_unchanged (old_snap new_snap : Snapshot) :
  line_hashes old_snap = line_hashes new_snap ->
  get_changed_lines old_snap new_snap = [].
Proof.
  intros Hsame. unfold get_changed_lines, compute_lcs. rewrite Hsame. cbv zeta.
  rewrite map_rev, backtrace_same, rev_involutive.
  rewrite filter_all_out; [done|].
  intros x Hx Hout. apply Hout. by apply elem_of_list_to_set.
Qed.

(** A file and the same file with its lines indented and a newline at the
    end. *)
Lemma get_changed_lines_unchanged_witness :
  get_changed_lines
    (create_snapshot SignedChar 0 "f.py" ("x" ++ nl ++ "y"))
    (create_snapshot SignedChar 1 "f.py" (" x" ++ nl ++ "y " ++ nl))
  = [].
Proof. apply get_changed_lines_unchanged. vm_compute. reflexivity. Defined.

(** ** ChangeDetector: the diff is as short as can be *)

Lemma sublist_snoc_inv (s l : list string) (x : string) :
  s `sublist_of` (l ++ [x])%list ->
  s `sublist_of` l ∨ ∃ s', s = (s' ++ [x])%list ∧ s' `sublist_of` l.
Proof.
  intros (s1 & s2 & -> & Hs1 & Hs2)%sublist_app_r.
  apply sublist_cons_r in Hs2 as [Hnil|(s' & -> & Hnil)];
    apply sublist_nil_r in Hnil as ->.
  - left. by rewrite app_nil_r.
  - right. by exists s1.
Qed.

Section LcsOptimal.

Variables old_lines new_lines : list string.

Local Abbreviation D := (dp_at (lcs_table old_lines new_lines)).
Local Abbreviation walk := (backtrace (lcs_table old_lines new_lines) old_lines new_lines).

(** The backtrace from a cell pushes as many pairs as the cell says. *)
Lemma backtrace_length (i : nat) : ∀ j,
  (i <= length old_lines)%nat -> (j <= length new_lines)%nat ->
  length (walk i j) = D i j.
Proof.
  induction i as [|i IHi]; intros j Hi Hj.
  { by rewrite backtrace_zero_l, dp_row_zero. }
  induction j as [|j IHj].
  { by rewrite backtrace_zero_r, dp_column_zero. }
  rewrite backtrace_unfold, dp_fill_rule by lia.
  destruct (String.eqb _ _).
  - simpl. rewrite IHi by lia. lia.
  - destruct (Nat.ltb_spec (D (S i) j) (D i (S j))).
    + rewrite IHi by lia. lia.
    + rewrite IHj by lia. lia.
Qed.

(** A cell bounds every common subsequence of the two prefixes. *)
Lemma dp_bounds_common (i : nat) : ∀ j s,
  (i <= length old_lines)%nat -> (j <= length new_lines)%nat ->
  s `sublist_of` take i old_lines -> s `sublist_of` take j new_lines ->
  (length s <= D i j)%nat.
Proof.
  induction i as [|i IHi]; intros j s Hi Hj Hold Hnew.
  { apply sublist_nil_r in Hold as ->. simpl. lia. }
  induction j as [|j IHj].
  { apply sublist_nil_r in Hnew as ->. simpl. lia. }
  rewrite (take_S_r _ _ _ (lookup_nth_lt old_lines i ltac:(lia))) in Hold.
  rewrite (take_S_r _ _ _ (lookup_nth_lt new_lines j ltac:(lia))) in Hnew.
  assert (take (S i) old_lines
          = (take i old_lines ++ [nth i old_lines ""])%list) as Hold_take
    by (apply take_S_r, lookup_nth_lt; lia).
  assert (take (S j) new_lines
          = (take j new_lines ++ [nth j new_lines ""])%list) as Hnew_take
    by (apply take_S_r, lookup_nth_lt; lia).
  rewrite dp_fill_rule by lia.
  destruct (String.eqb_spec (nth i old_lines "") (nth j new_lines "")) as [Heq|Hne].
  - assert (∃ s0, s0 `sublist_of` take i old_lines
                  ∧ s0 `sublist_of` take j new_lines
                  ∧ (length s <= length s0 + 1)%nat) as (s0 & Ho & Hn & Hlen).
    { rewrite <- Heq in Hnew.
      destruct (sublist_snoc_inv _ _ _ Hold) as [Ho|(s' & -> & Ho)],
               (sublist_snoc_inv _ _ _ Hnew) as [Hn|(s'' & Hs & Hn)].
      - exists s. split_and!; [done|done|lia].
      - subst s. exists s''. split_and!; [|done|rewrite length_app; simpl; lia].
        etrans; [|exact Ho]. by apply sublist_inserts_r.
      - exists s'. split_and!; [done| |rewrite length_app; simpl; lia].
        etrans; [|exact Hn]. by apply sublist_inserts_r.
      - apply app_inj_tail in Hs as [-> _].
        exists s''. split_and!; [done|done|rewrite length_app; simpl; lia]. }
    pose proof (IHi j s0 ltac:(lia) ltac:(lia) Ho Hn). lia.
  - destruct (sublist_snoc_inv _ _ _ Hold) as [Ho|(s' & -> & Ho)].
    + rewrite <- Hnew_take in Hnew.
      pose proof (IHi (S j) s ltac:(lia) ltac:(lia) Ho Hnew). lia.
    + destruct (sublist_snoc_inv _ _ _ Hnew) as [Hn|(s'' & Hs & Hn)].
      * pose proof (IHj ltac:(lia) Hn). lia.
      * apply app_inj_tail in Hs as [_ Hs]. done.
Qed.

Lemma compute_lcs_longest (s : list string) :
  s `sublist_of` old_lines -> s `sublist_of` new_lines ->
  (length s <= length (compute_lcs old_lines new_lines))%nat.
Proof.
  intros Hold Hnew. unfold compute_lcs. cbv zeta.
  rewrite length_rev, backtrace_length by done.
  apply dp_bounds_common; [done|done|by rewrite take_ge|by rewrite take_ge].
Qed.

End LcsOptimal.

(** X4. [compute_lcs] finds a longest common subsequence: no list of lines
    that occurs, in order, in both the old and the new line hashes is longer
    than its result; so [get_changed_lines] reports as few lines as any
    alignment of the two files allows. *)
Theorem get_changed_lines_minimal (old_snap new_snap : Snapshot) (s : list string) :
  s `sublist_of` line_hashes old_snap ->
  s `sublist_of` line_hashes new_snap ->
  (length s <= length (compute_lcs (line_hashes old_snap) (line_hashes new_snap)))%nat
  ∧ (length (get_changed_lines old_snap new_snap) + length s
     <= length (line_hashes new_snap))%nat.
Proof.
  intros Hold Hnew.
  pose proof (compute_lcs_longest _ _ s Hold Hnew) as Hlong. split; [done|].
  unfold get_changed_lines. cbv zeta. rewrite length_map.
  set (lcs := compute_lcs (line_hashes old_snap) (line_hashes new_snap)) in *.
  set (S := list_to_set (map snd lcs) : gset nat).
  destruct (compute_lcs_valid (line_hashes old_snap) (line_hashes new_snap))
    as [Hvalid Hlt]. fold lcs in Hvalid, Hlt.
  assert (size S = length lcs) as Hsize.
  { unfold S. rewrite size_list_to_set by (by apply pair_lt_NoDup_snd).
    apply length_map. }
  assert (∀ x, x ∈ S -> (x < length (line_hashes new_snap))%nat) as Hbound;
    [|pose proof (unmatched_count S _ Hbound); lia].
  intros x Hx.
  apply elem_of_list_to_set, list_elem_of_In, in_map_iff in Hx as (ab & <- & Hin).
  rewrite Forall_forall in Hvalid.
  by destruct (Hvalid ab (proj2 (list_elem_of_In _ _) Hin)) as (_ & ? & _).
Qed.

(** Scenario S3: with one line inserted, the three old lines are common to
    both files, so at most one line is reported. *)
Lemma get_changed_lines_minimal_witness :
  (length (get_changed_lines
             (mkSnapshot "f.py" "" ["a"; "b"; "c"] ∅ 0)
             (mkSnapshot "f.py" "" ["a"; "NEW"; "b"; "c"] ∅ 1)) <= 1)%nat.
Proof.
  destruct (get_changed_lines_minimal
              (mkSnapshot "f.py" "" ["a"; "b"; "c"] ∅ 0)
              (mkSnapshot "f.py" "" ["a"; "NEW"; "b"; "c"] ∅ 1)
              ["a"; "b"; "c"]) as [_ Hle].
  - simpl. reflexivity.
  - simpl. apply sublist_skip, sublist_cons. reflexivity.
  - simpl in Hle. lia.
Defined.

(** ** ChangeDetector: [detect_changes] *)

Lemma omap_all_none {A B : Type} (f : A -> option B) (l : list A) :
  (∀ x, x ∈ l -> f x = None) -> omap f l = [].
Proof.
  induction l as [|x l IH]; intros Hnone; [done|].
  simpl. rewrite (Hnone x) by (by left). apply IH.
  intros y Hy. apply Hnone. by right.
Qed.

(** The records of [detect_changes], member by member. *)
Lemma detect_changes_exact (old_snap new_snap : Snapshot) :
  (∀ r, r ∈ detect_changes old_snap new_snap ↔
     (∃ k u, snap_units old_snap !! k = Some u ∧ snap_units new_snap !! k = None
             ∧ r = deleted_record k u)
     ∨ (∃ k u, snap_units new_snap !! k = Some u ∧ snap_units old_snap !! k = None
               ∧ r = added_record k u)
     ∨ (∃ k uo un, snap_units old_snap !! k = Some uo
                   ∧ snap_units new_snap !! k = Some un
                   ∧ content_hash uo ≠ content_hash un
                   ∧ r = modified_record k uo un))
  ∧ detect_changes old_snap old_snap = [].
Proof.
  split.
  - intros r. unfold detect_changes. cbv zeta.
    rewrite elem_of_app, !list_elem_of_omap. split.
    + intros [(k & Hk & Hr)|([k un] & Hk & Hr)].
      * left. unfold deleted_of in Hr.
        destruct (decide (k ∈ dom (snap_units new_snap))) as [|Hout]; [done|].
        apply not_elem_of_dom in Hout.
        destruct (snap_units old_snap !! k) as [u|] eqn:Hu; [|done].
        injection Hr as <-. by exists k, u.
      * right. apply elem_of_map_to_list in Hk.
        unfold added_or_modified_of in Hr. simpl in Hr.
        destruct (snap_units old_snap !! k) as [uo|] eqn:Huo.
        -- right. destruct (String.eqb_spec (content_hash uo) (content_hash un));
             [done|]. injection Hr as <-. by exists k, uo, un.
        -- left. injection Hr as <-. by exists k, un.
    + intros [(k & u & Hold & Hnew & ->)|[(k & u & Hnew & Hold & ->)
                                          |(k & uo & un & Hold & Hnew & Hne & ->)]].
      * left. exists k. split; [apply elem_of_elements, elem_of_dom; by eexists|].
        unfold deleted_of. rewrite Hold.
        destruct (decide (k ∈ dom (snap_units new_snap))) as [Hin|]; [|done].
        apply elem_of_dom in Hin as [? Hin]. by rewrite Hnew in Hin.
      * right. exists (k, u). split; [by apply elem_of_map_to_list|].
        unfold added_or_modified_of. simpl. by rewrite Hold.
      * right. exists (k, un). split; [by apply elem_of_map_to_list|].
        unfold added_or_modified_of. simpl. rewrite Hold.
        by destruct (String.eqb_spec (content_hash uo) (content_hash un)).
  - unfold detect_changes. cbv zeta. rewrite !omap_all_none; [done|..].
    + intros [k u] Hk%elem_of_map_to_list. unfold added_or_modified_of. simpl.
      by rewrite Hk, String.eqb_refl.
    + intros k Hk%elem_of_elements. unfold deleted_of. by rewrite decide_True.
Qed.

Lemma unit_ids_sublist {A : Type} (f : A -> option ChangeRecord) (key : A -> string)
  (l : list A) :
  (∀ x r, f x = Some r -> unit_id r = key x) ->
  map unit_id (omap f l) `sublist_of` map key l.
Proof.
  intros Hkey. induction l as [|x l IH]; [done|].
  simpl. destruct (f x) as [r|] eqn:Hr; simpl.
  - rewrite (Hkey x r Hr). by apply sublist_skip.
  - by apply sublist_cons.
Qed.

(** X5. [detect_changes] compares the unit maps of two snapshots by id.
    Every record it returns is of one of three kinds, and every unit of
    that kind has its record: [DELETED] with the old lines for a unit that
    is only in the old snapshot, [ADDED] with the new lines for a unit that
    is only in the new one, [MODIFIED] with both for a unit in both whose
    [content_hash] differs.  No id has two records; a unit that only moved
    to other lines has none, and a snapshot compared with itself gives no
    record at all. *)
Theorem detect_changes_records (old_snap new_snap : Snapshot) :
  (∀ r, r ∈ detect_changes old_snap new_snap ->
     (∃ u, is_deleted old_snap new_snap (unit_id r) u ∧ reports_deleted u r)
     ∨ (∃ u, is_added old_snap new_snap (unit_id r) u ∧ reports_added u r)
     ∨ (∃ uo un, is_modified old_snap new_snap (unit_id r) uo un
                 ∧ reports_modified uo un r))
  ∧ (∀ k u, is_deleted old_snap new_snap k u ->
       ∃ r, r ∈ detect_changes old_snap new_snap ∧ unit_id r = k
            ∧ reports_deleted u r)
  ∧ (∀ k u, is_added old_snap new_snap k u ->
       ∃ r, r ∈ detect_changes old_snap new_snap ∧ unit_id r = k
            ∧ reports_added u r)
  ∧ (∀ k uo un, is_modified old_snap new_snap k uo un ->
       ∃ r, r ∈ detect_changes old_snap new_snap ∧ unit_id r = k
            ∧ reports_modified uo un r)
  ∧ NoDup (map unit_id (detect_changes old_snap new_snap))
  ∧ detect_changes old_snap old_snap = [].
Proof.
  destruct (detect_changes_exact old_snap new_snap) as [Hexact Hsame].
  split_and!; [| | | | |done].
  - intros r [(k & u & Hold & Hnew & ->)|[(k & u & Hnew & Hold & ->)
                |(k & uo & un & Hold & Hnew & Hne & ->)]]%Hexact.
    + left. by exists u.
    + right. left. by exists u.
    + right. right. by exists uo, un.
  - intros k u [Hold Hnew]. exists (deleted_record k u).
    split; [|done]. apply Hexact. left. by exists k, u.
  - intros k u [Hnew Hold]. exists (added_record k u).
    split; [|done]. apply Hexact. right. left. by exists k, u.
  - intros k uo un (Hold & Hnew & Hne). exists (modified_record k uo un).
    split; [|done]. apply Hexact. right. right. by exists k, uo, un.
  - unfold detect_changes. cbv zeta. rewrite map_app. apply NoDup_app. split_and!.
    + eapply sublist_NoDup; cycle 1.
      * apply (unit_ids_sublist _ (fun k => k)). intros k r. unfold deleted_of.
        destruct (decide _); [done|].
        destruct (snap_units old_snap !! k); [|done]. by intros [= <-].
      * rewrite map_id. apply NoDup_elements.
    + intros k Hdel Hnew.
      apply list_elem_of_fmap in Hdel as (r & -> & Hr).
      apply list_elem_of_omap in Hr as (k & _ & Hr). unfold deleted_of in Hr.
      destruct (decide (k ∈ dom (snap_units new_snap))) as [|Hout]; [done|].
      destruct (snap_units old_snap !! k); [|done]. injection Hr as <-.
      simpl in Hnew. apply Hout.
      apply list_elem_of_fmap in Hnew as (r & Hk & Hr).
      apply list_elem_of_omap in Hr as ([k' un] & Hin & Hr).
      apply elem_of_map_to_list in Hin. unfold added_or_modified_of in Hr.
      simpl in Hr. apply elem_of_dom. exists un.
      destruct (snap_units old_snap !! k').
      * destruct (String.eqb _ _); [done|]. injection Hr as <-. by rewrite Hk.
      * injection Hr as <-. by rewrite Hk.
    + eapply sublist_NoDup; cycle 1.
      * apply (unit_ids_sublist _ fst). intros [k un] r.
        unfold added_or_modified_of. simpl.
        destruct (snap_units old_snap !! k); [|by intros [= <-]].
        destruct (String.eqb _ _); [done|]. by intros [= <-].
      * apply NoDup_fst_map_to_list.
Qed.

(** ** Line utilities *)

Lemma split_lines_from_line (l : string) : ∀ rest cur,
  one_line l ->
  split_lines_from (l ++ rest) cur = split_lines_from rest (cur ++ l).
Proof.
  induction l as [|c l IH]; intros rest cur Hl.
  { by rewrite str_app_nil_l, str_app_nil_r. }
  unfold one_line in Hl. simpl in Hl. apply not_elem_of_cons in Hl as [Hc Hl].
  rewrite str_app_cons. simpl.
  destruct (Ascii.eqb_spec c newline) as [->|_]; [done|].
  rewrite IH by done. f_equal. by rewrite str_app_assoc.
Qed.

Lemma split_lines_from_newline (rest cur : string) :
  split_lines_from (nl ++ rest) cur = cur :: split_lines_from rest "".
Proof. reflexivity. Qed.

Lemma split_lines_from_joined (lines : list string) : ∀ cur i,
  Forall one_line lines -> last (cur :: lines) ≠ Some "" ->
  split_lines_from (join_lines_from (S i) lines) cur = cur :: lines.
Proof.
  induction lines as [|l lines IH]; intros cur i Hlines Hlast.
  - simpl in *. destruct cur; [done|reflexivity].
  - apply Forall_cons in Hlines as [Hl Hlines].
    change (join_lines_from (S i) (l :: lines))
      with (nl ++ l ++ join_lines_from (S (S i)) lines).
    rewrite split_lines_from_newline, split_lines_from_line by done.
    rewrite str_app_nil_l. f_equal. by apply IH.
Qed.

(** X6. [split_lines] undoes [join_lines] on every list of lines that
    [split_lines] can produce: no line contains a newline and the last line
    is not empty (an empty last line is lost: joining writes nothing for it,
    or only the newline before it, which splitting takes for a terminator). *)
Theorem split_join_lines (lines : list string) :
  Forall one_line lines -> last lines ≠ Some "" ->
  split_lines (join_lines lines) = lines.
Proof.
  intros Hlines Hlast. unfold split_lines, join_lines.
  destruct lines as [|l lines]; [done|].
  apply Forall_cons in Hlines as [Hl Hlines].
  change (join_lines_from 0 (l :: lines)) with ("" ++ l ++ join_lines_from 1 lines).
  rewrite str_app_nil_l, split_lines_from_line, str_app_nil_l by done.
  by apply split_lines_from_joined.
Qed.

Lemma split_join_lines_witness :
  split_lines (join_lines ["a"; ""; "b"]) = ["a"; ""; "b"].
Proof.
  apply split_join_lines.
  - repeat (apply Forall_cons; split); [..|apply Forall_nil];
      unfold one_line; simpl; rewrite ?not_elem_of_cons;
      repeat split; try discriminate; apply not_elem_of_nil.
  - simpl. discriminate.
Defined.

Lemma join_lines_from_pos (lines : list string) : ∀ i j,
  join_lines_from (S i) lines = join_lines_from (S j) lines.
Proof.
  induction lines as [|l lines IH]; intros i j; [done|].
  simpl. by rewrite (IH (S i) (S j)).
Qed.

Lemma join_lines_cons (l : string) (lines : list string) :
  join_lines (l :: lines)
  = l ++ match lines with [] => "" | _ => nl ++ join_lines lines end.
Proof.
  unfold join_lines.
  change (join_lines_from 0 (l :: lines)) with ("" ++ l ++ join_lines_from 1 lines).
  rewrite str_app_nil_l. f_equal. destruct lines as [|l' lines]; [done|].
  change (join_lines_from 1 (l' :: lines)) with (nl ++ l' ++ join_lines_from 2 lines).
  change (join_lines_from 0 (l' :: lines)) with ("" ++ l' ++ join_lines_from 1 lines).
  by rewrite str_app_nil_l, (join_lines_from_pos lines 1 0).
Qed.

Lemma chomp_app (p s : string) : s ≠ "" -> chomp (p ++ s) = p ++ chomp s.
Proof.
  intros Hs. induction p as [|a p IH]; [done|].
  rewrite !str_app_cons. simpl. rewrite IH.
  destruct (p ++ s) eqn:Hps; [|done].
  destruct p; [|done]. by rewrite str_app_nil_l in Hps.
Qed.

Lemma chomp_app_nl (cur : string) : chomp (cur ++ nl) = cur.
Proof.
  induction cur as [|a cur IH]; [done|].
  rewrite str_app_cons. simpl. destruct (cur ++ nl) eqn:Happ.
  - destruct cur; [by rewrite str_app_nil_l in Happ|by rewrite str_app_cons in Happ].
  - by rewrite IH.
Qed.

Lemma chomp_one_line (s : string) : one_line s -> chomp s = s.
Proof.
  induction s as [|c s IH]; intros Hs; [done|].
  unfold one_line in Hs. simpl in Hs. apply not_elem_of_cons in Hs as [Hc Hs].
  simpl. destruct s as [|c' s].
  - by destruct (Ascii.eqb_spec c newline).
  - by rewrite IH.
Qed.

Lemma split_lines_from_nil (content cur : string) :
  split_lines_from content cur = [] -> content = "" ∧ cur = "".
Proof.
  revert cur. induction content as [|c content IH]; intros cur Hnil; simpl in Hnil.
  - by destruct cur.
  - destruct (Ascii.eqb c newline); [done|].
    apply IH in Hnil as [_ Hcur]. by destruct cur.
Qed.

Lemma join_split_lines_from (content : string) : ∀ cur,
  one_line cur ->
  join_lines (split_lines_from content cur) = chomp (cur ++ content).
Proof.
  induction content as [|c content IH]; intros cur Hcur.
  - rewrite str_app_nil_r, chomp_one_line by done. simpl.
    destruct cur; [done|]. by rewrite join_lines_cons, str_app_nil_r.
  - simpl. destruct (Ascii.eqb_spec c newline) as [->|Hc].
    + rewrite join_lines_cons.
      destruct (split_lines_from content "") as [|l lines] eqn:Hsplit.
      * apply split_lines_from_nil in Hsplit as [-> _].
        by rewrite str_app_nil_r, chomp_app_nl.
      * rewrite <- Hsplit, IH, str_app_nil_l
          by (unfold one_line; simpl; apply not_elem_of_nil).
        change (String newline content) with (nl ++ content).
        rewrite <- (str_app_assoc cur nl content), chomp_app;
          [by rewrite str_app_assoc|].
        intros ->. done.
    + rewrite IH.
      * by rewrite str_app_assoc.
      * unfold one_line in *. clear IH.
        induction cur as [|a cur IHcur]; simpl in *.
        -- apply not_elem_of_cons. split; [done|apply not_elem_of_nil].
        -- apply not_elem_of_cons in Hcur as [Ha Hcur].
           apply not_elem_of_cons. split; [done|]. by apply IHcur.
Qed.

(** X7. [join_lines] after [split_lines] gives the content back without
    the newline at its end, if it had one there: a final newline is a
    terminator, not the start of an empty last line. *)
Theorem join_split_lines (content : string) :
  join_lines (split_lines content) = chomp content.
Proof.
  unfold split_lines. rewrite join_split_lines_from; [done|].
  unfold one_line. simpl. apply not_elem_of_nil.
Qed.

(** ** Line hashes and content hashes *)

Lemma blank_string_cons (c : ascii) (s : string) :
  blank_string (String c s) ↔ is_blank c = true ∧ blank_string s.
Proof. unfold blank_string. simpl. by rewrite Forall_cons. Qed.

Lemma find_first_after_blanks (ws : string) : ∀ s i,
  blank_string ws ->
  find_first_not_blank (ws ++ s) i = find_first_not_blank s (i + String.length ws).
Proof.
  induction ws as [|c ws IH]; intros s i Hws.
  { rewrite str_app_nil_l. simpl. by rewrite Nat.add_0_r. }
  apply blank_string_cons in Hws as [Hc Hws].
  rewrite str_app_cons. simpl. rewrite Hc, IH by done. f_equal. lia.
Qed.

Lemma find_first_blank (ws : string) (i : nat) :
  blank_string ws -> find_first_not_blank ws i = None.
Proof.
  intros Hws. rewrite <- (str_app_nil_r ws).
  by rewrite find_first_after_blanks.
Qed.

Lemma find_last_blank (ws : string) : ∀ i,
  blank_string ws -> find_last_not_blank ws i = None.
Proof.
  induction ws as [|c ws IH]; intros i Hws; [done|].
  apply blank_string_cons in Hws as [Hc Hws].
  simpl. by rewrite IH, Hc.
Qed.

Lemma find_last_before_blanks (s ws : string) : ∀ i,
  blank_string ws ->
  find_last_not_blank (s ++ ws) i = find_last_not_blank s i.
Proof.
  induction s as [|c s IH]; intros i Hws.
  { rewrite str_app_nil_l. by apply find_last_blank. }
  rewrite str_app_cons. simpl. by rewrite IH.
Qed.

Lemma find_last_snoc (pre : string) (d : ascii) : ∀ i,
  is_blank d = false ->
  find_last_not_blank (pre ++ String d "") i = Some (i + String.length pre)%nat.
Proof.
  induction pre as [|c pre IH]; intros i Hd.
  { rewrite str_app_nil_l. simpl. rewrite Hd. f_equal. lia. }
  rewrite str_app_cons. simpl. rewrite IH by done. f_equal. lia.
Qed.

Lemma substring_prefix (b c : string) :
  substring 0 (String.length b) (b ++ c) = b.
Proof.
  induction b as [|x b IH].
  - rewrite str_app_nil_l. by destruct c.
  - rewrite str_app_cons. simpl. by rewrite IH.
Qed.

Lemma substring_middle (a b c : string) :
  substring (String.length a) (String.length b) (a ++ b ++ c) = b.
Proof.
  induction a as [|x a IH];
    [rewrite str_app_nil_l; apply substring_prefix|].
  rewrite str_app_cons. simpl. exact IH.
Qed.

Lemma string_snoc (c : ascii) (s : string) :
  ∃ pre d, String c s = pre ++ String d "".
Proof.
  revert c. induction s as [|c' s IH]; intros c.
  - by exists "", c.
  - destruct (IH c') as (pre & d & Hs). exists (String c pre), d.
    by rewrite str_app_cons, <- Hs.
Qed.

(** X8. [compute_line_hash] ignores the blanks (space, tab, carriage
    return, newline) around a line: a line of blanks only hashes to
    ["empty"], and any other line to the content hash of what stands between
    its first and its last non-blank character. *)
Theorem compute_line_hash_trims (abi : char_abi) (ws1 core ws2 : string) :
  blank_string ws1 -> blank_string ws2 -> trimmed core ->
  compute_line_hash abi (ws1 ++ core ++ ws2)
  = if String.eqb core "" then "empty" else compute_hash abi core.
Proof.
  intros Hws1 Hws2 [Hfirst Hlast]. unfold compute_line_hash.
  rewrite find_first_after_blanks by done. simpl.
  destruct core as [|c core].
  - rewrite str_app_nil_l. by rewrite find_first_blank.
  - rewrite str_app_cons. simpl. rewrite (Hfirst c core eq_refl).
    rewrite <- str_app_cons.
    destruct (string_snoc c core) as (pre & d & Hcore).
    rewrite Hcore at 1.
    rewrite <- (str_app_assoc ws1), find_last_before_blanks by done.
    rewrite <- str_app_assoc, find_last_snoc by (by eapply Hlast).
    simpl. rewrite str_app_length.
    replace (String.length ws1 + String.length pre - String.length ws1 + 1)%nat
      with (String.length (String c core)).
    + by rewrite substring_middle.
    + rewrite Hcore, str_app_length. simpl. lia.
Qed.

Lemma compute_line_hash_trims_witness :
  compute_line_hash SignedChar ("  " ++ "a b" ++ " ")
  = compute_hash SignedChar "a b".
Proof.
  apply (compute_line_hash_trims SignedChar "  " "a b" " ").
  - repeat constructor.
  - repeat constructor.
  - split.
    + intros c rest [= <- _]. reflexivity.
    + intros pre d Heq.
      assert (String.length pre = 2)%nat as Hlen.
      { apply (f_equal String.length) in Heq. rewrite str_app_length in Heq.
        simpl in Heq. lia. }
      destruct pre as [|? [|? [|]]]; try discriminate.
      rewrite !str_app_cons, str_app_nil_l in Heq. injection Heq as _ _ <-.
      reflexivity.
Defined.

Lemma hex_digit_lower (d : Z) :
  0 <= d < 16 -> is_lower_hex (hex_digit d) = true.
Proof.
  intros Hd. replace d with (Z.of_nat (Z.to_nat d)) by lia.
  assert (Z.to_nat d < 16)%nat as Hn by lia.
  generalize dependent (Z.to_nat d). intros n Hn.
  do 16 (destruct n as [|n]; [reflexivity|]). lia.
Qed.

Lemma list_ascii_app (a b : string) :
  list_ascii_of_string (a ++ b)
  = (list_ascii_of_string a ++ list_ascii_of_string b)%list.
Proof.
  induction a as [|c a IH]; [by rewrite str_app_nil_l|].
  rewrite str_app_cons. simpl. by rewrite IH.
Qed.

Lemma hex_digits_lower (n : nat) : ∀ v,
  Forall (fun c => is_lower_hex c = true) (list_ascii_of_string (hex_digits n v)).
Proof.
  induction n as [|n IH]; intros v; simpl; [constructor|].
  rewrite list_ascii_app. apply Forall_app. split; [apply IH|].
  simpl. constructor; [|constructor].
  apply hex_digit_lower, Z.mod_pos_bound. lia.
Qed.

Lemma find_first_none_blank (s : string) : ∀ i,
  find_first_not_blank s i = None -> blank_string s.
Proof.
  induction s as [|c s IH]; intros i Hnone; [constructor|].
  simpl in Hnone. apply blank_string_cons.
  destruct (is_blank c); [|done]. split; [done|]. by eapply IH.
Qed.

(** X9. A content hash is always 16 characters long, each one of
    [0123456789abcdef], whatever the content and the signedness of
    [char]. *)
Theorem compute_hash_format (abi : char_abi) (content : string) :
  String.length (compute_hash abi content) = 16%nat
  ∧ Forall (fun c => is_lower_hex c = true)
      (list_ascii_of_string (compute_hash abi content)).
Proof.
  split; [apply compute_hash_length|].
  unfold compute_hash. rewrite setw_to_hex by apply fnv1a_hash_range.
  apply hex_digits_lower.
Qed.

(** X10. The line hash is the word ["empty"] exactly for the lines that
    hold blanks only (the empty line among them): the hash of a line with a
    visible character never collides with it. *)
Theorem compute_line_hash_empty_iff (abi : char_abi) (line : string) :
  compute_line_hash abi line = "empty" ↔ blank_string line.
Proof.
  unfold compute_line_hash. split.
  - destruct (find_first_not_blank line 0) as [start|] eqn:Hfirst.
    + intros Heq. apply (f_equal String.length) in Heq.
      rewrite compute_hash_length in Heq. discriminate.
    + intros _. by eapply find_first_none_blank.
  - intros Hblank. by rewrite find_first_blank.
Qed.

(** X11. On content whose bytes are all below 0x80 (ASCII), the content
    hash does not depend on the signedness of [char] and is the 64-bit
    FNV-1a hash of the bytes, written as 16 hexadecimal digits. *)
Theorem compute_hash_ascii (abi : char_abi) (content : string) :
  Forall (fun c => byte_of c < 128) (list_ascii_of_string content) ->
  compute_hash abi content = fnv1a_64_hex content
  ∧ compute_hash SignedChar content = compute_hash UnsignedChar content.
Proof.
  intros Hlow. split; [by apply compute_hash_low_bytes|].
  by rewrite !compute_hash_low_bytes.
Qed.

Lemma compute_hash_ascii_witness :
  compute_hash SignedChar "def f(): pass" = fnv1a_64_hex "def f(): pass"
  ∧ compute_hash SignedChar "def f(): pass"
    = compute_hash UnsignedChar "def f(): pass".
Proof.
  apply (compute_hash_ascii SignedChar "def f(): pass").
  simpl. repeat constructor.
Defined.

(** ** UnitManager: dependency edges *)

Lemma elem_of_push_unique (x y : string) (l : list string) :
  y ∈ push_unique x l ↔ y = x ∨ y ∈ l.
Proof.
  unfold push_unique. destruct (decide (x ∈ l)); set_solver.
Qed.

Lemma push_unique_idem (x : string) (l : list string) :
  push_unique x (push_unique x l) = push_unique x l.
Proof.
  unfold push_unique at 2 3. destruct (decide (x ∈ l)) as [Hin|Hn];
    unfold push_unique; rewrite decide_True; set_solver.
Qed.

Lemma elem_of_erase_all (x y : string) (l : list string) :
  y ∈ erase_all x l ↔ y ∈ l ∧ y ≠ x.
Proof. unfold erase_all. rewrite list_elem_of_filter. tauto. Qed.

Lemma erase_all_notin (x : string) (l : list string) :
  x ∉ l -> erase_all x l = l.
Proof.
  intros Hn. unfold erase_all. induction l as [|y l IH]; [done|].
  rewrite filter_cons, decide_True by set_solver. f_equal. apply IH. set_solver.
Qed.

Lemma erase_all_app (x : string) (l l' : list string) :
  erase_all x (l ++ l') = (erase_all x l ++ erase_all x l')%list.
Proof. apply filter_app. Qed.

Lemma erase_all_idem (x : string) (l : list string) :
  erase_all x (erase_all x l) = erase_all x l.
Proof. apply erase_all_notin. rewrite elem_of_erase_all. tauto. Qed.

Lemma erase_all_push_unique (x : string) (l : list string) :
  x ∉ l -> erase_all x (push_unique x l) = l.
Proof.
  intros Hn. unfold push_unique. rewrite decide_False by done.
  rewrite erase_all_app, erase_all_notin by done.
  unfold erase_all. rewrite filter_cons, decide_False by (intros ?; done).
  by rewrite filter_nil, app_nil_r.
Qed.

Lemma unit_eta (u : CompilationUnit) :
  set_dependents (dependents u) (set_dependencies (dependencies u) u) = u.
Proof. by destruct u. Qed.

(** What [add_dependency] does to the unit stored under [k], when both ends
    are stored. *)
Lemma add_dependency_lookup (a b k : string) (m : UnitManager) :
  is_Some (units_ m !! a) -> is_Some (units_ m !! b) ->
  units_ (add_dependency a b m) !! k
  = (fun u =>
       set_dependents
         (if decide (k = b) then push_unique a (dependents u) else dependents u)
         (set_dependencies
            (if decide (k = a) then push_unique b (dependencies u)
             else dependencies u) u))
    <$> units_ m !! k.
Proof.
  intros [ua Ha] [ub Hb]. unfold add_dependency. rewrite Ha, Hb.
  destruct (decide (a = b)) as [<-|Hab].
  - rewrite lookup_insert_eq. simpl.
    destruct (decide (k = a)) as [->|Hka].
    + by rewrite lookup_insert_eq, Ha.
    + rewrite !lookup_insert_ne by done.
      destruct (units_ m !! k) as [u|]; [|done]. simpl. by rewrite unit_eta.
  - rewrite lookup_insert_ne, Hb by done. simpl.
    destruct (decide (k = b)) as [->|Hkb].
    + rewrite lookup_insert_eq, Hb. simpl. by rewrite decide_False.
    + rewrite lookup_insert_ne by done.
      destruct (decide (k = a)) as [->|Hka].
      * by rewrite lookup_insert_eq, Ha.
      * rewrite lookup_insert_ne by done.
        destruct (units_ m !! k) as [u|]; [|done]. simpl. by rewrite unit_eta.
Qed.

Lemma add_dependency_missing (a b : string) (m : UnitManager) :
  units_ m !! a = None ∨ units_ m !! b = None -> add_dependency a b m = m.
Proof.
  unfold add_dependency. intros [Hn|Hn]; rewrite Hn; [done|].
  by destruct (units_ m !! a).
Qed.

Lemma add_dependency_file_units (a b : string) (m : UnitManager) :
  file_units_ (add_dependency a b m) = file_units_ m.
Proof.
  unfold add_dependency.
  destruct (units_ m !! a) as [f|]; [|done].
  destruct (units_ m !! b) as [t|]; [|done].
  by destruct (_ !! b).
Qed.

Lemma manager_eq (m m' : UnitManager) :
  (∀ k, units_ m !! k = units_ m' !! k) -> file_units_ m = file_units_ m' -> m = m'.
Proof.
  destruct m as [us fs], m' as [us' fs']. simpl. intros Hus ->.
  f_equal. by apply map_eq.
Qed.

(** What [remove_dependency] does to the unit stored under [k]. *)
Lemma remove_dependency_lookup (a b k : string) (m : UnitManager) :
  units_ (remove_dependency a b m) !! k
  = (fun u =>
       set_dependents
         (if decide (k = b) then erase_all a (dependents u) else dependents u)
         (set_dependencies
            (if decide (k = a) then erase_all b (dependencies u)
             else dependencies u) u))
    <$> units_ m !! k.
Proof.
  unfold remove_dependency. simpl.
  destruct (units_ m !! a) as [ua|] eqn:Ha.
  - destruct (decide (a = b)) as [<-|Hab].
    + rewrite lookup_insert_eq.
      destruct (decide (k = a)) as [->|Hka].
      * by rewrite lookup_insert_eq, Ha.
      * rewrite !lookup_insert_ne by done.
        destruct (units_ m !! k) as [u|]; [|done]. simpl. by rewrite unit_eta.
    + rewrite lookup_insert_ne by done.
      destruct (units_ m !! b) as [ub|] eqn:Hb.
      * destruct (decide (k = b)) as [->|Hkb].
        { rewrite lookup_insert_eq, Hb. simpl. by rewrite decide_False. }
        rewrite lookup_insert_ne by done.
        destruct (decide (k = a)) as [->|Hka].
        { by rewrite lookup_insert_eq, Ha. }
        rewrite lookup_insert_ne by done.
        destruct (units_ m !! k) as [u|]; [|done]. simpl. by rewrite unit_eta.
      * destruct (decide (k = a)) as [->|Hka].
        { rewrite lookup_insert_eq, Ha. simpl. by rewrite decide_False. }
        rewrite lookup_insert_ne by done.
        destruct (decide (k = b)) as [->|Hkb]; [by rewrite Hb|].
        destruct (units_ m !! k) as [u|]; [|done]. simpl. by rewrite unit_eta.
  - destruct (units_ m !! b) as [ub|] eqn:Hb.
    + destruct (decide (k = b)) as [->|Hkb].
      { rewrite lookup_insert_eq, Hb. simpl.
        rewrite decide_False by (by intros ->; rewrite Ha in Hb).
        by destruct ub. }
      rewrite lookup_insert_ne by done.
      destruct (decide (k = a)) as [->|Hka]; [by rewrite Ha|].
      destruct (units_ m !! k) as [u|]; [|done]. simpl. by rewrite unit_eta.
    + destruct (decide (k = a)) as [->|Hka]; [by rewrite Ha|].
      destruct (decide (k = b)) as [->|Hkb]; [by rewrite Hb|].
      destruct (units_ m !! k) as [u|]; [|done]. simpl. by rewrite unit_eta.
Qed.

(** X12. [add_dependency a b] on two stored units appends [b] to the
    dependencies of [a] and [a] to the dependents of [b], each unless it is
    listed already; if either unit is missing, the manager is left as it
    was.  Adding the same edge a second time changes nothing. *)
Theorem add_dependency_spec (a b : string) (m : UnitManager) :
  let m' := add_dependency a b m in
  match units_ m !! a, units_ m !! b with
  | Some _, Some _ =>
      get_dependencies a m' = push_unique b (get_dependencies a m)
      ∧ get_dependents b m' = push_unique a (get_dependents b m)
      ∧ (∀ k, k ≠ a -> get_dependencies k m' = get_dependencies k m)
      ∧ (∀ k, k ≠ b -> get_dependents k m' = get_dependents k m)
  | _, _ => m' = m
  end
  ∧ add_dependency a b m' = m'.
Proof.
  intros m'. subst m'.
  destruct (units_ m !! a) as [ua|] eqn:Ha; cycle 1.
  { rewrite !add_dependency_missing; auto. all: by left. }
  destruct (units_ m !! b) as [ub|] eqn:Hb; cycle 1.
  { rewrite !add_dependency_missing; auto. all: by right. }
  pose proof (fun k => add_dependency_lookup a b k m
                         (mk_is_Some _ _ Ha) (mk_is_Some _ _ Hb)) as Hlook.
  split.
  - unfold get_dependencies, get_dependents. split_and!.
    + rewrite Hlook, Ha. simpl. by rewrite decide_True.
    + rewrite Hlook, Hb. simpl. by rewrite decide_True.
    + intros k Hk. rewrite Hlook. destruct (units_ m !! k); [|done].
      simpl. by rewrite decide_False.
    + intros k Hk. rewrite Hlook. destruct (units_ m !! k); [|done].
      simpl. by rewrite decide_False.
  - apply manager_eq; [|by rewrite !add_dependency_file_units].
    intros k. rewrite add_dependency_lookup; cycle 1.
    { rewrite Hlook, Ha. by eexists. }
    { rewrite Hlook, Hb. by eexists. }
    rewrite Hlook. destruct (units_ m !! k) as [u|]; [|done]. simpl. f_equal.
    destruct u; simpl.
    destruct (decide (k = a)), (decide (k = b)); simpl;
      by rewrite ?push_unique_idem.
Qed.

(** X13. Removing an edge that was just added gives back the manager as it
    was, provided the edge was not listed before on either side. *)
Theorem remove_add_dependency (a b : string) (m : UnitManager)
  (ua ub : CompilationUnit) :
  units_ m !! a = Some ua -> units_ m !! b = Some ub ->
  b ∉ dependencies ua -> a ∉ dependents ub ->
  remove_dependency a b (add_dependency a b m) = m.
Proof.
  intros Ha Hb Hdep Hdpt. apply manager_eq.
  - intros k. rewrite remove_dependency_lookup, add_dependency_lookup by (by eexists).
    destruct (units_ m !! k) as [u|] eqn:Hk; [|done]. simpl. f_equal.
    assert (k = a -> erase_all b (push_unique b (dependencies u)) = dependencies u)
      as Hdeps by (intros ->; simplify_eq; by apply erase_all_push_unique).
    assert (k = b -> erase_all a (push_unique a (dependents u)) = dependents u)
      as Hdpts by (intros ->; simplify_eq; by apply erase_all_push_unique).
    destruct u; simpl in *.
    destruct (decide (k = a)), (decide (k = b)); simpl;
      by rewrite ?Hdeps, ?Hdpts.
  - unfold remove_dependency. simpl. apply add_dependency_file_units.
Qed.

Lemma remove_add_dependency_witness :
  let m := manager_run [AddUnit unit_a; AddUnit unit_b] in
  remove_dependency "a" "b" (add_dependency "a" "b" m) = m.
Proof.
  apply (remove_add_dependency "a" "b" _ unit_a unit_b).
  - reflexivity.
  - reflexivity.
  - simpl. apply not_elem_of_nil.
  - simpl. apply not_elem_of_nil.
Defined.

(** What the loop of [remove_unit] over the dependencies leaves under [k]. *)
Lemma scrub_fold_lookup (x : string) (deps : list string) : ∀ us k,
  foldl (scrub_dependent x) us deps !! k
  = (fun u => if decide (k ∈ deps)
              then set_dependents (erase_all x (dependents u)) u else u)
    <$> us !! k.
Proof.
  induction deps as [|d deps IH]; intros us k.
  - simpl. by destruct (us !! k).
  - simpl. rewrite IH. unfold scrub_dependent.
    destruct (decide (k = d)) as [->|Hkd].
    + destruct (us !! d) as [ud|] eqn:Hd; [|by rewrite Hd].
      rewrite lookup_insert_eq. simpl. f_equal.
      rewrite (decide_True (P := d ∈ d :: deps)) by set_solver.
      destruct (decide (d ∈ deps)); [|done]. simpl.
      rewrite erase_all_idem. by destruct ud.
    + assert (foldl (scrub_dependent x) us [d] !! k = us !! k) as Hsame.
      { simpl. unfold scrub_dependent. destruct (us !! d); [|done].
        by rewrite lookup_insert_ne. }
      simpl in Hsame. unfold scrub_dependent in Hsame. rewrite Hsame.
      destruct (us !! k); [|done]. simpl. f_equal.
      apply decide_ext. set_solver.
Qed.

Lemma remove_unit_lookup (x k : string) (m : UnitManager) (ux : CompilationUnit) :
  units_ m !! x = Some ux ->
  units_ (remove_unit x m) !! k
  = if decide (k = x) then None
    else (fun u => if decide (k ∈ dependencies ux)
                   then set_dependents (erase_all x (dependents u)) u else u)
         <$> units_ m !! k.
Proof.
  intros Hx. unfold remove_unit. rewrite Hx. simpl.
  destruct (decide (k = x)) as [->|Hkx]; [by rewrite lookup_delete_eq|].
  rewrite lookup_delete_ne by done. apply scrub_fold_lookup.
Qed.

Lemma add_dependency_symmetric (a b : string) (m : UnitManager) :
  edge_symmetric m -> edge_symmetric (add_dependency a b m).
Proof.
  intros Hsym.
  destruct (units_ m !! a) as [ua|] eqn:Ha;
    [|by rewrite add_dependency_missing by (by left)].
  destruct (units_ m !! b) as [ub|] eqn:Hb;
    [|by rewrite add_dependency_missing by (by right)].
  intros x y ux uy.
  rewrite !add_dependency_lookup by (by eexists).
  destruct (units_ m !! x) as [ux0|] eqn:Hx; [|done].
  destruct (units_ m !! y) as [uy0|] eqn:Hy; [|done].
  intros [= <-] [= <-]. simpl.
  pose proof (Hsym x y ux0 uy0 Hx Hy) as Hxy.
  destruct (decide (y = a)), (decide (x = b));
    rewrite ?elem_of_push_unique; naive_solver.
Qed.

Lemma remove_dependency_symmetric (a b : string) (m : UnitManager) :
  edge_symmetric m -> edge_symmetric (remove_dependency a b m).
Proof.
  intros Hsym x y ux uy.
  rewrite !remove_dependency_lookup.
  destruct (units_ m !! x) as [ux0|] eqn:Hx; [|done].
  destruct (units_ m !! y) as [uy0|] eqn:Hy; [|done].
  intros [= <-] [= <-]. simpl.
  pose proof (Hsym x y ux0 uy0 Hx Hy) as Hxy.
  destruct (decide (y = a)), (decide (x = b));
    rewrite ?elem_of_erase_all; naive_solver.
Qed.

Lemma remove_unit_symmetric (r : string) (m : UnitManager) :
  edge_symmetric m -> edge_symmetric (remove_unit r m).
Proof.
  intros Hsym.
  destruct (units_ m !! r) as [ur|] eqn:Hr;
    [|by unfold remove_unit; rewrite Hr].
  intros x y ux uy.
  rewrite !(remove_unit_lookup r _ m ur) by done.
  destruct (decide (x = r)); [done|]. destruct (decide (y = r)); [done|].
  destruct (units_ m !! x) as [ux0|] eqn:Hx; [|done].
  destruct (units_ m !! y) as [uy0|] eqn:Hy; [|done].
  intros [= <-] [= <-].
  pose proof (Hsym x y ux0 uy0 Hx Hy) as Hxy.
  destruct (decide (y ∈ dependencies ur)), (decide (x ∈ dependencies ur));
    simpl; rewrite ?elem_of_erase_all; naive_solver.
Qed.

Lemma empty_manager_lookup (k : string) : units_ empty_manager !! k = None.
Proof. apply lookup_empty. Qed.

Lemma empty_manager_symmetric : edge_symmetric empty_manager.
Proof. intros x y ux uy Hx. by rewrite empty_manager_lookup in Hx. Qed.

Lemma add_fresh_unit_symmetric (u : CompilationUnit) (m : UnitManager) :
  edge_symmetric m ->
  dependencies u = [] -> dependents u = [] ->
  (∀ k v, units_ m !! k = Some v ->
          (id u ∉ dependencies v) ∧ (id u ∉ dependents v)) ->
  edge_symmetric (add_unit u m).
Proof.
  intros Hsym Hdeps Hdpts Hfresh x y ux uy. unfold add_unit. simpl.
  destruct (decide (x = id u)) as [->|Hx], (decide (y = id u)) as [->|Hy];
    rewrite ?lookup_insert_eq, ?lookup_insert_ne by done.
  - intros [= <-] [= <-]. rewrite Hdeps, Hdpts. set_solver.
  - intros [= <-] Hy'. rewrite Hdpts. destruct (Hfresh _ _ Hy'). set_solver.
  - intros Hx' [= <-]. rewrite Hdeps. destruct (Hfresh _ _ Hx'). set_solver.
  - apply Hsym.
Qed.

(** X14. If the stored edges are symmetric (a stored unit [x] is among the
    dependencies of a stored unit [y] exactly when [y] is among the
    dependents of [x]), they still are after [add_dependency],
    [remove_dependency] and [remove_unit]. *)
Theorem edge_symmetric_preserved (m : UnitManager) (a b : string) :
  edge_symmetric m ->
  edge_symmetric (add_dependency a b m)
  ∧ edge_symmetric (remove_dependency a b m)
  ∧ edge_symmetric (remove_unit a m).
Proof.
  intros Hsym. split_and!.
  - by apply add_dependency_symmetric.
  - by apply remove_dependency_symmetric.
  - by apply remove_unit_symmetric.
Qed.

Lemma edge_symmetric_preserved_witness :
  let m := manager_run [AddUnit unit_a; AddUnit unit_b; AddDependency "a" "b"] in
  edge_symmetric (add_dependency "a" "b" m)
  ∧ edge_symmetric (remove_dependency "a" "b" m)
  ∧ edge_symmetric (remove_unit "a" m).
Proof.
  apply (edge_symmetric_preserved _ "a" "b").
  apply add_dependency_symmetric.
  apply add_fresh_unit_symmetric; [|done..|].
  - apply add_fresh_unit_symmetric; [apply empty_manager_symmetric|done..|].
    intros k v Hk. by rewrite empty_manager_lookup in Hk.
  - intros k v Hk. unfold manager_step, add_unit in Hk. simpl in Hk.
    apply lookup_insert_Some in Hk as [[<- <-]|[_ Hk]].
    + simpl. split; apply not_elem_of_nil.
    + by rewrite lookup_empty in Hk.
Defined.

Lemma add_dependency_closed (a b : string) (m : UnitManager) :
  edges_closed m -> edges_closed (add_dependency a b m).
Proof.
  intros Hclosed.
  destruct (units_ m !! a) as [ua|] eqn:Ha;
    [|by rewrite add_dependency_missing by (by left)].
  destruct (units_ m !! b) as [ub|] eqn:Hb;
    [|by rewrite add_dependency_missing by (by right)].
  intros k u x. rewrite !add_dependency_lookup by (by eexists).
  destruct (units_ m !! k) as [u0|] eqn:Hk; [|done].
  intros [= <-]. simpl. intros Hx.
  assert (x = a ∨ x = b ∨ is_Some (units_ m !! x)) as [->|[->|Hs]].
  { destruct (decide (k = a)), (decide (k = b));
      rewrite ?elem_of_push_unique in Hx;
      destruct Hx as [Hx|Hx]; naive_solver. }
  - rewrite Ha. by eexists.
  - rewrite Hb. by eexists.
  - destruct Hs as [ux ->]. by eexists.
Qed.

Lemma remove_dependency_closed (a b : string) (m : UnitManager) :
  edges_closed m -> edges_closed (remove_dependency a b m).
Proof.
  intros Hclosed k u x. rewrite !remove_dependency_lookup.
  destruct (units_ m !! k) as [u0|] eqn:Hk; [|done].
  intros [= <-]. simpl. intros Hx.
  assert (is_Some (units_ m !! x)) as [ux ->]; [|by eexists].
  apply (Hclosed k u0 x Hk).
  destruct (decide (k = a)), (decide (k = b));
    rewrite ?elem_of_erase_all in Hx; naive_solver.
Qed.

Lemma add_fresh_unit_closed (u : CompilationUnit) (m : UnitManager) :
  edges_closed m -> dependencies u = [] -> dependents u = [] ->
  edges_closed (add_unit u m).
Proof.
  intros Hclosed Hdeps Hdpts k v x. unfold add_unit. simpl.
  intros Hk Hx.
  apply lookup_insert_Some in Hk as [[<- <-]|[Hne Hk]].
  - rewrite Hdeps, Hdpts in Hx. set_solver.
  - destruct (Hclosed k v x Hk Hx) as [ux Hux].
    destruct (decide (id u = x)) as [->|Hne'].
    + rewrite lookup_insert_eq. by eexists.
    + rewrite lookup_insert_ne by done. by eexists.
Qed.

Lemma clean_step (m : UnitManager) (op : manager_op) :
  registers_cleanly m op -> edge_symmetric m ∧ edges_closed m ->
  edge_symmetric (manager_step m op) ∧ edges_closed (manager_step m op).
Proof.
  intros Hop [Hsym Hclosed]. destruct op as [u|a b|a b|x]; simpl in *.
  - destruct Hop as (Hfresh & Hdeps & Hdpts). split.
    + apply add_fresh_unit_symmetric; [done..|].
      intros k v Hk. split; intros Hin.
      * destruct (Hclosed k v (id u) Hk) as [? Hs]; [by left|]. by rewrite Hfresh in Hs.
      * destruct (Hclosed k v (id u) Hk) as [? Hs]; [by right|]. by rewrite Hfresh in Hs.
    + by apply add_fresh_unit_closed.
  - split; [by apply add_dependency_symmetric|by apply add_dependency_closed].
  - split; [by apply remove_dependency_symmetric|by apply remove_dependency_closed].
  - done.
Qed.

(** X15. As long as every unit is registered once and without edges, and
    no unit is removed, the graph that [add_dependency] and
    [remove_dependency] build is consistent: [y] lists [x] as a dependency
    exactly when [x] lists [y] as a dependent, and every listed id names a
    stored unit. *)
Theorem clean_run_consistent (ops : list manager_op) :
  clean_run empty_manager ops ->
  edge_symmetric (manager_run ops) ∧ edges_closed (manager_run ops).
Proof.
  unfold manager_run.
  assert (edge_symmetric empty_manager ∧ edges_closed empty_manager) as Hinit.
  { split; [apply empty_manager_symmetric|].
    intros k u x Hk. by rewrite empty_manager_lookup in Hk. }
  revert Hinit. generalize empty_manager.
  induction ops as [|op ops IH]; intros m Hinv Hrun; [done|].
  destruct Hrun as [Hop Hrest]. simpl. apply IH; [|done].
  by apply clean_step.
Qed.

Lemma clean_run_consistent_witness :
  let m := manager_run [AddUnit unit_a; AddUnit unit_b; AddDependency "a" "b";
                        AddDependency "b" "a"; RemoveDependency "a" "b"] in
  edge_symmetric m ∧ edges_closed m.
Proof.
  apply (clean_run_consistent [AddUnit unit_a; AddUnit unit_b; AddDependency "a" "b";
                               AddDependency "b" "a"; RemoveDependency "a" "b"]).
  simpl. split_and!; done.
Defined.

(** ** UnitManager: the units of a file *)

Lemma insert_by_start_perm (us : gmap string CompilationUnit) (k : string)
  (l : list string) : insert_by_start us k l ≡ₚ k :: l.
Proof.
  induction l as [|k' l IH]; simpl; [done|].
  case_match; [done|]. rewrite IH. apply perm_swap.
Qed.

Lemma sort_by_start_perm (us : gmap string CompilationUnit) (l : list string) :
  sort_by_start us l ≡ₚ l.
Proof.
  unfold sort_by_start.
  assert (∀ acc, foldl (fun acc k => insert_by_start us k acc) acc l
                 ≡ₚ (acc ++ l)%list) as Hgen; [|apply (Hgen [])].
  induction l as [|k l IH]; intros acc; simpl; [by rewrite app_nil_r|].
  rewrite IH, insert_by_start_perm. apply Permutation_middle.
Qed.

Section SortedByStart.

Variable us : gmap string CompilationUnit.

Local Abbreviation start_of k := (default 0 (start_line <$> us !! k)).
Local Abbreviation le_start := (fun k k' : string => start_of k <= start_of k').

Lemma insert_by_start_sorted (k : string) (l : list string) :
  StronglySorted le_start l -> StronglySorted le_start (insert_by_start us k l).
Proof.
  induction l as [|k' l IH]; intros Hsorted; simpl.
  { constructor; constructor. }
  apply StronglySorted_cons in Hsorted as [Hall Hsorted].
  destruct (start_of k <? start_of k') eqn:Hlt.
  - apply Z.ltb_lt in Hlt. constructor.
    + by constructor.
    + constructor; [lia|]. eapply Forall_impl; [exact Hall|].
      intros z Hz. simpl in *. lia.
  - apply Z.ltb_ge in Hlt. constructor; [by apply IH|].
    rewrite insert_by_start_perm. by constructor.
Qed.

Lemma sort_by_start_sorted (l : list string) :
  StronglySorted le_start (sort_by_start us l).
Proof.
  unfold sort_by_start.
  assert (∀ acc, StronglySorted le_start acc ->
                 StronglySorted le_start
                   (foldl (fun acc k => insert_by_start us k acc) acc l)) as Hgen;
    [|apply Hgen; constructor].
  induction l as [|k l IH]; intros acc Hacc; simpl; [done|].
  by apply IH, insert_by_start_sorted.
Qed.

End SortedByStart.

Lemma StronglySorted_weaken {A : Type} (R R' : relation A) (l : list A) :
  (∀ x y, R x y -> R' x y) -> StronglySorted R l -> StronglySorted R' l.
Proof.
  intros Himp. induction 1 as [|x l Hs IH Hall]; constructor; [done|].
  eapply Forall_impl; [exact Hall|]. intros y. apply Himp.
Qed.

Lemma StronglySorted_sublist {A : Type} (R : relation A) (l' l : list A) :
  l' `sublist_of` l -> StronglySorted R l -> StronglySorted R l'.
Proof.
  induction 1 as [|x l1 l2 Hsub IH|x l1 l2 Hsub IH]; intros Hs; [done|..].
  - apply StronglySorted_cons in Hs as [Hall Hs]. constructor; [by apply IH|].
    rewrite Forall_forall in *. intros y Hy. apply Hall.
    by eapply elem_of_sublist.
  - apply StronglySorted_cons in Hs as [_ Hs]. by apply IH.
Qed.

Lemma get_units_by_file_perm (path : string) (m : UnitManager) :
  get_units_by_file path m ≡ₚ indexed_units path m.
Proof.
  unfold get_units_by_file, indexed_units. rewrite sort_by_start_perm.
  rewrite lookup_total_alt. by destruct (file_units_ m !! path).
Qed.

Lemma get_units_by_file_sorted (path : string) (m : UnitManager) :
  StronglySorted (starts_before m) (get_units_by_file path m).
Proof.
  unfold get_units_by_file.
  eapply StronglySorted_weaken; [|apply sort_by_start_sorted].
  intros k k' Hle u u' Hu Hu'. simpl in Hle. by rewrite Hu, Hu' in Hle.
Qed.

(** X16. [get_units_by_file] returns the ids of the file's index that name
    a stored unit, each as often as the index lists it, ordered by
    [start_line]; for a path without index it returns nothing. *)
Theorem get_units_by_file_sorted_index (path : string) (m : UnitManager) :
  get_units_by_file path m ≡ₚ indexed_units path m
  ∧ StronglySorted (starts_before m) (get_units_by_file path m)
  ∧ (∀ k, k ∈ get_units_by_file path m -> is_Some (units_ m !! k))
  ∧ (file_units_ m !! path = None -> get_units_by_file path m = []).
Proof.
  split_and!.
  - apply get_units_by_file_perm.
  - apply get_units_by_file_sorted.
  - intros k. rewrite get_units_by_file_perm. unfold indexed_units.
    rewrite list_elem_of_filter. tauto.
  - intros Hnone. unfold get_units_by_file. by rewrite Hnone.
Qed.

(** X17. [get_units_in_range] returns, still ordered by [start_line], the
    units of the file whose line range meets the lines [s] to [e]: those
    that start at or before [e] and end at or after [s]. *)
Theorem get_units_in_range_spec (path : string) (s e : Z) (m : UnitManager) :
  (∀ k, k ∈ get_units_in_range path s e m ↔
        k ∈ indexed_units path m
        ∧ ∃ u, units_ m !! k = Some u ∧ start_line u <= e ∧ s <= end_line u)
  ∧ StronglySorted (starts_before m) (get_units_in_range path s e m)
  ∧ get_units_in_range path s e m `sublist_of` get_units_by_file path m.
Proof.
  assert (get_units_in_range path s e m `sublist_of` get_units_by_file path m)
    as Hsub.
  { unfold get_units_in_range. generalize (get_units_by_file path m).
    intros l. induction l as [|k l IH]; simpl; [done|].
    case_match; [by apply sublist_skip|by apply sublist_cons]. }
  split_and!;
    [|by eapply StronglySorted_sublist; [|apply get_units_by_file_sorted]|done].
  intros k. unfold get_units_in_range.
  rewrite list_elem_of_In, filter_In, <- list_elem_of_In, get_units_by_file_perm.
  unfold overlaps. split.
  - intros [Hin Hov]. split; [done|].
    destruct (units_ m !! k) as [u|]; [|done].
    exists u. apply andb_true_iff in Hov as [?%Z.leb_le ?%Z.leb_le]. done.
  - intros [Hin (u & Hu & Hs & He)]. split; [done|]. rewrite Hu.
    apply andb_true_iff. split; by apply Z.leb_le.
Qed.

(** ** UnitManager: what [remove_unit] leaves behind *)

Lemma get_affected_units_elem (m : UnitManager) (x y : string) :
  y ∈ get_affected_units m x ↔ reachable m x y ∧ y ≠ x.
Proof.
  destruct (collect_from_start_total m x) as [visited Hrun].
  unfold get_affected_units, get_affected_set. rewrite Hrun.
  rewrite elem_of_elements, elem_of_difference, not_elem_of_singleton.
  by rewrite (collect_from_empty m _ _ _ Hrun).
Qed.

(** X18. After [remove_unit x] of a stored unit in a manager with
    symmetric edges, [x] is gone from everything that is looked up by
    dependents or by file: it is not stored, no stored unit lists it as a
    dependent, no file lists it, and no change of another unit affects it.
    Removing an id that is not stored changes nothing. *)
Theorem remove_unit_forgets (x : string) (m : UnitManager) :
  edge_symmetric m -> is_Some (units_ m !! x) ->
  let m' := remove_unit x m in
  units_ m' !! x = None
  ∧ (∀ y uy, units_ m' !! y = Some uy -> x ∉ dependents uy)
  ∧ (∀ path, x ∉ get_units_by_file path m')
  ∧ (∀ y, y ≠ x -> x ∉ get_affected_units m' y)
  ∧ (∀ z, units_ m !! z = None -> remove_unit z m = m).
Proof.
  intros Hsym [ux Hx] m'. subst m'.
  assert (units_ (remove_unit x m) !! x = None) as Hgone.
  { rewrite (remove_unit_lookup x x m ux) by done. by rewrite decide_True. }
  assert (∀ y uy, units_ (remove_unit x m) !! y = Some uy -> x ∉ dependents uy)
    as Hclean.
  { intros y uy. rewrite (remove_unit_lookup x y m ux) by done.
    destruct (decide (y = x)); [done|].
    destruct (units_ m !! y) as [uy0|] eqn:Hy; [|done]. intros [= <-].
    destruct (decide (y ∈ dependencies ux)) as [Hin|Hnotin]; simpl.
    - rewrite elem_of_erase_all. tauto.
    - intros Hdpt. apply Hnotin. by apply (Hsym y x uy0 ux). }
  split_and!; [done|done|..].
  - intros path Hin. rewrite get_units_by_file_perm in Hin.
    apply list_elem_of_filter in Hin as [[u Hu] _]. by rewrite Hgone in Hu.
  - intros y Hne [Hreach _]%get_affected_units_elem.
    apply rtc_inv_r in Hreach as [->|(z & _ & uz & Hz & Hin)]; [done|].
    by apply (Hclean z uz).
  - intros z Hz. unfold remove_unit. by rewrite Hz.
Qed.

Lemma remove_unit_forgets_witness :
  let m := manager_run [AddUnit unit_a; AddUnit unit_b; AddDependency "a" "b"] in
  let m' := remove_unit "a" m in
  units_ m' !! "a" = None
  ∧ (∀ y uy, units_ m' !! y = Some uy -> "a" ∉ dependents uy)
  ∧ (∀ path, "a" ∉ get_units_by_file path m')
  ∧ (∀ y, y ≠ "a" -> "a" ∉ get_affected_units m' y)
  ∧ (∀ z, units_ m !! z = None -> remove_unit z m = m).
Proof.
  apply (remove_unit_forgets "a").
  - apply add_dependency_symmetric.
    apply add_fresh_unit_symmetric; [|done..|].
    + apply add_fresh_unit_symmetric; [apply empty_manager_symmetric|done..|].
      intros k v Hk. by rewrite empty_manager_lookup in Hk.
    + intros k v Hk. unfold manager_step, add_unit in Hk. simpl in Hk.
      apply lookup_insert_Some in Hk as [[<- <-]|[_ Hk]].
      * simpl. split; apply not_elem_of_nil.
      * by rewrite lookup_empty in Hk.
  - by eexists.
Defined.

(** ** IncrementalEngine: [register_units] *)

Lemma remove_unit_file_units (x : string) (m : UnitManager) (ux : CompilationUnit) :
  units_ m !! x = Some ux ->
  file_units_ (remove_unit x m)
  = <[file_path ux := erase_all x (file_units_ m !!! file_path ux)]> (file_units_ m).
Proof. intros Hx. unfold remove_unit. by rewrite Hx. Qed.

Lemma remove_unit_others (x k : string) (m : UnitManager) (ux : CompilationUnit) :
  units_ m !! x = Some ux -> k ≠ x ->
  without_dependents <$> units_ (remove_unit x m) !! k
  = without_dependents <$> units_ m !! k.
Proof.
  intros Hx Hne. rewrite (remove_unit_lookup x k m ux), decide_False by done.
  destruct (units_ m !! k) as [u|]; [|done]. simpl. f_equal.
  destruct (decide _); [|done]. by destruct u.
Qed.

Lemma without_dependents_some (o o' : option CompilationUnit) (u : CompilationUnit) :
  without_dependents <$> o' = without_dependents <$> o -> o = Some u ->
  ∃ u', o' = Some u' ∧ id u' = id u ∧ file_path u' = file_path u
        ∧ start_line u' = start_line u.
Proof.
  intros Heq ->. destruct o' as [u'|]; [|done]. injection Heq as Heq.
  exists u'. split; [done|]. destruct u, u'.
  unfold without_dependents, set_dependents in Heq. by simplify_eq/=.
Qed.

Lemma remove_unit_keys (x : string) (m : UnitManager) :
  keys_are_ids m -> keys_are_ids (remove_unit x m).
Proof.
  intros Hkeys. destruct (units_ m !! x) as [ux|] eqn:Hx;
    [|by unfold remove_unit; rewrite Hx].
  intros k u. rewrite (remove_unit_lookup x k m ux) by done.
  destruct (decide (k = x)); [done|].
  destruct (units_ m !! k) as [u0|] eqn:Hk; [|done]. intros [= <-].
  rewrite <- (Hkeys k u0 Hk). by destruct (decide _).
Qed.

Lemma remove_old_none (l : list string) : foldl remove_old None l = None.
Proof. by induction l. Qed.

(** A pointer to a unit that is gone is never repaired by later rounds. *)
Lemma remove_old_dangling (l : list string) : ∀ m k,
  keys_are_ids m -> units_ m !! k = None -> k ∈ l ->
  foldl remove_old (Some m) l = None.
Proof.
  induction l as [|k' l IH]; intros m k Hkeys Hk Hin.
  { by apply elem_of_nil in Hin. }
  simpl. destruct (units_ m !! k') as [u|] eqn:Hk'; [|apply remove_old_none].
  rewrite (Hkeys k' u Hk').
  apply elem_of_cons in Hin as [->|Hin]; [by rewrite Hk in Hk'|].
  apply (IH _ k); [by apply remove_unit_keys| |done].
  rewrite (remove_unit_lookup k' k m u) by done.
  destruct (decide (k = k')); [done|]. by rewrite Hk.
Qed.

Lemma remove_old_duplicate (l : list string) : ∀ m,
  keys_are_ids m -> ¬ NoDup l -> foldl remove_old (Some m) l = None.
Proof.
  induction l as [|k l IH]; intros m Hkeys Hdup.
  { destruct Hdup. constructor. }
  simpl. destruct (units_ m !! k) as [u|] eqn:Hk; [|apply remove_old_none].
  rewrite (Hkeys k u Hk).
  destruct (decide (k ∈ l)) as [Hin|Hnotin].
  - apply (remove_old_dangling l _ k); [by apply remove_unit_keys| |done].
    rewrite (remove_unit_lookup k k m u) by done. by rewrite decide_True.
  - apply IH; [by apply remove_unit_keys|].
    intros Hnodup. apply Hdup. by constructor.
Qed.

(** The loop over [old_units], when they are distinct units of [path]. *)
Lemma remove_old_all (path : string) (l : list string) : ∀ m,
  keys_are_ids m -> NoDup l ->
  (∀ k, k ∈ l -> ∃ u, units_ m !! k = Some u ∧ file_path u = path) ->
  ∃ m1, foldl remove_old (Some m) l = Some m1
        ∧ keys_are_ids m1
        ∧ (∀ x, x ∈ file_units_ m1 !!! path ->
                x ∈ file_units_ m !!! path ∧ x ∉ l).
Proof.
  induction l as [|k l IH]; intros m Hkeys Hnodup Hall.
  { exists m. split_and!; [done..|]. intros x Hx. split; [done|apply not_elem_of_nil]. }
  apply NoDup_cons in Hnodup as [Hnotin Hnodup].
  destruct (Hall k) as (u & Hk & Hpath); [by left|].
  simpl. rewrite Hk, (Hkeys k u Hk).
  destruct (IH (remove_unit k m)) as (m1 & Hrun & Hkeys1 & Hidx);
    [by apply remove_unit_keys|done| |].
  - intros j Hj. destruct (Hall j) as (uj & Huj & Hpj); [by right|].
    assert (j ≠ k) as Hne by (by intros ->).
    destruct (without_dependents_some _ _ uj (remove_unit_others k j m u Hk Hne) Huj)
      as (uj' & Huj' & _ & Hp' & _).
    exists uj'. split; [done|congruence].
  - exists m1. split_and!; [done..|].
    intros x Hx. apply Hidx in Hx as [Hx Hxl].
    rewrite (remove_unit_file_units k m u Hk), Hpath, lookup_total_insert_eq in Hx.
    apply elem_of_erase_all in Hx as [Hx Hne].
    split; [done|]. rewrite not_elem_of_cons. done.
Qed.

Lemma add_units_lookup_other (us : list CompilationUnit) : ∀ m k,
  k ∉ map id us ->
  units_ (foldl (fun m unit => add_unit unit m) m us) !! k = units_ m !! k.
Proof.
  induction us as [|v us IH]; intros m k Hk; [done|].
  simpl in *. apply not_elem_of_cons in Hk as [Hne Hk].
  rewrite IH by done. unfold add_unit. simpl. by rewrite lookup_insert_ne.
Qed.

Lemma add_units_lookup (us : list CompilationUnit) : ∀ m u,
  NoDup (map id us) -> u ∈ us ->
  units_ (foldl (fun m unit => add_unit unit m) m us) !! id u = Some u.
Proof.
  induction us as [|v us IH]; intros m u Hnodup Hin.
  { by apply elem_of_nil in Hin. }
  simpl in *. apply NoDup_cons in Hnodup as [Hnotin Hnodup].
  apply elem_of_cons in Hin as [->|Hin]; [|by apply IH].
  rewrite add_units_lookup_other by done.
  unfold add_unit. simpl. by rewrite lookup_insert_eq.
Qed.

Lemma add_units_keys (us : list CompilationUnit) : ∀ m,
  keys_are_ids m -> keys_are_ids (foldl (fun m unit => add_unit unit m) m us).
Proof.
  induction us as [|v us IH]; intros m Hkeys; [done|].
  simpl. apply IH. intros k u. unfold add_unit. simpl.
  intros [[<- <-]|[_ Hk]]%lookup_insert_Some; [done|by apply Hkeys].
Qed.

Lemma add_units_index (path : string) (us : list CompilationUnit) : ∀ m,
  Forall (fun u => file_path u = path) us ->
  file_units_ (foldl (fun m unit => add_unit unit m) m us) !!! path
  = (file_units_ m !!! path ++ map id us)%list.
Proof.
  induction us as [|v us IH]; intros m Hall.
  { simpl. by rewrite app_nil_r. }
  apply Forall_cons in Hall as [Hv Hall].
  simpl. rewrite IH by done. unfold add_unit. simpl.
  by rewrite Hv, lookup_total_insert_eq, <- app_assoc.
Qed.

Lemma filter_all_in {A : Type} (P : A -> Prop) `{∀ x, Decision (P x)} (l : list A) :
  (∀ x, x ∈ l -> P x) -> filter P l = l.
Proof.
  induction l as [|x l IH]; intros Hall; [done|].
  rewrite filter_cons, decide_True by (apply Hall; by left).
  f_equal. apply IH. intros y Hy. apply Hall. by right.
Qed.

Lemma indexed_units_exact (path : string) (m : UnitManager) :
  index_exact path m -> indexed_units path m = file_units_ m !!! path.
Proof.
  intros [_ Hstored]. apply filter_all_in.
  intros k Hk. destruct (Hstored k Hk) as (u & Hu & _). by eexists.
Qed.

(** X19. On a manager that stores every unit under its own id and whose
    index of [path] lists each unit of the file once, [register_units]
    replaces the units of the file: afterwards the file holds exactly the
    new units (given with distinct ids and this path), each retrievable by
    its id, and both conditions hold again.  The cache, the snapshots and
    the list of units to compile are not touched. *)
Theorem register_units_replaces (path : string) (units : list CompilationUnit)
  (e : IncrementalEngine) :
  keys_are_ids (eng_units_ e) -> index_exact path (eng_units_ e) ->
  Forall (fun u => file_path u = path) units -> NoDup (map id units) ->
  ∃ e', register_units path units e = Some e'
        ∧ get_units_by_file path (eng_units_ e') ≡ₚ map id units
        ∧ (∀ u, u ∈ units -> get_unit (id u) (eng_units_ e') = Some u)
        ∧ keys_are_ids (eng_units_ e') ∧ index_exact path (eng_units_ e')
        ∧ eng_cache_ e' = eng_cache_ e ∧ snapshots_ e' = snapshots_ e
        ∧ units_to_compile_ e' = units_to_compile_ e.
Proof.
  intros Hkeys Hexact Hpath Hnodup. unfold register_units.
  pose proof (get_units_by_file_perm path (eng_units_ e)) as Hperm.
  rewrite (indexed_units_exact _ _ Hexact) in Hperm.
  destruct Hexact as [Hidx_nodup Hidx_stored].
  destruct (remove_old_all path (get_units_by_file path (eng_units_ e)) (eng_units_ e))
    as (m1 & -> & Hkeys1 & Hidx1); [done|by rewrite Hperm| |].
  { intros k Hk. apply Hidx_stored. by rewrite <- Hperm. }
  assert (file_units_ m1 !!! path = []) as Hempty.
  { apply elem_of_nil_inv. intros x Hx. apply Hidx1 in Hx as [Hx Hn].
    apply Hn. by rewrite Hperm. }
  eexists. split; [done|]. simpl.
  set (m2 := foldl (fun m unit => add_unit unit m) m1 units).
  assert (file_units_ m2 !!! path = map id units) as Hidx2.
  { unfold m2. by rewrite add_units_index, Hempty. }
  assert (∀ u, u ∈ units -> units_ m2 !! id u = Some u) as Hlook
    by (intros u Hu; by apply add_units_lookup).
  assert (index_exact path m2) as Hexact2.
  { split; rewrite Hidx2; [done|]. intros k Hk.
    apply list_elem_of_fmap in Hk as (u & -> & Hu). exists u.
    split; [by apply Hlook|]. by eapply Forall_forall in Hpath. }
  split_and!; try done.
  - by rewrite get_units_by_file_perm, (indexed_units_exact _ _ Hexact2), Hidx2.
  - by apply add_units_keys.
Qed.

Lemma register_units_replaces_witness :
  ∃ e', register_units "f.py" [unit_b] (engine_of (add_unit unit_a empty_manager))
        = Some e'
        ∧ get_units_by_file "f.py" (eng_units_ e') ≡ₚ ["b"]
        ∧ (∀ u, u ∈ [unit_b] -> get_unit (id u) (eng_units_ e') = Some u)
        ∧ keys_are_ids (eng_units_ e') ∧ index_exact "f.py" (eng_units_ e')
        ∧ eng_cache_ e' = CompilationCache.create ".cache" ∧ snapshots_ e' = ∅
        ∧ units_to_compile_ e' = [].
Proof.
  apply (register_units_replaces "f.py" [unit_b]
           (engine_of (add_unit unit_a empty_manager))).
  - intros k u Hk. unfold engine_of, add_unit in Hk. simpl in Hk.
    apply lookup_insert_Some in Hk as [[<- <-]|[_ Hk]]; [done|].
    by rewrite lookup_empty in Hk.
  - assert (file_units_ (eng_units_ (engine_of (add_unit unit_a empty_manager)))
            !!! ("f.py" : string) = ["a"]) as Hidx by (by vm_compute).
    split; rewrite Hidx.
    + apply NoDup_singleton.
    + intros k ->%list_elem_of_singleton. by exists unit_a.
  - by repeat constructor.
  - apply NoDup_singleton.
Defined.

(** X20. If the index of [path] lists a stored unit twice, as it does once
    [add_unit] has been called twice with one id, [register_units] reads
    the id of a unit it has already erased: the second pointer to the unit
    dangles, and the behaviour is undefined. *)
Theorem register_units_dangling (path : string) (units : list CompilationUnit)
  (e : IncrementalEngine) :
  keys_are_ids (eng_units_ e) ->
  ¬ NoDup (get_units_by_file path (eng_units_ e)) ->
  register_units path units e = None.
Proof.
  intros Hkeys Hdup. unfold register_units.
  by rewrite remove_old_duplicate.
Qed.

Lemma register_units_dangling_witness :
  register_units "f.py" []
    (engine_of (add_unit unit_a (add_unit unit_a empty_manager))) = None.
Proof.
  apply register_units_dangling.
  - intros k u Hk. unfold engine_of, add_unit in Hk. simpl in Hk.
    rewrite insert_insert_eq in Hk.
    apply lookup_insert_Some in Hk as [[<- <-]|[_ Hk]]; [done|].
    by rewrite lookup_empty in Hk.
  - assert (get_units_by_file "f.py"
              (eng_units_ (engine_of (add_unit unit_a (add_unit unit_a empty_manager))))
            = ["a"; "a"]) as -> by (by vm_compute).
    intros [Hnotin _]%NoDup_cons. apply Hnotin. by left.
Defined.

(** ** IncrementalEngine: updates *)

Lemma changed_lines_same (old_snap new_snap : Snapshot) :
  line_hashes old_snap = line_hashes new_snap ->
  get_changed_lines old_snap new_snap = [].
Proof.
  intros Hsame. unfold get_changed_lines, compute_lcs. rewrite Hsame. cbv zeta.
  rewrite map_rev, backtrace_same, rev_involutive.
  rewrite filter_all_out; [done|].
  intros x Hx Hout. apply Hout. by apply elem_of_list_to_set.
Qed.

(** X21. An update whose content has, line by line, the hashes of the
    stored snapshot (the same text, or one that differs in blanks at line
    ends, in indentation or in a final newline) reports no change, leaves
    every unit and the cache as they are, and empties the list of units to
    compile, whatever was pending. *)
Theorem update_source_unchanged (abi : char_abi) (now : Z)
  (path new_content : string) (e : IncrementalEngine) (old_snap : Snapshot) :
  snapshots_ e !! path = Some old_snap ->
  line_hashes old_snap = map (compute_line_hash abi) (split_lines new_content) ->
  let r := update_source abi now path new_content e in
  r.1 = [] ∧ units_to_compile_ r.2 = [] ∧ eng_units_ r.2 = eng_units_ e
  ∧ eng_cache_ r.2 = eng_cache_ e.
Proof.
  intros Hsnap Hsame r. subst r. unfold update_source. rewrite Hsnap. cbv zeta.
  unfold affected_after. rewrite changed_lines_same by done.
  cbn [foldl snd fst]. rewrite elements_empty.
  unfold expand_to_boundaries. cbn [foldl snd fst list_to_set].
  rewrite elements_empty. done.
Qed.

Lemma update_source_unchanged_witness :
  let e := (update_source SignedChar 1 "a.py" ("x = 1" ++ nl ++ "y = 2")
              (engine_of (add_unit (fresh_unit "a1" "a.py" 1 1 STATEMENT)
                            empty_manager))).2 in
  let r := update_source SignedChar 2 "a.py" ("  x = 1 " ++ nl ++ "y = 2" ++ nl) e in
  r.1 = [] ∧ units_to_compile_ r.2 = [] ∧ eng_units_ r.2 = eng_units_ e
  ∧ eng_cache_ r.2 = eng_cache_ e.
Proof.
  eapply update_source_unchanged.
  - unfold update_source. simpl. apply lookup_insert_eq.
  - vm_compute. reflexivity.
Defined.

(** ** IncrementalEngine: the affected set of an update *)

Lemma same_shape_refl (m : UnitManager) : same_shape m m.
Proof. by split. Qed.

Lemma same_shape_trans (m1 m2 m3 : UnitManager) :
  same_shape m1 m2 -> same_shape m2 m3 -> same_shape m1 m3.
Proof.
  intros [Hf Hu] [Hf' Hu']. split; [congruence|].
  intros k. by rewrite Hu, Hu'.
Qed.

Lemma mark_same_shape (s : UnitState) (k : string) (m : UnitManager) :
  same_shape m (mark s k m).
Proof.
  unfold mark. destruct (units_ m !! k) as [u|] eqn:Hk; [|apply same_shape_refl].
  split; [done|]. intros j. simpl.
  destruct (decide (j = k)) as [->|Hne].
  - rewrite lookup_insert_eq, Hk. simpl. by destruct u.
  - by rewrite lookup_insert_ne.
Qed.

Lemma shape_fields (u u' : CompilationUnit) :
  shape u = shape u' ->
  id u = id u' ∧ start_line u = start_line u' ∧ end_line u = end_line u'
  ∧ type u = type u' ∧ dependents u = dependents u'.
Proof.
  destruct u, u'. unfold shape, set_cache_valid, set_state. simpl.
  intros [= -> -> -> -> -> -> -> -> -> -> ->]. done.
Qed.

Lemma fmap_shape_some (u u' : CompilationUnit) :
  shape <$> Some u = shape <$> Some u' -> shape u = shape u'.
Proof. intros Heq. exact (f_equal (default (shape u)) Heq). Qed.

Lemma same_shape_lookup (m m' : UnitManager) (k : string) (u : CompilationUnit) :
  same_shape m m' -> units_ m !! k = Some u ->
  ∃ u', units_ m' !! k = Some u' ∧ shape u = shape u'.
Proof.
  intros [_ Hu] Hk. specialize (Hu k). rewrite Hk in Hu.
  destruct (units_ m' !! k) as [u'|]; [|discriminate Hu]. exists u'.
  split; [done|]. by apply fmap_shape_some.
Qed.

Lemma same_shape_sym (m m' : UnitManager) : same_shape m m' -> same_shape m' m.
Proof. intros [Hf Hu]. split; [done|]. intros k. by rewrite Hu. Qed.

Lemma same_shape_none (m m' : UnitManager) (k : string) :
  same_shape m m' -> units_ m !! k = None -> units_ m' !! k = None.
Proof.
  intros [_ Hu] Hk. specialize (Hu k). rewrite Hk in Hu.
  destruct (units_ m' !! k); [discriminate Hu|done].
Qed.

Lemma same_shape_by_file (path : string) (m m' : UnitManager) :
  same_shape m m' -> get_units_by_file path m' = get_units_by_file path m.
Proof.
  intros Hsame. pose proof Hsame as [Hf Hu]. unfold get_units_by_file.
  rewrite <- Hf. rewrite (sort_by_start_ext (units_ m) (units_ m')).
  - f_equal. destruct (file_units_ m !! path) as [ids|]; [|done].
    apply list_filter_iff. intros k. specialize (Hu k).
    destruct (units_ m !! k), (units_ m' !! k); try discriminate Hu.
    + split; intros _; by eexists.
    + split; by intros [? ?].
  - intros k. specialize (Hu k).
    destruct (units_ m !! k) as [u|], (units_ m' !! k) as [u'|];
      try discriminate Hu; [|done].
    simpl. f_equal. apply fmap_shape_some in Hu. symmetry.
    by apply shape_fields in Hu as (_ & ? & _).
Qed.

Lemma same_shape_in_range (path : string) (s e : Z) (m m' : UnitManager) :
  same_shape m m' -> get_units_in_range path s e m' = get_units_in_range path s e m.
Proof.
  intros Hsame. unfold get_units_in_range.
  rewrite (same_shape_by_file path m m') by done.
  induction (get_units_by_file path m) as [|k l IH]; [done|].
  simpl. rewrite IH. destruct Hsame as [_ Hu]. specialize (Hu k).
  destruct (units_ m !! k) as [u|], (units_ m' !! k) as [u'|];
    try discriminate Hu; [|done].
  apply fmap_shape_some, shape_fields in Hu as (_ & Hs & He & _).
  unfold overlaps. by rewrite Hs, He.
Qed.

Lemma same_shape_edge (m m' : UnitManager) (a b : string) :
  same_shape m m' -> dependent_edge m a b -> dependent_edge m' a b.
Proof.
  intros Hsame (u & Hu & Hb).
  destruct (same_shape_lookup m m' a u Hsame Hu) as (u' & Hu' & Hshape).
  exists u'. split; [done|]. apply shape_fields in Hshape as (_ & _ & _ & _ & <-).
  done.
Qed.

Lemma same_shape_reachable (m m' : UnitManager) (a b : string) :
  same_shape m m' -> reachable m a b ↔ reachable m' a b.
Proof.
  intros Hsame. split; intros Hr.
  - induction Hr as [|x y z Hedge _ IH]; [apply rtc_refl|].
    eapply rtc_l; [|exact IH]. by eapply same_shape_edge.
  - induction Hr as [|x y z Hedge _ IH]; [apply rtc_refl|].
    eapply rtc_l; [|exact IH]. eapply same_shape_edge; [|done].
    by apply same_shape_sym.
Qed.

Lemma mark_dependents_fold (l : list string) : ∀ st,
  same_shape st.1 (foldl mark_dependent st l).1
  ∧ (foldl mark_dependent st l).2 = list_to_set l ∪ st.2.
Proof.
  induction l as [|d l IH]; intros st.
  { split; [apply same_shape_refl|]. simpl. set_solver. }
  simpl. destruct (IH (mark_dependent st d)) as [Hshape Hset]. split.
  - eapply same_shape_trans; [|exact Hshape]. apply mark_same_shape.
  - rewrite Hset. unfold mark_dependent. simpl. set_solver.
Qed.

Lemma touch_unit_spec (m : UnitManager) (st : UnitManager * gset string)
  (k : string) :
  same_shape m st.1 ->
  same_shape m (touch_unit st k).1
  ∧ ∀ q, q ∈ (touch_unit st k).2
         ↔ q ∈ st.2 ∨ ∃ u, units_ m !! k = Some u ∧ reachable m (id u) q.
Proof.
  intros Hsame. unfold touch_unit.
  destruct (units_ st.1 !! k) as [u'|] eqn:Hk.
  - destruct (same_shape_lookup _ _ k u' (same_shape_sym _ _ Hsame) Hk)
      as (u & Hu & Hshape).
    apply shape_fields in Hshape as (Hid & _).
    assert (same_shape m (mark MODIFIED k st.1)) as Hsame1
      by (eapply same_shape_trans; [done|apply mark_same_shape]).
    destruct (mark_dependents_fold
                (get_affected_units (mark MODIFIED k st.1) (id u'))
                (mark MODIFIED k st.1, {[id u']} ∪ st.2)) as [Hshape Hset].
    split; [by eapply same_shape_trans|].
    intros q. rewrite Hset. cbn [snd].
    rewrite !elem_of_union, elem_of_list_to_set, elem_of_singleton.
    rewrite get_affected_units_elem, <- (same_shape_reachable m) by done.
    rewrite Hid. split.
    + intros [[Hreach _]|[->|Hq]]; [right|right|by left].
      * by exists u.
      * exists u. split; [done|apply rtc_refl].
    + intros [Hq|(u0 & Hu0 & Hreach)]; [by right; right|].
      rewrite Hu in Hu0. injection Hu0 as <-.
      destruct (decide (q = id u)) as [->|Hne]; [by right; left|by left].
  - split; [done|]. intros q. split; [by left|].
    intros [Hq|(u & Hu & _)]; [done|].
    by rewrite (same_shape_none _ _ k (same_shape_sym _ _ Hsame) Hk) in Hu.
Qed.

Lemma touch_units_spec (m : UnitManager) (l : list string) : ∀ st,
  same_shape m st.1 ->
  same_shape m (foldl touch_unit st l).1
  ∧ ∀ q, q ∈ (foldl touch_unit st l).2
         ↔ q ∈ st.2 ∨ ∃ k u, k ∈ l ∧ units_ m !! k = Some u ∧ reachable m (id u) q.
Proof.
  induction l as [|k l IH]; intros st Hsame.
  { split; [done|]. intros q. simpl. split; [by left|].
    intros [Hq|(k & u & Hk & _)]; [done|by apply elem_of_nil in Hk]. }
  simpl. destruct (touch_unit_spec m st k Hsame) as [Hsame1 Hset1].
  destruct (IH _ Hsame1) as [Hsame2 Hset2]. split; [done|].
  intros q. rewrite Hset2, Hset1. split.
  - intros [[Hq|(u & Hu & Hr)]|(k' & u & Hk' & Hu & Hr)].
    + by left.
    + right. exists k, u. split; [by left|done].
    + right. exists k', u. split; [by right|done].
  - intros [Hq|(k' & u & Hk' & Hu & Hr)]; [by left; left|].
    apply elem_of_cons in Hk' as [->|Hk'].
    + left. right. by exists u.
    + right. by exists k', u.
Qed.

Lemma touch_lines_spec (path : string) (m : UnitManager) (lines : list Z) : ∀ st,
  same_shape m st.1 ->
  same_shape m (foldl (touch_line path) st lines).1
  ∧ ∀ q, q ∈ (foldl (touch_line path) st lines).2
         ↔ q ∈ st.2 ∨ touched path lines m q.
Proof.
  induction lines as [|line lines IH]; intros st Hsame.
  { split; [done|]. intros q. simpl. split; [by left|].
    intros [Hq|(line & k & u & Hl & _)]; [done|by apply elem_of_nil in Hl]. }
  assert (touch_line path st line
          = foldl touch_unit st (get_units_in_range path line line m)) as Hline
    by (unfold touch_line; by rewrite (same_shape_in_range path line line m st.1)).
  simpl. rewrite Hline.
  destruct (touch_units_spec m (get_units_in_range path line line m) st Hsame)
    as [Hsame1 Hset1].
  destruct (IH _ Hsame1) as [Hsame2 Hset2]. split; [done|].
  intros q. rewrite Hset2, Hset1. unfold touched. split.
  - intros [[Hq|(k & u & Hk & Hu & Hr)]|(l' & k & u & Hl & Hk & Hu & Hr)].
    + by left.
    + right. exists line, k, u. split; [by left|done].
    + right. exists l', k, u. split; [by right|done].
  - intros [Hq|(l' & k & u & Hl & Hk & Hu & Hr)]; [by left; left|].
    apply elem_of_cons in Hl as [->|Hl].
    + left. right. by exists k, u.
    + right. by exists l', k, u.
Qed.

Lemma mark_set_same_shape (S : gset string) (m : UnitManager) :
  same_shape m (mark_set S m).
Proof.
  split; [done|]. intros k. rewrite lookup_mark_set.
  destruct (units_ m !! k) as [u|]; [|done]. simpl. f_equal.
  destruct (decide (k ∈ S)); [|done]. by destruct u.
Qed.

Lemma expand_to_boundaries_run (path : string) (ids : list string) (m : UnitManager) :
  expand_to_boundaries path ids m
  = (mark_set (list_to_set (ids ≫= parents_of path m) ∪ ∅) m,
     elements (list_to_set (omap (id_behind m) (ids ≫= parents_of path m))
               ∪ (list_to_set ids : gset string))).
Proof.
  pose proof (expand_all path m ids ∅ (list_to_set ids)) as Hrun.
  rewrite mark_set_empty in Hrun.
  unfold expand_to_boundaries. cbv zeta. by rewrite Hrun.
Qed.

Lemma expand_to_boundaries_elem (path : string) (ids : list string)
  (m : UnitManager) (q : string) :
  q ∈ (expand_to_boundaries path ids m).2
  ↔ q ∈ ids ∨ ∃ p parent, boundary_of path ids m p parent ∧ id parent = q.
Proof.
  rewrite expand_to_boundaries_run. cbn [snd].
  rewrite elem_of_elements, elem_of_union, !elem_of_list_to_set.
  rewrite list_elem_of_omap. unfold id_behind. split.
  - intros [(p & Hp & Hq)|Hq]; [|by left]. right.
    apply elem_of_parents in Hp as (parent & Hb). exists p, parent.
    split; [done|]. destruct Hb as (_ & Hparent & _).
    rewrite Hparent in Hq. by injection Hq.
  - intros [Hq|(p & parent & Hb & Hq)]; [by right|]. left. exists p.
    split; [apply elem_of_parents; by exists parent|].
    destruct Hb as (_ & Hparent & _). by rewrite Hparent, <- Hq.
Qed.

Lemma boundary_same_shape (path : string) (ids : list string) (m m' : UnitManager)
  (p : string) (parent' : CompilationUnit) :
  same_shape m m' -> boundary_of path ids m' p parent' ->
  ∃ parent, boundary_of path ids m p parent ∧ id parent = id parent'.
Proof.
  intros Hsame (Hfile & Hp & x & u' & Hx & Hu' & Hs & Hid & Henc & Hstruct).
  pose proof (same_shape_sym _ _ Hsame) as Hsame'.
  destruct (same_shape_lookup _ _ p parent' Hsame' Hp) as (parent & Hparent & Hsp).
  destruct (same_shape_lookup _ _ x u' Hsame' Hu') as (u & Hu & Hsu).
  apply shape_fields in Hsp as (Hpid & Hps & Hpe & Hpt & _).
  apply shape_fields in Hsu as (_ & Hus & Hue & Hut & _).
  exists parent. split; [|done]. split_and!.
  - by rewrite <- (same_shape_by_file path m m').
  - done.
  - exists x, u. unfold is_structural, encloses in *.
    rewrite <- Hpid, <- Hps, <- Hpe, <- Hpt, <- Hus, <- Hue, <- Hut.
    split_and!; done.
Qed.

(** X22. The units an update of a file with a snapshot leaves to compile:
    the units of the file that overlap a changed line, everything reachable
    from them along [dependents] edges, and the [FUNCTION] and [CLASS]
    units of the file that enclose one of these. Each is listed once, the
    change records are those of the listed ids that name a stored unit, and
    the units differ from those before in state and [cache_valid] only. *)
Theorem update_source_affected (abi : char_abi) (now : Z)
  (path new_content : string) (e : IncrementalEngine) (old_snap : Snapshot) :
  snapshots_ e !! path = Some old_snap ->
  let changed :=
    get_changed_lines old_snap (create_snapshot abi now path new_content) in
  let r := update_source abi now path new_content e in
  NoDup (units_to_compile_ r.2)
  ∧ (∀ q, q ∈ units_to_compile_ r.2
          ↔ touched path changed (eng_units_ e) q
            ∨ enclosing path changed (eng_units_ e) q)
  ∧ (∀ q, q ∈ map unit_id r.1
          ↔ q ∈ units_to_compile_ r.2 ∧ is_Some (units_ (eng_units_ e) !! q))
  ∧ same_shape (eng_units_ e) (eng_units_ r.2).
Proof.
  intros Hsnap changed r. subst r. unfold update_source. rewrite Hsnap. cbv zeta.
  unfold affected_after. fold changed.
  destruct (touch_lines_spec path (eng_units_ e) changed (eng_units_ e, ∅)
              (same_shape_refl _)) as [Hshape Hset].
  set (st := foldl (touch_line path) (eng_units_ e, ∅) changed) in *.
  pose proof (expand_to_boundaries_elem path (elements st.2) st.1) as Helem.
  pose proof (expand_to_boundaries_run path (elements st.2) st.1) as Hrun.
  destruct (expand_to_boundaries path (elements st.2) st.1) as [m2 ids] eqn:Hexp.
  injection Hrun as Hm2 Hids. cbn [fst snd units_to_compile_ eng_units_ app] in *.
  assert (same_shape (eng_units_ e) m2) as Hshape2.
  { rewrite Hm2. eapply same_shape_trans; [exact Hshape|apply mark_set_same_shape]. }
  assert (∀ x, x ∈ elements st.2 ↔ touched path changed (eng_units_ e) x) as Hst.
  { intros x. rewrite elem_of_elements, Hset. set_solver. }
  split_and!.
  - rewrite Hids. apply NoDup_elements.
  - intros q. rewrite Helem, Hst. apply or_iff_compat_l. split.
    + intros (p & parent' & Hb & Hq).
      destruct (boundary_same_shape _ _ _ _ _ _ Hshape Hb)
        as (parent & (Hfile & Hp & x & u & Hx & Hu & Hs & Hid & Henc & Hstruct) & Hpid).
      exists p, parent, x, u. apply Hst in Hx. split_and!; try done. congruence.
    + intros (p & parent & x & u & Hfile & Hp & Hq & Hstruct & Hx & Hu & Hs & Hid & Henc).
      assert (boundary_of path (elements st.2) (eng_units_ e) p parent) as Hb.
      { split_and!; [done..|]. exists x, u. apply Hst in Hx. by split_and!. }
      destruct (boundary_same_shape _ _ _ _ _ _ (same_shape_sym _ _ Hshape) Hb)
        as (parent' & Hb' & Hpid).
      exists p, parent'. split; [done|congruence].
  - intros q. unfold records_of. split.
    + intros Hq. apply list_elem_of_fmap in Hq as (rec & -> & Hrec).
      apply list_elem_of_omap in Hrec as (k & Hk & Hrec).
      destruct (units_ m2 !! k) as [u2|] eqn:Hu2; [|done].
      injection Hrec as <-. simpl. split; [done|].
      destruct (same_shape_lookup _ _ k u2 (same_shape_sym _ _ Hshape2) Hu2)
        as (u & Hu & _).
      by eexists.
    + intros [Hq [u Hu]].
      destruct (same_shape_lookup _ _ q u Hshape2 Hu) as (u2 & Hu2 & _).
      apply list_elem_of_fmap. exists (record_of q u2). split; [done|].
      apply list_elem_of_omap. exists q. split; [done|]. by rewrite Hu2.
  - done.
Qed.

Lemma update_source_affected_witness :
  ∃ old_snap,
    snapshots_ two_files_engine !! "a.py" = Some old_snap
    ∧ ∀ q, q ∈ units_to_compile_
                 (update_source SignedChar 3 "a.py" "z" two_files_engine).2
           ↔ touched "a.py"
               (get_changed_lines old_snap (create_snapshot SignedChar 3 "a.py" "z"))
               (eng_units_ two_files_engine) q
             ∨ enclosing "a.py"
                 (get_changed_lines old_snap (create_snapshot SignedChar 3 "a.py" "z"))
                 (eng_units_ two_files_engine) q.
Proof.
  assert (is_Some (snapshots_ two_files_engine !! "a.py")) as [old_snap Hsnap].
  { vm_compute. eexists. reflexivity. }
  exists old_snap. split; [done|].
  by destruct (update_source_affected SignedChar 3 "a.py" "z" two_files_engine
                 old_snap Hsnap) as (_ & Hq & _).
Defined.

(** ** IncrementalEngine: the combined output in closed form *)

Lemma unit_output_cache (u : CompilationUnit) (c : CompilationCache.t) :
  CompilationCache.cache_ (unit_output u c).2 = CompilationCache.cache_ c
  ∧ CompilationCache.misses_ (unit_output u c).2 = CompilationCache.misses_ c.
Proof.
  unfold unit_output. destruct (cache_valid u); [done|].
  unfold CompilationCache.is_valid, CompilationCache.get.
  destruct (CompilationCache.cache_ c !! id u) as [entry|]; [|done].
  by destruct (String.eqb _ _).
Qed.

Lemma unit_output_fragment (u : CompilationUnit) (c c' : CompilationCache.t) :
  CompilationCache.cache_ c' = CompilationCache.cache_ c ->
  (unit_output u c').1 = fragment c u.
Proof.
  intros Hsame. unfold fragment, unit_output. destruct (cache_valid u); [done|].
  unfold CompilationCache.is_valid, CompilationCache.get. rewrite Hsame.
  destruct (CompilationCache.cache_ c !! id u) as [entry|]; [|done].
  by destruct (String.eqb _ _).
Qed.

Lemma join_lines_from_succ (i : nat) (lines : list string) :
  join_lines_from (S i) lines
  = concat_strings (map (fun l => nl ++ l) lines).
Proof.
  revert i. induction lines as [|l lines IH]; intros i; [done|].
  simpl. by rewrite IH, str_app_assoc.
Qed.

Lemma combine_from_succ (us : gmap string CompilationUnit) (c0 : CompilationCache.t)
  (ptrs : list string) : ∀ i oss c,
  CompilationCache.cache_ c = CompilationCache.cache_ c0 ->
  (combine_from us (S i) ptrs oss c).1
  = oss ++ join_lines_from 1
             (List.filter nonempty (omap (fun p => fragment c0 <$> us !! p) ptrs))
  ∧ CompilationCache.cache_ (combine_from us (S i) ptrs oss c).2
    = CompilationCache.cache_ c0
  ∧ CompilationCache.misses_ (combine_from us (S i) ptrs oss c).2
    = CompilationCache.misses_ c.
Proof.
  induction ptrs as [|p ptrs IH]; intros i oss c Hc.
  { simpl. by rewrite str_app_nil_r. }
  simpl. destruct (us !! p) as [u|]; simpl; [|by apply IH].
  pose proof (unit_output_fragment u c0 c Hc) as Hfrag.
  destruct (unit_output_cache u c) as [Hcache Hmiss].
  destruct (unit_output u c) as [out c1]. simpl in *. subst out.
  destruct (IH (S i) (if String.eqb (fragment c0 u) "" then oss
                      else (oss ++ nl) ++ fragment c0 u) c1) as (Hout & Hc1 & Hm1);
    [congruence|].
  rewrite Hout, Hc1, Hm1, Hmiss. split_and!; [|done..].
  unfold nonempty at 2. destruct (String.eqb (fragment c0 u) ""); simpl; [done|].
  by rewrite (join_lines_from_pos _ 1 0), !str_app_assoc.
Qed.

(** X23. The combined output of a file is the outputs of its units that
    are not empty, in the order of the units and joined by newlines, with
    one more newline in front exactly when the first unit has no output and
    a later one has. Reading it never counts a cache miss and leaves the
    cache entries as they are. *)
Theorem get_combined_output_closed (path : string) (e : IncrementalEngine) :
  let written := List.filter nonempty (fragments path e) in
  (get_combined_output path e).1
  = match fragments path e, written with
    | first :: _, _ :: _ => (if nonempty first then "" else nl) ++ join_lines written
    | _, _ => ""
    end
  ∧ CompilationCache.cache_ (get_combined_output path e).2
    = CompilationCache.cache_ (eng_cache_ e)
  ∧ CompilationCache.misses_ (get_combined_output path e).2
    = CompilationCache.misses_ (eng_cache_ e).
Proof.
  unfold get_combined_output, fragments. cbv zeta.
  set (us := units_ (eng_units_ e)).
  destruct (sort_by_start us (get_units_by_file path (eng_units_ e)))
    as [|p ptrs] eqn:Hsorted; [done|].
  simpl. destruct (us !! p) as [u|] eqn:Hp; simpl.
  - pose proof (unit_output_fragment u (eng_cache_ e) (eng_cache_ e) eq_refl) as Hfrag.
    destruct (unit_output_cache u (eng_cache_ e)) as [Hcache Hmiss].
    destruct (unit_output u (eng_cache_ e)) as [out c1]. simpl in *. subst out.
    destruct (combine_from_succ us (eng_cache_ e) ptrs 0
                (if String.eqb (fragment (eng_cache_ e) u) "" then ""
                 else "" ++ fragment (eng_cache_ e) u) c1 Hcache)
      as (Hout & Hc1 & Hm1).
    rewrite Hout, Hc1, Hm1, Hmiss. split_and!; [|done..].
    unfold nonempty. cbn [List.filter].
    destruct (String.eqb (fragment (eng_cache_ e) u) "") eqn:Hempty; cbn [negb].
    + rewrite str_app_nil_l.
      destruct (List.filter _ _) as [|l rest]; [done|].
      unfold join_lines.
      change (join_lines_from 1 (l :: rest)) with (nl ++ l ++ join_lines_from 2 rest).
      change (join_lines_from 0 (l :: rest)) with ("" ++ l ++ join_lines_from 1 rest).
      by rewrite str_app_nil_l, (join_lines_from_pos rest 1 0).
    + rewrite !str_app_nil_l. unfold join_lines.
      cbn [join_lines_from Nat.ltb Nat.leb]. by rewrite str_app_nil_l.
  - assert (p ∈ get_units_by_file path (eng_units_ e)) as Hin
      by (rewrite <- (sort_by_start_perm us), Hsorted; by left).
    rewrite get_units_by_file_perm in Hin.
    apply list_elem_of_filter in Hin as [[u Hu] _].
    unfold us in Hp. by rewrite Hp in Hu.
Qed.

(** ** IncrementalEngine: compiling what is pending *)

Lemma mark_compiled_pending (now : Z) (k out : string) (e : IncrementalEngine) :
  units_to_compile_ (mark_compiled now k out e) = erase_all k (units_to_compile_ e).
Proof. unfold mark_compiled. by destruct (units_ (eng_units_ e) !! k). Qed.

Lemma mark_compiled_lookup (now : Z) (k out j : string) (e : IncrementalEngine) :
  units_ (eng_units_ (mark_compiled now k out e)) !! j
  = if decide (j = k)
    then (fun u => set_state UNCHANGED (set_cache_valid true (set_cached out now u)))
         <$> units_ (eng_units_ e) !! k
    else units_ (eng_units_ e) !! j.
Proof.
  unfold mark_compiled. destruct (units_ (eng_units_ e) !! k) as [u|] eqn:Hk; simpl.
  - destruct (decide (j = k)) as [->|Hne];
      [by rewrite lookup_insert_eq|by rewrite lookup_insert_ne].
  - by destruct (decide (j = k)) as [->|Hne].
Qed.

Lemma compile_fold_pending (now : Z) (out : string -> string) (l : list string) :
  ∀ e x, x ∈ units_to_compile_ (foldl (fun e k => mark_compiled now k (out k) e) e l)
         -> x ∈ units_to_compile_ e ∧ x ∉ l.
Proof.
  induction l as [|k l IH]; intros e x Hx.
  { split; [done|apply not_elem_of_nil]. }
  simpl in Hx. apply IH in Hx as [Hx Hl].
  rewrite mark_compiled_pending in Hx. apply elem_of_erase_all in Hx as [Hx Hne].
  split; [done|]. rewrite not_elem_of_cons. done.
Qed.

Lemma compile_fold_missing (now : Z) (out : string -> string) (l : list string) :
  ∀ e k, units_ (eng_units_ e) !! k = None ->
    units_ (eng_units_ (foldl (fun e k => mark_compiled now k (out k) e) e l)) !! k
    = None.
Proof.
  induction l as [|j l IH]; intros e k Hk; [done|].
  simpl. apply IH. rewrite mark_compiled_lookup.
  destruct (decide (k = j)) as [->|Hne]; [by rewrite Hk|done].
Qed.

Lemma compile_fold_units (now : Z) (out : string -> string) (l : list string) :
  ∀ e k u',
    units_ (eng_units_ (foldl (fun e k => mark_compiled now k (out k) e) e l)) !! k
    = Some u' ->
    (k ∈ l ∨ ∃ u, units_ (eng_units_ e) !! k = Some u ∧ cached_output u = out k
                  ∧ cache_valid u = true ∧ state u = UNCHANGED) ->
    cached_output u' = out k ∧ cache_valid u' = true ∧ state u' = UNCHANGED.
Proof.
  induction l as [|j l IH]; intros e k u' Hk Hdone.
  { simpl in Hk. destruct Hdone as [Hin|(u & Hu & Hdone)];
      [by apply elem_of_nil in Hin|]. rewrite Hu in Hk. by injection Hk as <-. }
  simpl in Hk. apply (IH _ _ _ Hk).
  destruct (decide (k = j)) as [->|Hne].
  - right. rewrite mark_compiled_lookup, decide_True by done.
    destruct (units_ (eng_units_ e) !! j) as [u|] eqn:Hu; [by eexists|].
    rewrite compile_fold_missing in Hk; [done|].
    by rewrite mark_compiled_lookup, decide_True, Hu.
  - destruct Hdone as [Hin|(u & Hu & Hdone)].
    + left. by apply elem_of_cons in Hin as [->|Hin].
    + right. exists u. by rewrite mark_compiled_lookup, decide_False.
Qed.

(** X24. When every pending unit has been compiled and reported with
    [mark_compiled], nothing is left to compile, and every unit that was
    pending and is stored is [UNCHANGED] and holds its output with a valid
    cache flag. *)
Theorem compile_all_pending (now : Z) (out : string -> string)
  (e : IncrementalEngine) :
  get_units_to_compile (compile_all now out e) = []
  ∧ ∀ k u', k ∈ get_units_to_compile e ->
            get_unit k (eng_units_ (compile_all now out e)) = Some u' ->
            cached_output u' = out k ∧ cache_valid u' = true
            ∧ state u' = UNCHANGED.
Proof.
  unfold compile_all, get_units_to_compile, get_unit. split.
  - apply elem_of_nil_inv. intros x Hx.
    apply compile_fold_pending in Hx as [Hx Hn]. by apply Hn.
  - intros k u' Hk Hu'. apply (compile_fold_units _ _ _ _ _ _ Hu'). by left.
Qed.

(** ** CompilationCache *)

(** What is put into the compilation cache is what comes out: after
    [put] of an output under a hash, [get] returns the output and counts a
    hit, and [is_valid] holds for that hash and no other; other ids are not
    affected.  After [invalidate] the id is gone: [get] returns the empty
    string and counts a miss. *)
Lemma compilation_cache_round_trip (now : Z) (k out hash : string)
  (c : CompilationCache.t) :
  let c' := CompilationCache.put now k out hash c in
  CompilationCache.get k c'
  = (out, CompilationCache.mk (CompilationCache.cache_dir_ c)
            (CompilationCache.cache_ c')
            (S (CompilationCache.hits_ c)) (CompilationCache.misses_ c))
  ∧ (∀ h, CompilationCache.is_valid k h c' = true ↔ h = hash)
  ∧ (∀ k' h, k' ≠ k ->
       CompilationCache.is_valid k' h c' = CompilationCache.is_valid k' h c
       ∧ (CompilationCache.get k' c').1 = (CompilationCache.get k' c).1)
  ∧ CompilationCache.has k (CompilationCache.invalidate k c') = false
  ∧ (∀ h, CompilationCache.is_valid k h (CompilationCache.invalidate k c') = false)
  ∧ CompilationCache.get k (CompilationCache.invalidate k c')
    = ("", CompilationCache.mk (CompilationCache.cache_dir_ c)
             (delete k (CompilationCache.cache_ c))
             (CompilationCache.hits_ c) (S (CompilationCache.misses_ c))).
Proof.
  intros c'. subst c'.
  unfold CompilationCache.get, CompilationCache.is_valid, CompilationCache.has,
    CompilationCache.invalidate, CompilationCache.put. simpl.
  rewrite delete_insert_eq, lookup_insert_eq, lookup_delete_eq. simpl.
  split_and!.
  - done.
  - intros h. rewrite String.eqb_eq. naive_solver.
  - intros k' h Hne. rewrite lookup_insert_ne by done.
    split; [done|]. by destruct (CompilationCache.cache_ c !! k').
  - done.
  - done.
  - done.
Qed.

(** ** LRU cache: runs, and what is evicted *)

Lemma lru_run_snoc (ops : list lru_op) (op : lru_op) (c : LRUCache.t) :
  lru_run (ops ++ [op]) c = lru_run ops c ≫= lru_step op.
Proof. unfold lru_run. by rewrite foldl_app. Qed.

Lemma last_use_snoc (ops : list lru_op) (op : lru_op) (k : string) :
  last_use (ops ++ [op]) k
  = if touches op k then S (length ops) else last_use ops k.
Proof.
  unfold last_use. rewrite rev_app_distr. simpl.
  by rewrite length_rev.
Qed.

Lemma last_use_rev_le (rops : list lru_op) (k : string) :
  (last_use_rev rops k <= length rops)%nat.
Proof.
  induction rops as [|op rops IH]; simpl; [done|].
  destruct (touches op k); lia.
Qed.

Lemma last_use_le (ops : list lru_op) (k : string) :
  (last_use ops k <= length ops)%nat.
Proof. unfold last_use. rewrite <- (length_rev ops). apply last_use_rev_le. Qed.

Lemma StronglySorted_weaken_in {A : Type} (R R' : relation A) (l : list A) :
  (∀ x y, x ∈ l -> y ∈ l -> R x y -> R' x y) ->
  StronglySorted R l -> StronglySorted R' l.
Proof.
  intros Himp Hs. induction Hs as [|x l Hs IH Hall]; constructor.
  - apply IH. intros a b Ha Hb. apply Himp; by right.
  - rewrite Forall_forall in *. intros y Hy.
    apply Himp; [by left|by right|by apply Hall].
Qed.

Lemma erase_node_sublist (k : string) (l : list string) :
  erase_node k l `sublist_of` l.
Proof.
  induction l as [|x l IH]; simpl; [done|].
  destruct (decide (x = k)); [by apply sublist_cons|by apply sublist_skip].
Qed.

Lemma removelast_sublist (l : list string) : removelast l `sublist_of` l.
Proof.
  destruct (last l) as [e|] eqn:He.
  - apply last_Some in He as [l' ->]. rewrite removelast_last.
    by apply sublist_inserts_r.
  - apply last_None in He as ->. done.
Qed.

(** The list of used keys after an operation that leaves the keys of [l]
    alone. *)
Lemma recency_untouched (ops : list lru_op) (op : lru_op) (l : list string) :
  (∀ k, k ∈ l -> touches op k = false) ->
  StronglySorted (fun a b => (last_use ops b < last_use ops a)%nat) l ->
  StronglySorted (fun a b => (last_use (ops ++ [op]) b < last_use (ops ++ [op]) a)%nat) l.
Proof.
  intros Hun. apply StronglySorted_weaken_in.
  intros a b Ha Hb. by rewrite !last_use_snoc, !Hun.
Qed.

(** The used key goes to the front. *)
Lemma recency_front (ops : list lru_op) (op : lru_op) (k : string) (l : list string) :
  touches op k = true -> (∀ k', k' ∈ l -> touches op k' = false) ->
  StronglySorted (fun a b => (last_use ops b < last_use ops a)%nat) l ->
  StronglySorted (fun a b => (last_use (ops ++ [op]) b < last_use (ops ++ [op]) a)%nat)
                 (k :: l).
Proof.
  intros Hk Hun Hs. constructor; [by apply recency_untouched|].
  apply Forall_forall. intros b Hb.
  rewrite !last_use_snoc, Hk, Hun by done.
  pose proof (last_use_le ops b). lia.
Qed.

Lemma touches_put_other (k v k' : string) : k' ≠ k -> touches (LruPut k v) k' = false.
Proof. intros Hne. simpl. by apply bool_decide_eq_false. Qed.

Lemma touches_get_other (k k' : string) : k' ≠ k -> touches (LruGet k) k' = false.
Proof. intros Hne. simpl. by apply bool_decide_eq_false. Qed.

Lemma lru_order_nonempty (c : LRUCache.t) :
  lru_inv c -> (1 <= size (LRUCache.cache_ c))%nat ->
  is_Some (last (LRUCache.usage_order_ c)).
Proof.
  intros (_ & Hkeys & _) Hsize.
  destruct (map_size_ne_0_lookup_1 (LRUCache.cache_ c)) as (k & Hk); [lia|].
  apply Hkeys in Hk.
  destruct (last (LRUCache.usage_order_ c)) as [e|] eqn:He; [by eexists|].
  apply last_None in He. rewrite He in Hk. by apply elem_of_nil in Hk.
Qed.

Lemma lru_last_stored (c : LRUCache.t) (e : string) :
  lru_inv c -> last (LRUCache.usage_order_ c) = Some e ->
  is_Some (LRUCache.cache_ c !! e).
Proof.
  intros (_ & Hkeys & _) He. apply Hkeys.
  apply last_Some in He as [l' ->]. set_solver.
Qed.

Lemma lru_step_inv (op : lru_op) (c c' : LRUCache.t) :
  lru_inv c -> lru_step op c = Some c' ->
  lru_inv c' ∧ LRUCache.max_size_ c' = LRUCache.max_size_ c.
Proof.
  intros Hinv Hstep. pose proof Hinv as (Hnd & Hkeys & Hsize).
  destruct op as [k v|k|k]; simpl in Hstep.
  - unfold LRUCache.put in Hstep.
    destruct (LRUCache.cache_ c !! k) as [v0|] eqn:Hk.
    { injection Hstep as <-. split; [|done]. split_and!; simpl.
      - apply NoDup_cons. split; [|by apply NoDup_erase_node].
        rewrite elem_of_erase_node by done. naive_solver.
      - intros k'. rewrite elem_of_cons, elem_of_erase_node, Hkeys by done.
        destruct (decide (k' = k)) as [->|Hne].
        + rewrite lookup_insert_eq. naive_solver.
        + rewrite lookup_insert_ne by done. naive_solver.
      - rewrite map_size_insert_Some by (by eexists). done. }
    destruct (Nat.leb_spec (LRUCache.max_size_ c) (size (LRUCache.cache_ c)))
      as [Hfull|Hroom].
    + destruct (last (LRUCache.usage_order_ c)) as [e|] eqn:He; [|done].
      injection Hstep as <-. split; [|done].
      destruct (lru_last_stored c e Hinv He) as [ve Hve].
      assert (e ≠ k) as Hek by (intros ->; by rewrite Hk in Hve).
      split_and!; simpl.
      * apply NoDup_cons. split; [|by eapply NoDup_removelast].
        rewrite (elem_of_removelast e) by done. rewrite Hkeys, Hk.
        by intros [[? ?] _].
      * intros k'. rewrite elem_of_cons, (elem_of_removelast e), Hkeys by done.
        destruct (decide (k' = k)) as [->|Hne].
        { rewrite lookup_insert_eq. naive_solver. }
        rewrite lookup_insert_ne by done.
        destruct (decide (k' = e)) as [->|Hne'].
        { rewrite lookup_delete_eq. split; [naive_solver|by intros [? ?]]. }
        rewrite lookup_delete_ne by done. naive_solver.
      * rewrite map_size_insert_None by (by rewrite lookup_delete_ne).
        pose proof (map_size_delete e (LRUCache.cache_ c)) as Hdel.
        rewrite Hve in Hdel. rewrite Hdel.
        assert (size (LRUCache.cache_ c) ≠ 0%nat); [|lia].
        intros Hzero%map_size_empty_inv. by rewrite Hzero in Hve.
    + injection Hstep as <-. split; [|done]. split_and!; simpl.
      * apply NoDup_cons. split; [|done]. rewrite Hkeys, Hk. by intros [? ?].
      * intros k'. rewrite elem_of_cons, Hkeys.
        destruct (decide (k' = k)) as [->|Hne].
        { rewrite lookup_insert_eq. naive_solver. }
        rewrite lookup_insert_ne by done. naive_solver.
      * rewrite map_size_insert_None by done. lia.
  - injection Hstep as <-. unfold LRUCache.get.
    destruct (LRUCache.cache_ c !! k) as [v0|] eqn:Hk; [|done].
    split; [|done]. split_and!; simpl; [| |done].
    + apply NoDup_cons. split; [|by apply NoDup_erase_node].
      rewrite elem_of_erase_node by done. naive_solver.
    + intros k'. rewrite elem_of_cons, elem_of_erase_node, Hkeys by done.
      destruct (decide (k' = k)) as [->|Hne]; [rewrite Hk|]; naive_solver.
  - injection Hstep as <-. unfold LRUCache.remove.
    destruct (LRUCache.cache_ c !! k) as [v0|] eqn:Hk; [|done].
    split; [|done]. split_and!; simpl.
    + by apply NoDup_erase_node.
    + intros k'. rewrite elem_of_erase_node, Hkeys by done.
      destruct (decide (k' = k)) as [->|Hne].
      * rewrite lookup_delete_eq. split; [naive_solver|by intros [? ?]].
      * rewrite lookup_delete_ne by done. naive_solver.
    + pose proof (map_size_delete k (LRUCache.cache_ c)) as Hdel.
      rewrite Hk in Hdel. lia.
Qed.

Lemma lru_step_defined (op : lru_op) (c : LRUCache.t) :
  lru_inv c -> (1 <= LRUCache.max_size_ c)%nat -> is_Some (lru_step op c).
Proof.
  intros Hinv Hcap. destruct op as [k v|k|k]; simpl; [|by eexists..].
  unfold LRUCache.put. destruct (LRUCache.cache_ c !! k); [by eexists|].
  destruct (Nat.leb_spec (LRUCache.max_size_ c) (size (LRUCache.cache_ c)));
    [|by eexists].
  destruct (lru_order_nonempty c Hinv) as [e ->]; [lia|]. by eexists.
Qed.

Lemma lru_step_recency (ops : list lru_op) (op : lru_op) (c c' : LRUCache.t) :
  lru_inv c -> recency_ordered ops c -> lru_step op c = Some c' ->
  recency_ordered (ops ++ [op]) c'.
Proof.
  intros (Hnd & Hkeys & _) Hrec Hstep. unfold recency_ordered in *.
  assert (∀ k l, l `sublist_of` LRUCache.usage_order_ c -> k ∉ l ->
            (touches op k = true ∧ ∀ k', k' ≠ k -> touches op k' = false) ->
            StronglySorted
              (fun a b => (last_use (ops ++ [op]) b < last_use (ops ++ [op]) a)%nat)
              (k :: l)) as Hfront.
  { intros k l Hsub Hk [Ht Hun]. apply recency_front; [done| |].
    - intros k' Hk'. apply Hun. by intros ->.
    - by eapply StronglySorted_sublist. }
  destruct op as [k v|k|k]; simpl in Hstep.
  - assert (touches (LruPut k v) k = true
            ∧ ∀ k', k' ≠ k -> touches (LruPut k v) k' = false) as Htouch.
    { split; [by apply bool_decide_eq_true|apply touches_put_other]. }
    unfold LRUCache.put in Hstep.
    destruct (LRUCache.cache_ c !! k) as [v0|] eqn:Hk.
    { injection Hstep as <-. simpl. apply Hfront; [apply erase_node_sublist| |done].
      rewrite elem_of_erase_node by done. naive_solver. }
    assert (k ∉ LRUCache.usage_order_ c) as Hnotin.
    { rewrite Hkeys, Hk. by intros [? ?]. }
    destruct (LRUCache.max_size_ c <=? size (LRUCache.cache_ c))%nat.
    + destruct (last (LRUCache.usage_order_ c)) as [e|] eqn:He; [|done].
      injection Hstep as <-. simpl.
      apply Hfront; [apply removelast_sublist| |done].
      intros Hin. apply Hnotin. eapply elem_of_sublist; [done|].
      apply removelast_sublist.
    + injection Hstep as <-. simpl. by apply Hfront.
  - assert (touches (LruGet k) k = true
            ∧ ∀ k', k' ≠ k -> touches (LruGet k) k' = false) as Htouch.
    { split; [by apply bool_decide_eq_true|apply touches_get_other]. }
    injection Hstep as <-. unfold LRUCache.get.
    destruct (LRUCache.cache_ c !! k) as [v0|] eqn:Hk; simpl.
    + apply Hfront; [apply erase_node_sublist| |done].
      rewrite elem_of_erase_node by done. naive_solver.
    + apply recency_untouched; [|done].
      intros k' Hk'. apply touches_get_other. intros ->.
      apply Hkeys in Hk'. rewrite Hk in Hk'. by destruct Hk'.
  - injection Hstep as <-. unfold LRUCache.remove.
    destruct (LRUCache.cache_ c !! k) as [v0|] eqn:Hk; simpl.
    + apply recency_untouched; [done|].
      eapply StronglySorted_sublist; [apply erase_node_sublist|done].
    + by apply recency_untouched.
Qed.

Lemma lru_create_inv (cap : nat) : lru_inv (LRUCache.create cap).
Proof.
  unfold LRUCache.create. split_and!; simpl.
  - constructor.
  - intros k. rewrite lookup_empty. split; [by intros ?%elem_of_nil|by intros [? ?]].
  - rewrite map_size_empty. lia.
Qed.

Lemma lru_run_inv (cap : nat) (ops : list lru_op) : ∀ c,
  lru_run ops (LRUCache.create cap) = Some c ->
  lru_inv c ∧ LRUCache.max_size_ c = cap ∧ recency_ordered ops c.
Proof.
  induction ops as [|op ops IH] using rev_ind; intros c' Hrun.
  { injection Hrun as <-. split_and!; [apply lru_create_inv|done|constructor]. }
  rewrite lru_run_snoc in Hrun.
  destruct (lru_run ops (LRUCache.create cap)) as [c|]; [|done]. simpl in Hrun.
  destruct (IH c eq_refl) as (Hinv & Hmax & Hrec).
  destruct (lru_step_inv op c c' Hinv Hrun) as [Hinv' Hmax'].
  split_and!; [done|congruence|].
  exact (lru_step_recency ops op c c' Hinv Hrec Hrun).
Qed.

(** Every run on a cache of positive capacity is defined. *)
Lemma lru_run_defined (cap : nat) (ops : list lru_op) :
  (1 <= cap)%nat -> is_Some (lru_run ops (LRUCache.create cap)).
Proof.
  intros Hcap. induction ops as [|op ops IH] using rev_ind; [by eexists|].
  destruct IH as [c Hrun]. rewrite lru_run_snoc, Hrun. simpl.
  destruct (lru_run_inv cap ops c Hrun) as (Hinv & Hmax & _).
  apply lru_step_defined; [done|lia].
Qed.

Lemma lru_size_length (c : LRUCache.t) :
  NoDup (LRUCache.usage_order_ c) ->
  (∀ k, k ∈ LRUCache.usage_order_ c ↔ is_Some (LRUCache.cache_ c !! k)) ->
  size (LRUCache.cache_ c) = length (LRUCache.usage_order_ c).
Proof.
  intros Hnd Hkeys. rewrite <- size_dom, <- (size_list_to_set (C := gset string)) by done.
  f_equal. apply set_eq. intros k.
  by rewrite elem_of_dom, elem_of_list_to_set, Hkeys.
Qed.

(** X25. On an LRU cache of positive capacity every sequence of [put],
    [get] and [remove] is defined, and the cache it leaves never holds more
    keys than the capacity; its usage list names each stored key once.
    With capacity 0 every [put] takes [back()] of an empty list. *)
Theorem lru_run_safe (cap : nat) (ops : list lru_op) :
  match cap with
  | O => ∀ k v, lru_run (ops ++ [LruPut k v]) (LRUCache.create 0) = None
  | S _ =>
      ∃ c, lru_run ops (LRUCache.create cap) = Some c
           ∧ (LRUCache.size c <= cap)%nat
           ∧ LRUCache.max_size_ c = cap
           ∧ NoDup (LRUCache.usage_order_ c)
           ∧ (∀ k, k ∈ LRUCache.usage_order_ c ↔ LRUCache.contains k c = true)
           ∧ length (LRUCache.usage_order_ c) = LRUCache.size c
  end.
Proof.
  destruct cap as [|cap].
  - intros k v. rewrite lru_run_snoc.
    destruct (lru_run ops (LRUCache.create 0)) as [c|] eqn:Hrun; [|done].
    destruct (lru_run_inv 0 ops c Hrun) as ((Hnd & Hkeys & Hsize) & Hmax & _).
    simpl. unfold LRUCache.put. rewrite Hmax in *.
    assert (LRUCache.cache_ c = ∅) as Hempty by (apply map_size_empty_inv; lia).
    rewrite Hempty, lookup_empty, map_size_empty. simpl.
    destruct (last (LRUCache.usage_order_ c)) as [e|] eqn:He; [|done].
    apply last_Some in He as [l' He].
    assert (e ∈ LRUCache.usage_order_ c) as Hin by (rewrite He; set_solver).
    apply Hkeys in Hin. rewrite Hempty, lookup_empty in Hin. by destruct Hin.
  - destruct (lru_run_defined (S cap) ops) as [c Hrun]; [lia|].
    destruct (lru_run_inv (S cap) ops c Hrun) as ((Hnd & Hkeys & Hsize) & Hmax & _).
    exists c. unfold LRUCache.size, LRUCache.contains.
    split_and!; [done|lia|done|done| |by rewrite lru_size_length].
    intros k. by rewrite Hkeys, bool_decide_eq_true.
Qed.

(** X26. The key a [put] evicts from a full LRU cache is the least
    recently used one: among the stored keys it is the one whose last
    [put] or [get] lies furthest back in the history of the cache.  The new
    key is stored, all other keys stay, and the size is unchanged. *)
Theorem lru_evicts_least_recently_used (cap : nat) (ops : list lru_op)
  (c : LRUCache.t) (k v : string) :
  (1 <= cap)%nat ->
  lru_run ops (LRUCache.create cap) = Some c ->
  LRUCache.cache_ c !! k = None ->
  (cap <= LRUCache.size c)%nat ->
  ∃ e c', LRUCache.put k v c = Some (true, c')
          ∧ is_Some (LRUCache.cache_ c !! e)
          ∧ (∀ k', is_Some (LRUCache.cache_ c !! k') -> k' ≠ e ->
                   (last_use ops e < last_use ops k')%nat)
          ∧ LRUCache.cache_ c' !! e = None
          ∧ LRUCache.cache_ c' !! k = Some v
          ∧ (∀ k', k' ≠ e -> k' ≠ k ->
                   LRUCache.cache_ c' !! k' = LRUCache.cache_ c !! k')
          ∧ LRUCache.size c' = LRUCache.size c.
Proof.
  intros Hcap Hrun Hk Hfull. unfold LRUCache.size in *.
  destruct (lru_run_inv cap ops c Hrun) as (Hinv & Hmax & Hrec).
  pose proof Hinv as (Hnd & Hkeys & Hsize).
  destruct (lru_order_nonempty c Hinv) as [e He]; [lia|].
  destruct (lru_last_stored c e Hinv He) as [ve Hve].
  assert (e ≠ k) as Hek by (intros ->; by rewrite Hk in Hve).
  exists e. eexists. unfold LRUCache.put. rewrite Hk, He, Hmax.
  destruct (Nat.leb_spec cap (size (LRUCache.cache_ c))) as [_|?]; [|lia].
  split_and!; [done|by eexists|..]; simpl.
  - intros k' Hk' Hne. apply Hkeys in Hk'.
    apply last_Some in He as [l' He]. unfold recency_ordered in Hrec.
    rewrite He in Hrec, Hk'.
    apply (StronglySorted_app_1_elem_of _ _ _ k' e Hrec); set_solver.
  - by rewrite lookup_insert_ne, lookup_delete_eq.
  - by rewrite lookup_insert_eq.
  - intros k' Hne Hne'. by rewrite lookup_insert_ne, lookup_delete_ne.
  - rewrite map_size_insert_None by (by rewrite lookup_delete_ne).
    pose proof (map_size_delete e (LRUCache.cache_ c)) as Hdel.
    rewrite Hve in Hdel. rewrite Hdel.
    assert (size (LRUCache.cache_ c) ≠ 0%nat); [|lia].
    intros Hzero%map_size_empty_inv. by rewrite Hzero in Hve.
Qed.

(** Capacity 2: [a] is used again after [b] was put, so [b] goes. *)
Lemma lru_evicts_least_recently_used_witness :
  ∃ c, lru_run [LruPut "a" "1"; LruPut "b" "2"; LruGet "a"] (LRUCache.create 2)
       = Some c
       ∧ ∃ e c', LRUCache.put "c" "3" c = Some (true, c')
                 ∧ is_Some (LRUCache.cache_ c !! e)
                 ∧ (∀ k', is_Some (LRUCache.cache_ c !! k') -> k' ≠ e ->
                      (last_use [LruPut "a" "1"; LruPut "b" "2"; LruGet "a"] e
                       < last_use [LruPut "a" "1"; LruPut "b" "2"; LruGet "a"] k')%nat)
                 ∧ LRUCache.cache_ c' !! e = None
                 ∧ LRUCache.cache_ c' !! "c" = Some "3"
                 ∧ (∀ k', k' ≠ e -> k' ≠ "c" ->
                      LRUCache.cache_ c' !! k' = LRUCache.cache_ c !! k')
                 ∧ LRUCache.size c' = LRUCache.size c.
Proof.
  eexists. split; [vm_compute; reflexivity|].
  apply (lru_evicts_least_recently_used 2
           [LruPut "a" "1"; LruPut "b" "2"; LruGet "a"]).
  - lia.
  - vm_compute. reflexivity.
  - vm_compute. reflexivity.
  - vm_compute. lia.
Defined.

(** The loop of [set_max_size] on a list of stored keys. *)
Lemma lru_evict_loop (n : nat) (fuel : nat) : ∀ cache l,
  NoDup l -> (∀ k, k ∈ l ↔ is_Some (cache !! k)) -> (length l < fuel)%nat ->
  ∃ cache',
    LRUCache.evict_loop fuel (LRUCache.mk n cache l)
    = Some (LRUCache.mk n cache' (take n l))
    ∧ ∀ k, cache' !! k = if decide (k ∈ take n l) then cache !! k else None.
Proof.
  induction fuel as [|fuel IH]; intros cache l Hnd Hkeys Hfuel; [lia|].
  pose proof (lru_size_length (LRUCache.mk n cache l) Hnd Hkeys) as Hlen.
  simpl in Hlen. simpl. rewrite Hlen.
  destruct (Nat.ltb_spec n (length l)) as [Hlt|Hge].
  - destruct (last l) as [e|] eqn:He;
      [|apply last_None in He; subst l; simpl in Hlt; lia].
    pose proof He as [l' ->]%last_Some.
    rewrite removelast_last. rewrite length_app in *. simpl in *.
    apply NoDup_app in Hnd as (Hnd' & Hdisj & _).
    destruct (IH (delete e cache) l') as (cache' & -> & Hcache'); [done| |lia|].
    { intros k. destruct (decide (k = e)) as [->|Hne].
      - rewrite lookup_delete_eq. split; [|by intros [? ?]].
        intros Hin. destruct (Hdisj e Hin). by left.
      - rewrite lookup_delete_ne by done. rewrite <- Hkeys. set_solver. }
    exists cache'. rewrite take_app_le by lia. split; [done|].
    intros k. rewrite Hcache'. destruct (decide (k ∈ take n l')) as [Hin|]; [|done].
    rewrite lookup_delete_ne; [done|]. intros Heq. subst k.
    apply (Hdisj e); [|by left]. eapply elem_of_sublist; [done|].
    apply sublist_take.
  - exists cache. rewrite take_ge by lia. split; [done|].
    intros k. destruct (decide (k ∈ l)) as [|Hnotin]; [done|].
    destruct (cache !! k) eqn:Hk; [|done].
    exfalso. apply Hnotin, Hkeys. by eexists.
Qed.

(** X27. [set_max_size n] on an LRU cache keeps the [n] most recently used
    keys, that is the first [n] of the usage list, with their values, and
    drops the others; it is defined for every [n], 0 included, and changes
    nothing but the capacity when the cache holds no more than [n] keys. *)
Theorem lru_set_max_size (cap n : nat) (ops : list lru_op) (c : LRUCache.t) :
  lru_run ops (LRUCache.create cap) = Some c ->
  ∃ c', LRUCache.set_max_size n c = Some c'
        ∧ LRUCache.max_size_ c' = n
        ∧ LRUCache.usage_order_ c' = take n (LRUCache.usage_order_ c)
        ∧ (∀ k, LRUCache.cache_ c' !! k
                = if decide (k ∈ take n (LRUCache.usage_order_ c))
                  then LRUCache.cache_ c !! k else None)
        ∧ (∀ a b, a ∈ LRUCache.usage_order_ c' -> is_Some (LRUCache.cache_ c !! b) ->
                  b ∉ LRUCache.usage_order_ c' ->
                  (last_use ops b < last_use ops a)%nat).
Proof.
  intros Hrun.
  destruct (lru_run_inv cap ops c Hrun) as ((Hnd & Hkeys & _) & _ & Hrec).
  unfold LRUCache.set_max_size.
  destruct (lru_evict_loop n (S (length (LRUCache.usage_order_ c)))
              (LRUCache.cache_ c) (LRUCache.usage_order_ c))
    as (cache' & -> & Hcache'); [done|done|lia|].
  eexists. split; [done|]. simpl. split_and!; [done..|].
  intros a b Ha Hb Hnotin. apply Hkeys in Hb.
  unfold recency_ordered in Hrec.
  rewrite <- (take_drop n (LRUCache.usage_order_ c)) in Hrec, Hb.
  apply elem_of_app in Hb as [Hb|Hb]; [done|].
  by apply (StronglySorted_app_1_elem_of _ _ _ a b Hrec).
Qed.

Lemma lru_set_max_size_witness :
  ∃ c, lru_run [LruPut "a" "1"; LruPut "b" "2"; LruGet "a"] (LRUCache.create 2)
       = Some c
       ∧ ∃ c', LRUCache.set_max_size 1 c = Some c'
               ∧ LRUCache.max_size_ c' = 1%nat
               ∧ LRUCache.usage_order_ c' = take 1 (LRUCache.usage_order_ c)
               ∧ (∀ k, LRUCache.cache_ c' !! k
                       = if decide (k ∈ take 1 (LRUCache.usage_order_ c))
                         then LRUCache.cache_ c !! k else None)
               ∧ (∀ a b, a ∈ LRUCache.usage_order_ c' ->
                         is_Some (LRUCache.cache_ c !! b) ->
                         b ∉ LRUCache.usage_order_ c' ->
                         (last_use [LruPut "a" "1"; LruPut "b" "2"; LruGet "a"] b
                          < last_use [LruPut "a" "1"; LruPut "b" "2"; LruGet "a"] a)%nat).
Proof.
  eexists. split; [vm_compute; reflexivity|].
  apply (lru_set_max_size 2 1 [LruPut "a" "1"; LruPut "b" "2"; LruGet "a"]).
  vm_compute. reflexivity.
Defined.

(** ** LFU cache: shrinking *)

Lemma lfu_evict_loop (fuel : nat) : ∀ c,
  lists_ok (LFUCache.cache_ c) (LFUCache.freq_map_ c) ->
  (length (LFUCache.freq_map_ c !!! LFUCache.min_frequency_ c) < fuel)%nat ->
  let least := LFUCache.freq_map_ c !!! LFUCache.min_frequency_ c in
  let excess := (size (LFUCache.cache_ c) - LFUCache.max_size_ c)%nat in
  ((excess <= length least)%nat ->
   ∃ c', LFUCache.evict_loop fuel c = Some c'
         ∧ LFUCache.max_size_ c' = LFUCache.max_size_ c
         ∧ size (LFUCache.cache_ c') = (size (LFUCache.cache_ c) - excess)%nat
         ∧ ∀ k, LFUCache.cache_ c' !! k
                = if decide (k ∈ drop (length least - excess) least)
                  then None else LFUCache.cache_ c !! k)
  ∧ ((length least < excess)%nat -> LFUCache.evict_loop fuel c = None).
Proof.
  induction fuel as [|fuel IH]; intros c Hok Hfuel; [lia|].
  cbv zeta. simpl LFUCache.evict_loop.
  destruct (Nat.ltb_spec (LFUCache.max_size_ c) (size (LFUCache.cache_ c)))
    as [Hlt|Hge]; cycle 1.
  { split; [|lia]. intros _. exists c. split_and!; [done|done|lia|].
    intros k. replace (size (LFUCache.cache_ c) - LFUCache.max_size_ c)%nat
      with 0%nat by lia.
    rewrite Nat.sub_0_r, drop_all. by rewrite decide_False by apply not_elem_of_nil. }
  destruct (LFUCache.victim c) as [e|] eqn:He; cycle 1.
  { unfold LFUCache.victim in He. apply last_None in He. rewrite He. simpl.
    split; [lia|done]. }
  pose proof He as Hlast. unfold LFUCache.victim in Hlast.
  apply last_Some in Hlast as [least' Hleast].
  destruct (evict_lists_ok e c Hok He) as [Hok1 _].
  pose proof Hok as (_ & Hstored & _).
  destruct (Hstored (LFUCache.min_frequency_ c) e) as (ne & Hne & _).
  { rewrite Hleast. set_solver. }
  assert (LFUCache.freq_map_ (LFUCache.evict e c)
            !!! LFUCache.min_frequency_ (LFUCache.evict e c) = least') as Hleast1.
  { unfold LFUCache.evict. simpl.
    by rewrite lookup_total_insert_eq, Hleast, removelast_last. }
  assert (size (LFUCache.cache_ (LFUCache.evict e c))
          = (size (LFUCache.cache_ c) - 1)%nat) as Hsize1.
  { unfold LFUCache.evict. simpl. rewrite map_size_delete, Hne. simpl. lia. }
  specialize (IH (LFUCache.evict e c) Hok1). rewrite Hleast1 in IH.
  cbv zeta in IH. rewrite Hsize1 in IH.
  change (LFUCache.max_size_ (LFUCache.evict e c)) with (LFUCache.max_size_ c) in IH.
  rewrite Hleast in *. rewrite length_app in *. simpl length in *.
  destruct IH as [IHsome IHnone]; [lia|]. split.
  - intros Hfits. destruct IHsome as (c' & Hrun & Hmax & Hsize' & Hcache'); [lia|].
    exists c'. split_and!; [done|done|lia|].
    intros k. rewrite Hcache'.
    replace (length least' + 1
             - (size (LFUCache.cache_ c) - LFUCache.max_size_ c))%nat
      with (length least'
            - (size (LFUCache.cache_ c) - 1 - LFUCache.max_size_ c))%nat by lia.
    rewrite drop_app_le by lia.
    unfold LFUCache.evict. simpl.
    destruct (decide (k = e)) as [->|Hke].
    + rewrite lookup_delete_eq.
      rewrite (decide_True (P := e ∈ (_ ++ [e])%list)) by set_solver.
      by destruct (decide _).
    + rewrite lookup_delete_ne by done. apply decide_ext. set_solver.
  - intros Hover. apply IHnone. lia.
Qed.

Lemma lfu_run_lists_ok (cap : nat) (ops : list lfu_op) (c : LFUCache.t) :
  lfu_run ops (LFUCache.create cap) = Some c ->
  lists_ok (LFUCache.cache_ c) (LFUCache.freq_map_ c).
Proof.
  intros Hrun. destruct cap as [|cap].
  - apply lfu_run_capacity_zero in Hrun as ->. unfold LFUCache.create. simpl.
    split_and!.
    + intros k n Hk. by rewrite lookup_empty in Hk.
    + intros f k Hk. rewrite lookup_total_empty in Hk. by apply elem_of_nil in Hk.
    + intros f. rewrite lookup_total_empty. constructor.
  - by destruct (lfu_run_inv ops _ _ (create_inv (S cap) ltac:(lia)) Hrun)
      as [(Hok & _) _].
Qed.

(** X28. [set_max_size n] on an LFU cache evicts from the back of the list
    of the least frequently used keys and never moves on to the next
    frequency.  It is defined exactly when that list holds at least as many
    keys as have to go, and then drops that many keys from its back;
    otherwise it takes [back()] of an empty list. *)
Theorem lfu_set_max_size (cap n : nat) (ops : list lfu_op) (c : LFUCache.t) :
  lfu_run ops (LFUCache.create cap) = Some c ->
  let least := LFUCache.freq_map_ c !!! LFUCache.min_frequency_ c in
  let excess := (LFUCache.size c - n)%nat in
  ((excess <= length least)%nat ->
   ∃ c', LFUCache.set_max_size n c = Some c'
         ∧ LFUCache.max_size_ c' = n
         ∧ LFUCache.size c' = (LFUCache.size c - excess)%nat
         ∧ ∀ k, LFUCache.cache_ c' !! k
                = if decide (k ∈ drop (length least - excess) least)
                  then None else LFUCache.cache_ c !! k)
  ∧ ((length least < excess)%nat -> LFUCache.set_max_size n c = None).
Proof.
  intros Hrun. apply lfu_run_lists_ok in Hrun.
  unfold LFUCache.set_max_size, LFUCache.size.
  apply (lfu_evict_loop _ (LFUCache.mk n (LFUCache.cache_ c) (LFUCache.freq_map_ c)
                             (LFUCache.min_frequency_ c))); [done|simpl; lia].
Qed.

(** [a] was used twice and [b] once: shrinking to no key at all needs a
    second victim, which the list of frequency 1 does not have. *)
Lemma lfu_set_max_size_witness :
  ∃ c, lfu_run [LfuPut "a" "1"; LfuPut "b" "2"; LfuGet "a"] (LFUCache.create 2)
       = Some c
       ∧ LFUCache.set_max_size 0 c = None
       ∧ ∃ c', LFUCache.set_max_size 1 c = Some c'
               ∧ LFUCache.cache_ c' !! "b" = None
               ∧ LFUCache.value <$> LFUCache.cache_ c' !! "a" = Some "1".
Proof.
  eexists. split; [vm_compute; reflexivity|].
  match goal with
  | |- LFUCache.set_max_size 0 ?c = None ∧ _ =>
      destruct (lfu_set_max_size 2 0 [LfuPut "a" "1"; LfuPut "b" "2"; LfuGet "a"] c)
        as [_ Hnone]; [vm_compute; reflexivity|];
      destruct (lfu_set_max_size 2 1 [LfuPut "a" "1"; LfuPut "b" "2"; LfuGet "a"] c)
        as [Hsome _]; [vm_compute; reflexivity|]
  end.
  split; [apply Hnone; vm_compute; lia|].
  destruct Hsome as (c' & Hset & _ & _ & Hcache); [vm_compute; lia|].
  exists c'. split; [done|]. rewrite !Hcache. split; by vm_compute.
Defined.

(** ** BuildCache: storing and finding a result *)

Lemma lru_put_get (k v : string) (c c' : LRUCache.t) (r : bool) :
  LRUCache.put k v c = Some (r, c') -> r = true ∧ (LRUCache.get k c').1 = v.
Proof.
  unfold LRUCache.put, LRUCache.get. intros Hput.
  destruct (LRUCache.cache_ c !! k).
  { injection Hput as <- <-. simpl. by rewrite lookup_insert_eq. }
  destruct (_ <=? _)%nat.
  - destruct (last _); [|done]. injection Hput as <- <-. simpl.
    by rewrite lookup_insert_eq.
  - injection Hput as <- <-. simpl. by rewrite lookup_insert_eq.
Qed.

Lemma lfu_put_get (k v : string) (c c' : LFUCache.t) (r : bool) :
  LFUCache.put k v c = Some (r, c') -> r = true ∧ (LFUCache.get k c').1 = v.
Proof.
  unfold LFUCache.put, LFUCache.get. intros Hput.
  destruct (LFUCache.cache_ c !! k).
  { injection Hput as <- <-. simpl. by rewrite lookup_insert_eq. }
  destruct (_ <=? _)%nat.
  - destruct (LFUCache.victim c); [|done]. injection Hput as <- <-. simpl.
    by rewrite lookup_insert_eq.
  - injection Hput as <- <-. simpl. by rewrite lookup_insert_eq.
Qed.

Lemma base_put_get (k v : string) (c c' : BaseCache) (r : bool) :
  base_put k v c = Some (r, c') -> r = true ∧ (base_get k c').1 = v.
Proof.
  destruct c as [c|c]; simpl; intros Hput.
  - destruct (LRUCache.put k v c) as [[r0 c0]|] eqn:Hp; [|done].
    injection Hput as <- <-. simpl.
    destruct (lru_put_get _ _ _ _ _ Hp) as [-> <-]. split; [done|].
    by destruct (LRUCache.get k c0).
  - destruct (LFUCache.put k v c) as [[r0 c0]|] eqn:Hp; [|done].
    injection Hput as <- <-. simpl.
    destruct (lfu_put_get _ _ _ _ _ Hp) as [-> <-]. split; [done|].
    by destruct (LFUCache.get k c0).
Qed.

Lemma build_key_same_deps (std_hash : string -> Z)
  (disk disk' : string -> option string) (target command : string)
  (deps : list string) :
  (∀ d, d ∈ deps -> disk' d = disk d) ->
  build_key std_hash disk' target command deps
  = build_key std_hash disk target command deps.
Proof.
  intros Hsame. unfold build_key, build_key_text.
  replace (map (dep_component std_hash disk') deps)
    with (map (dep_component std_hash disk) deps); [done|].
  apply map_ext_in. intros d Hd%list_elem_of_In.
  unfold dep_component, calculate_file_hash. by rewrite Hsame.
Qed.

(** X29. A build result that was stored is found again under the same
    target, command and dependency list, with the LRU and with the LFU
    strategy, as long as the listed dependency files are as they were
    (other files do not matter); [needs_rebuild] then answers by whether the
    stored result is the empty string, so an empty result always asks for a
    rebuild. *)
Theorem build_result_round_trip (std_hash : string -> Z)
  (disk disk' : string -> option string) (target command : string)
  (deps : list string) (result : string) (b b1 : BuildCache) (r : bool) :
  cache_build_result std_hash disk target command deps result b = Some (r, b1) ->
  (∀ d, d ∈ deps -> disk' d = disk d) ->
  r = true
  ∧ (get_cached_build_result std_hash disk' target command deps b1).1 = result
  ∧ (needs_rebuild std_hash disk' target command deps b1).1 = String.eqb result "".
Proof.
  intros Hput Hsame.
  unfold cache_build_result in Hput. rewrite key_stream_text in Hput.
  fold (build_key std_hash disk target command deps) in Hput.
  destruct (base_put _ _ _) as [[r0 c0]|] eqn:Hp; [|done].
  injection Hput as <- <-.
  destruct (base_put_get _ _ _ _ _ Hp) as [-> Hget].
  assert ((get_cached_build_result std_hash disk' target command deps
             (mkBuildCache c0 (bc_cache_dir_ b))).1 = result) as Hfound.
  { unfold get_cached_build_result. rewrite key_stream_text.
    fold (build_key std_hash disk' target command deps).
    rewrite (build_key_same_deps _ disk disk') by done. simpl.
    by destruct (base_get _ c0). }
  split_and!; [done|done|].
  unfold needs_rebuild.
  destruct (get_cached_build_result _ _ _ _ _ _) as [cached b']. simpl in *.
  by rewrite Hfound.
Qed.

Lemma build_result_round_trip_witness :
  ∃ b1, cache_build_result fnv_std_hash no_files "lib" "gcc" ["a.c"] "out"
          (set_cache_strategy "lfu" lru_build_cache) = Some (true, b1)
        ∧ (get_cached_build_result fnv_std_hash no_files "lib" "gcc" ["a.c"] b1).1
          = "out"
        ∧ (needs_rebuild fnv_std_hash no_files "lib" "gcc" ["a.c"] b1).1 = false.
Proof.
  eexists. split; [vm_compute; reflexivity|].
  eapply (build_result_round_trip fnv_std_hash no_files no_files "lib" "gcc"
            ["a.c"] "out" (set_cache_strategy "lfu" lru_build_cache) _ true).
  - vm_compute. reflexivity.
  - done.
Defined.

(** ** LFU cache: runs *)

Lemma lfu_run_app (ops ops' : list lfu_op) (c : LFUCache.t) :
  lfu_run (ops ++ ops') c = lfu_run ops c ≫= lfu_run ops'.
Proof.
  revert c. induction ops as [|op ops IH]; intros c; [done|].
  simpl. destruct (lfu_step op c); [apply IH|done].
Qed.

Lemma lfu_step_defined (op : lfu_op) (c : LFUCache.t) :
  lfu_inv c -> (1 <= LFUCache.max_size_ c)%nat -> is_Some (lfu_step op c).
Proof.
  intros Hinv Hcap. destruct op as [k v|k|k]; simpl; [|by eexists..].
  unfold LFUCache.put. destruct (LFUCache.cache_ c !! k); [by eexists|].
  destruct (Nat.leb_spec (LFUCache.max_size_ c) (size (LFUCache.cache_ c)));
    [|by eexists].
  destruct (victim_of_full c Hinv) as (e & n & -> & _); [done..|]. by eexists.
Qed.

Lemma lfu_run_defined (ops : list lfu_op) : ∀ c,
  lfu_inv c -> (1 <= LFUCache.max_size_ c)%nat -> is_Some (lfu_run ops c).
Proof.
  induction ops as [|op ops IH]; intros c Hinv Hcap; [by eexists|].
  simpl. destruct (lfu_step_defined op c Hinv Hcap) as [c1 Hstep]. rewrite Hstep.
  destruct (lfu_step_inv _ _ _ Hinv Hstep) as [Hinv1 Hcap1].
  apply IH; [done|lia].
Qed.

(** X30. On an LFU cache of positive capacity every sequence of [put],
    [get] and [remove] is defined, the cache it leaves never holds more
    keys than the capacity, and every stored key is listed once, in the
    list of its own frequency.  With capacity 0 every [put] takes [back()]
    of an empty list. *)
Theorem lfu_run_safe (cap : nat) (ops : list lfu_op) :
  match cap with
  | O => ∀ k v, lfu_run (ops ++ [LfuPut k v]) (LFUCache.create 0) = None
  | S _ =>
      ∃ c, lfu_run ops (LFUCache.create cap) = Some c
           ∧ (LFUCache.size c <= cap)%nat
           ∧ LFUCache.max_size_ c = cap
           ∧ lists_ok (LFUCache.cache_ c) (LFUCache.freq_map_ c)
  end.
Proof.
  destruct cap as [|cap].
  - intros k v. rewrite lfu_run_app.
    destruct (lfu_run ops (LFUCache.create 0)) as [c|] eqn:Hrun; [|done].
    by apply lfu_run_capacity_zero in Hrun as ->.
  - pose proof (create_inv (S cap) ltac:(lia)) as Hinit.
    destruct (lfu_run_defined ops (LFUCache.create (S cap)) Hinit) as [c Hrun];
      [simpl; lia|].
    destruct (lfu_run_inv ops _ _ Hinit Hrun) as [(Hok & Hsize & _) Hmax].
    exists c. unfold LFUCache.size. simpl in Hmax.
    split_and!; [done|lia|done|done].
Qed.
